(** * RPCMate: the resilience pipeline of the HTTP/2 RPC endpoint

    A shallow embedding of class [Http2RPC] (the draft with per-method
    bulkheads and the [DEFAULTS] table): circuit breaker, per-method
    bulkhead, retry loop with timeout-wrapped attempts, JWT RS256
    validation and the authentication stage of the inbound dispatcher.

    Conventions.
    - JavaScript numbers that the code uses as counters, millisecond
      readings and thresholds are integers ([Z]).  The limits of a
      bulkhead, which [addMethod] takes as given, are numbers of the
      language or [undefined] ([Limit]).  The retry delay, which the
      code scales by 0.25 and a random draw, is an exact rational ([Q]):
      what is proved of delays holds in exact arithmetic, and the
      rounding of doubles, NaN and the infinities are left out there.
    - A string is a sequence of code units below 256.
    - [this._methods] is a plain object: its own properties in insertion
      order and its prototype.  The names of [Object.prototype] are
      listed; what its members do when called, and every read or write
      that goes through a handler installed as prototype, are inputs.
    - [Date.now()] and [Math.random()] are inputs: every call site takes
      the reading it obtained as an argument.
    - Mutable members of [this] are gathered in the record [Endpoint];
      the settings fixed by the constructor are records of their own.
    - A [try]/[catch] is the sum type [Res]; an [await] on a promise that
      is not settled yet ends one stage of the model, and the
      continuation after the [await] is a definition of its own. *)

From Stdlib Require Import ZArith QArith Qminmax Qpower Lia Lqa.
From Stdlib Require Import String Ascii List DecimalString.
From stdpp Require Import base gmap strings list.

Open Scope Z_scope.

(** ** JavaScript values *)

(** Values that cross the JSON boundary.  [JObj] lists the own properties
    of a parsed object, each key once. *)
#[warnings="-register-all"]
Inductive Json : Type :=
| JNull
| JBool (b : bool)
| JNum (n : Z)
| JStr (s : string)
| JArr (items : list Json)
| JObj (fields : list (string * Json)).

(** A property read or a variable that may be [undefined]. *)
Abbreviation JsVal := (option Json).

(** ToBoolean. *)
Definition truthy (v : JsVal) : bool :=
  match v with
  | None => false
  | Some JNull => false
  | Some (JBool b) => b
  | Some (JNum n) => negb (n =? 0)
  | Some (JStr s) => negb (String.eqb s "")
  | Some (JArr _) => true
  | Some (JObj _) => true
  end.

(** SameValueZero, the comparison of [Array.prototype.includes]; two
    arrays or objects are the same value only when they are the same
    reference, which a configured list and a decoded value never are. *)
Definition sameValueZero (a b : JsVal) : bool :=
  match a, b with
  | None, None => true
  | Some JNull, Some JNull => true
  | Some (JBool x), Some (JBool y) => Bool.eqb x y
  | Some (JNum x), Some (JNum y) => x =? y
  | Some (JStr x), Some (JStr y) => String.eqb x y
  | _, _ => false
  end.

(** [arr.includes(v)]. *)
Definition includes (arr : list Json) (v : JsVal) : bool :=
  existsb (fun x => sameValueZero (Some x) v) arr.

(** Own-property lookup in a field list. *)
Fixpoint lookup_field (k : string) (fields : list (string * Json)) : JsVal :=
  match fields with
  | [] => None
  | (k', v) :: rest => if String.eqb k' k then Some v else lookup_field k rest
  end.

(** The result of a computation that may [throw]. *)
Inductive Res (E A : Type) : Type :=
| Ok (a : A)
| Throw (e : E).
Arguments Ok {E A} a.
Arguments Throw {E A} e.

(** The computation returned. *)
Definition is_Ok {E A} (r : Res E A) : Prop := ∃ a, r = Ok a.

Definition bindRes {E A B} (r : Res E A) (k : A -> Res E B) : Res E B :=
  match r with
  | Ok a => k a
  | Throw e => Throw e
  end.

Notation "'let?' x ':=' r 'in' k" := (bindRes r (fun x => k))
  (at level 10, x name, r at level 100, k at level 200).

(** [s.startsWith(p)] and [s.includes(p)] on strings. *)
Fixpoint startsWith (p s : string) : bool :=
  match p, s with
  | EmptyString, _ => true
  | String a p', String b s' => Ascii.eqb a b && startsWith p' s'
  | String _ _, EmptyString => false
  end.

Fixpoint str_includes (p s : string) : bool :=
  startsWith p s ||
  match s with
  | EmptyString => false
  | String _ s' => str_includes p s'
  end.

(** Decimal rendering of an integer inside a template literal. *)
Definition showZ (n : Z) : string := NilZero.string_of_int (Z.to_int n).

(** An [Error] object with the two properties the client attaches. *)
Record JsError : Type := mkError {
  message : string;
  code : JsVal;
  status : JsVal
}.

(** [new Error(msg)]. *)
Definition newError (msg : string) : JsError :=
  {| message := msg; code := None; status := None |}.

(** ** Constants and settings *)

Module DEFAULTS.
Definition PORT : Z := 3000.
Definition MAX_REQUEST_SIZE : Z := 1024 * 1024.
Definition DEFAULT_TIMEOUT : Z := 30000.
Definition CONNECTION_TIMEOUT : Z := 5000.
Definition SHUTDOWN_TIMEOUT : Z := 5000.
Definition JWT_ALGORITHM : string := "RS256".
Module RESILIENCE.
Module TIMEOUT.
Definition REQUEST : Z := 30000.
Definition CONNECTION : Z := 5000.
End TIMEOUT.
Module CIRCUIT_BREAKER.
Definition FAILURE_THRESHOLD : Z := 5.
Definition RECOVERY_TIMEOUT : Z := 10000.
Definition SUCCESS_THRESHOLD : Z := 3.
End CIRCUIT_BREAKER.
Module RETRY.
Definition MAX_RETRIES : Z := 3.
Definition INITIAL_DELAY : Q := 500%Q.
Definition MAX_DELAY : Q := 5000%Q.
Definition BACKOFF_FACTOR : Q := 2%Q.
Definition RETRY_ON : list Json := [JNum 500; JNum 502; JNum 503; JNum 504].
Definition JITTER : bool := true.
End RETRY.
Module BULKHEAD.
Definition MAX_CONCURRENT : Z := 10.
Definition MAX_QUEUE : Z := 20.
Definition QUEUE_TIMEOUT : Z := 10000.
End BULKHEAD.
End RESILIENCE.
End DEFAULTS.

Record TimeoutConfig : Type := {
  timeoutEnabled : bool;
  requestTimeout : Z;
  connectionTimeout : Z
}.

Record CircuitBreakerConfig : Type := {
  circuitBreakerEnabled : bool;
  failureThreshold : Z;
  recoveryTimeout : Z;
  successThreshold : Z
}.

(** [retryOn] is [None] when a caller overrides it with [null]. *)
Record RetryConfig : Type := {
  maxRetries : Z;
  initialDelay : Q;
  maxDelay : Q;
  backoffFactor : Q;
  retryOn : option (list Json);
  jitterEnabled : bool
}.

Record Resilience : Type := {
  timeout : TimeoutConfig;
  circuitBreaker : CircuitBreakerConfig;
  retry : RetryConfig
}.

(** Option objects: an absent key is [None], and a spread
    [{...defaults, ...given}] keeps the default for it. *)
Record TimeoutOptions : Type := {
  o_timeoutEnabled : option bool;
  o_requestTimeout : option Z;
  o_connectionTimeout : option Z
}.

Record CircuitBreakerOptions : Type := {
  o_circuitBreakerEnabled : option bool;
  o_failureThreshold : option Z;
  o_recoveryTimeout : option Z;
  o_successThreshold : option Z
}.

Record RetryOptions : Type := {
  o_maxRetries : option Z;
  o_initialDelay : option Q;
  o_maxDelay : option Q;
  o_backoffFactor : option Q;
  o_retryOn : option (option (list Json));
  o_jitterEnabled : option bool
}.

Definition noTimeoutOptions : TimeoutOptions :=
  {| o_timeoutEnabled := None; o_requestTimeout := None; o_connectionTimeout := None |}.
Definition noCircuitBreakerOptions : CircuitBreakerOptions :=
  {| o_circuitBreakerEnabled := None; o_failureThreshold := None;
     o_recoveryTimeout := None; o_successThreshold := None |}.
Definition noRetryOptions : RetryOptions :=
  {| o_maxRetries := None; o_initialDelay := None; o_maxDelay := None;
     o_backoffFactor := None; o_retryOn := None; o_jitterEnabled := None |}.

Definition spreadTimeout (d : TimeoutConfig) (o : TimeoutOptions) : TimeoutConfig :=
  {| timeoutEnabled := default (timeoutEnabled d) (o_timeoutEnabled o);
     requestTimeout := default (requestTimeout d) (o_requestTimeout o);
     connectionTimeout := default (connectionTimeout d) (o_connectionTimeout o) |}.

Definition spreadCircuitBreaker (d : CircuitBreakerConfig) (o : CircuitBreakerOptions)
  : CircuitBreakerConfig :=
  {| circuitBreakerEnabled := default (circuitBreakerEnabled d) (o_circuitBreakerEnabled o);
     failureThreshold := default (failureThreshold d) (o_failureThreshold o);
     recoveryTimeout := default (recoveryTimeout d) (o_recoveryTimeout o);
     successThreshold := default (successThreshold d) (o_successThreshold o) |}.

Definition spreadRetry (d : RetryConfig) (o : RetryOptions) : RetryConfig :=
  {| maxRetries := default (maxRetries d) (o_maxRetries o);
     initialDelay := default (initialDelay d) (o_initialDelay o);
     maxDelay := default (maxDelay d) (o_maxDelay o);
     backoffFactor := default (backoffFactor d) (o_backoffFactor o);
     retryOn := default (retryOn d) (o_retryOn o);
     jitterEnabled := default (jitterEnabled d) (o_jitterEnabled o) |}.

(** The [resilience] member of the constructor's options
    ([options.resilience?.x] of an absent object spreads nothing) and the
    legacy [options.retryOptions]. *)
Record ResilienceOptions : Type := {
  r_timeout : TimeoutOptions;
  r_circuitBreaker : CircuitBreakerOptions;
  r_retry : RetryOptions
}.

Definition noResilienceOptions : ResilienceOptions :=
  {| r_timeout := noTimeoutOptions; r_circuitBreaker := noCircuitBreakerOptions;
     r_retry := noRetryOptions |}.

(** The constructor's [this.resilience = {...}]. *)
Definition constructor_resilience (resilience : ResilienceOptions)
    (retryOptions : RetryOptions) : Resilience :=
  {| timeout :=
       spreadTimeout
         {| timeoutEnabled := true;
            requestTimeout := DEFAULTS.RESILIENCE.TIMEOUT.REQUEST;
            connectionTimeout := DEFAULTS.RESILIENCE.TIMEOUT.CONNECTION |}
         (r_timeout resilience);
     circuitBreaker :=
       spreadCircuitBreaker
         {| circuitBreakerEnabled := true;
            failureThreshold := DEFAULTS.RESILIENCE.CIRCUIT_BREAKER.FAILURE_THRESHOLD;
            recoveryTimeout := DEFAULTS.RESILIENCE.CIRCUIT_BREAKER.RECOVERY_TIMEOUT;
            successThreshold := DEFAULTS.RESILIENCE.CIRCUIT_BREAKER.SUCCESS_THRESHOLD |}
         (r_circuitBreaker resilience);
     retry :=
       spreadRetry
         (spreadRetry
            {| maxRetries := DEFAULTS.RESILIENCE.RETRY.MAX_RETRIES;
               initialDelay := DEFAULTS.RESILIENCE.RETRY.INITIAL_DELAY;
               maxDelay := DEFAULTS.RESILIENCE.RETRY.MAX_DELAY;
               backoffFactor := DEFAULTS.RESILIENCE.RETRY.BACKOFF_FACTOR;
               retryOn := Some DEFAULTS.RESILIENCE.RETRY.RETRY_ON;
               jitterEnabled := DEFAULTS.RESILIENCE.RETRY.JITTER |}
            (r_retry resilience))
         retryOptions |}.

(** ** Mutable state of the endpoint *)

Inductive CircuitState : Type := CLOSED | OPEN | HALF_OPEN.

Record Circuit : Type := mkCircuit {
  state : CircuitState;
  failureCount : Z;
  successCount : Z;
  lastFailureTime : Z;
  nextAttemptTime : Z
}.

(** [this.metrics]; [startTime] and the per-target snapshot that
    [getMetrics] rebuilds are not counters and are left out. *)
Record Metrics : Type := mkMetrics {
  requestCount : Z;
  errorCount : Z;
  averageResponseTime : Q;
  retryCount : Z;
  authFailures : Z;
  timeoutCount : Z;
  circuitBreakerTrips : Z;
  bulkheadRejections : Z
}.

Definition initialMetrics : Metrics :=
  {| requestCount := 0; errorCount := 0; averageResponseTime := 0%Q;
     retryCount := 0; authFailures := 0; timeoutCount := 0;
     circuitBreakerTrips := 0; bulkheadRejections := 0 |}.

Definition incr_retryCount (m : Metrics) : Metrics :=
  mkMetrics (requestCount m) (errorCount m) (averageResponseTime m)
    (retryCount m + 1) (authFailures m) (timeoutCount m)
    (circuitBreakerTrips m) (bulkheadRejections m).


Definition incr_timeoutCount (m : Metrics) : Metrics :=
  mkMetrics (requestCount m) (errorCount m) (averageResponseTime m)
    (retryCount m) (authFailures m) (timeoutCount m + 1)
    (circuitBreakerTrips m) (bulkheadRejections m).

Definition incr_circuitBreakerTrips (m : Metrics) : Metrics :=
  mkMetrics (requestCount m) (errorCount m) (averageResponseTime m)
    (retryCount m) (authFailures m) (timeoutCount m)
    (circuitBreakerTrips m + 1) (bulkheadRejections m).

Definition incr_bulkheadRejections (m : Metrics) : Metrics :=
  mkMetrics (requestCount m) (errorCount m) (averageResponseTime m)
    (retryCount m) (authFailures m) (timeoutCount m)
    (circuitBreakerTrips m) (bulkheadRejections m + 1).

(** [#updateMetrics(responseTime, isError)]. *)
Definition updateMetrics (responseTime : Z) (isError : bool) (m : Metrics) : Metrics :=
  let n := requestCount m + 1 in
  mkMetrics n
    (if isError then errorCount m + 1 else errorCount m)
    ((averageResponseTime m * inject_Z (n - 1) + inject_Z responseTime) / inject_Z n)%Q
    (retryCount m) (authFailures m) (timeoutCount m)
    (circuitBreakerTrips m) (bulkheadRejections m).

(** *** Bulkhead bookkeeping *)

(** Function objects are compared by identity.  Admission promise [p] has
    the [resolve] and [reject] functions handed to its executor, and its
    queue item holds two arrow functions created around them. *)
Inductive Closure : Type :=
| PromiseResolve (p : nat)
| PromiseReject (p : nat)
| ItemResolve (p : nat)
| ItemReject (p : nat).

(** [f === g] on function objects. *)
Definition closure_eqb (f g : Closure) : bool :=
  match f, g with
  | PromiseResolve p, PromiseResolve q => Nat.eqb p q
  | PromiseReject p, PromiseReject q => Nat.eqb p q
  | ItemResolve p, ItemResolve q => Nat.eqb p q
  | ItemReject p, ItemReject q => Nat.eqb p q
  | _, _ => false
  end.

Record QueueItem : Type := mkItem {
  resolve : Closure;
  reject : Closure
}.

(** A JavaScript number where the code takes any: an exact finite
    value, an infinity or NaN. *)
Inductive JsNumber : Type :=
| Finite (value : Q)
| PosInfinity
| NegInfinity
| NaN.

(** A limit of a bulkhead as it is stored: a number, or [undefined]. *)
Definition Limit : Type := option JsNumber.

(** [n < limit] for an integer [n]; the comparison with [undefined] or
    NaN is false. *)
Definition belowLimit (n : Z) (limit : Limit) : bool :=
  match limit with
  | Some (Finite value) => negb (Qle_bool value (inject_Z n))
  | Some PosInfinity => true
  | _ => false
  end.

(** [config.enabled] is kept as its truthiness. *)
Record BulkheadConfig : Type := {
  bulkheadEnabled : bool;
  maxConcurrentRequests : Limit;
  maxQueueSize : Limit;
  queueTimeout : Limit
}.

Record MethodState : Type := mkMethodState {
  config : BulkheadConfig;
  activeRequests : Z;
  queuedRequests : list QueueItem;
  rejectedRequests : Z
}.

(** An admission promise. *)
Inductive Promise : Type :=
| Pending
| Fulfilled
| Rejected (e : JsError).

(** A registered handler; the [async] function is run to completion when
    it is invoked. *)
Definition Handler : Type := Json -> Res JsError JsVal.

(** [this._methods], a plain object: its own properties in the order
    they were added, each name once, and its prototype, which is
    [Object.prototype] ([None]) until a handler is assigned to the name
    [__proto__]. *)
Record MethodsObject : Type := mkMethodsObject {
  ownMethods : list (string * Handler);
  protoHandler : option Handler
}.

Definition emptyMethods : MethodsObject :=
  {| ownMethods := []; protoHandler := None |}.

Fixpoint lookupOwn (name : string) (own : list (string * Handler)) : option Handler :=
  match own with
  | [] => None
  | (name', handler) :: rest =>
      if String.eqb name' name then Some handler else lookupOwn name rest
  end.

(** An own property set: the value is replaced where the name is, or the
    property is added last. *)
Fixpoint setOwn (name : string) (handler : Handler) (own : list (string * Handler))
  : list (string * Handler) :=
  match own with
  | [] => [(name, handler)]
  | (name', handler') :: rest =>
      if String.eqb name' name then (name, handler) :: rest
      else (name', handler') :: setOwn name handler rest
  end.

(** The names [Object.prototype] has. *)
Definition objectPrototypeNames : list string :=
  ["constructor"; "__defineGetter__"; "__defineSetter__"; "hasOwnProperty";
   "__lookupGetter__"; "__lookupSetter__"; "isPrototypeOf"; "propertyIsEnumerable";
   "toString"; "valueOf"; "__proto__"; "toLocaleString"].

Fixpoint decimalValue (digits : string) (acc : N) : option N :=
  match digits with
  | EmptyString => Some acc
  | String c rest =>
      let d := N_of_ascii c in
      if ((48 <=? d) && (d <=? 57))%N then decimalValue rest (10 * acc + (d - 48))%N
      else None
  end.

(** A property name that is an array index: the canonical decimal of an
    integer below 2^32 - 1. *)
Definition arrayIndex (name : string) : option N :=
  match name with
  | EmptyString => None
  | String "0" EmptyString => Some 0%N
  | String "0" _ => None
  | _ =>
      match decimalValue name 0 with
      | Some n => if (n <=? 4294967294)%N then Some n else None
      | None => None
      end
  end.

Fixpoint insertIndex (entry : N * string) (sorted : list (N * string))
  : list (N * string) :=
  match sorted with
  | [] => [entry]
  | first :: rest =>
      if (entry.1 <=? first.1)%N then entry :: sorted
      else first :: insertIndex entry rest
  end.

(** [Object.keys(this._methods)]: the array indices in ascending order,
    then the other names in the order they were added. *)
Definition objectKeys (o : MethodsObject) : list string :=
  let names := (ownMethods o).*1 in
  (foldr insertIndex [] (omap (λ name, (λ i, (i, name)) <$> arrayIndex name) names)).*2
  ++ List.filter (λ name, match arrayIndex name with None => true | Some _ => false end)
       names.

Record Endpoint : Type := mkEndpoint {
  _methods : MethodsObject;
  circuitBreakers : gmap string Circuit;
  bulkheadMethods : gmap string MethodState;   (* this.bulkheadState.methods *)
  metrics : Metrics;
  promises : list Promise;      (* admission promises, in creation order *)
  queueTimers : gset nat        (* promises whose queue timer is armed *)
}.

Definition initialEndpoint : Endpoint :=
  {| _methods := emptyMethods; circuitBreakers := ∅; bulkheadMethods := ∅;
     metrics := initialMetrics; promises := []; queueTimers := ∅ |}.

Definition set_methods (hs : MethodsObject) (ep : Endpoint) : Endpoint :=
  mkEndpoint hs (circuitBreakers ep) (bulkheadMethods ep) (metrics ep)
    (promises ep) (queueTimers ep).
Definition set_circuitBreakers (cbs : gmap string Circuit) (ep : Endpoint) : Endpoint :=
  mkEndpoint (_methods ep) cbs (bulkheadMethods ep) (metrics ep)
    (promises ep) (queueTimers ep).
Definition set_bulkheadMethods (ms : gmap string MethodState) (ep : Endpoint) : Endpoint :=
  mkEndpoint (_methods ep) (circuitBreakers ep) ms (metrics ep)
    (promises ep) (queueTimers ep).
Definition set_metrics (m : Metrics) (ep : Endpoint) : Endpoint :=
  mkEndpoint (_methods ep) (circuitBreakers ep) (bulkheadMethods ep) m
    (promises ep) (queueTimers ep).
Definition set_promises (ps : list Promise) (ep : Endpoint) : Endpoint :=
  mkEndpoint (_methods ep) (circuitBreakers ep) (bulkheadMethods ep) (metrics ep)
    ps (queueTimers ep).
Definition set_queueTimers (ts : gset nat) (ep : Endpoint) : Endpoint :=
  mkEndpoint (_methods ep) (circuitBreakers ep) (bulkheadMethods ep) (metrics ep)
    (promises ep) ts.

(** ** Circuit breaker *)

Definition initialCircuit : Circuit :=
  {| state := CLOSED; failureCount := 0; successCount := 0;
     lastFailureTime := 0; nextAttemptTime := 0 |}.

(** [#getCircuitBreakerState]: the entry of [serviceUrl], created on
    first use. *)
Definition getCircuitBreakerState (serviceUrl : string) (ep : Endpoint)
  : Circuit * Endpoint :=
  match circuitBreakers ep !! serviceUrl with
  | Some circuit => (circuit, ep)
  | None =>
      (initialCircuit,
       set_circuitBreakers (<[serviceUrl := initialCircuit]> (circuitBreakers ep)) ep)
  end.

(** The entry as an observer sees it, without creating it. *)
Definition circuitOf (serviceUrl : string) (ep : Endpoint) : Circuit :=
  default initialCircuit (circuitBreakers ep !! serviceUrl).

(** The assignments of [#updateCircuitBreakerOnSuccess] to the entry. *)
Definition circuitOnSuccess (cfg : CircuitBreakerConfig) (circuit : Circuit) : Circuit :=
  match state circuit with
  | HALF_OPEN =>
      let successCount' := successCount circuit + 1 in
      if successThreshold cfg <=? successCount' then
        mkCircuit CLOSED 0 0 (lastFailureTime circuit) (nextAttemptTime circuit)
      else
        mkCircuit HALF_OPEN (failureCount circuit) successCount'
          (lastFailureTime circuit) (nextAttemptTime circuit)
  | CLOSED =>
      mkCircuit CLOSED 0 (successCount circuit)
        (lastFailureTime circuit) (nextAttemptTime circuit)
  | OPEN => circuit
  end.

Definition updateCircuitBreakerOnSuccess (res : Resilience) (serviceUrl : string)
    (ep : Endpoint) : Endpoint :=
  let '(circuit, ep1) := getCircuitBreakerState serviceUrl ep in
  set_circuitBreakers
    (<[serviceUrl := circuitOnSuccess (circuitBreaker res) circuit]> (circuitBreakers ep1))
    ep1.

(** The assignments of [#updateCircuitBreakerOnFailure] to the entry;
    [now1] is the reading stored in [lastFailureTime], [now2] the later
    reading that arms [nextAttemptTime].  The flag tells whether
    [circuitBreakerTrips] is incremented. *)
Definition circuitOnFailure (cfg : CircuitBreakerConfig) (now1 now2 : Z)
    (circuit : Circuit) : Circuit * bool :=
  let failureCount' := failureCount circuit + 1 in
  match state circuit with
  | CLOSED =>
      if failureThreshold cfg <=? failureCount' then
        (mkCircuit OPEN failureCount' 0 now1 (now2 + recoveryTimeout cfg), true)
      else
        (mkCircuit CLOSED failureCount' 0 now1 (nextAttemptTime circuit), false)
  | HALF_OPEN =>
      (mkCircuit OPEN failureCount' 0 now1 (now2 + recoveryTimeout cfg), false)
  | OPEN =>
      (mkCircuit OPEN failureCount' 0 now1 (nextAttemptTime circuit), false)
  end.

Definition updateCircuitBreakerOnFailure (res : Resilience) (serviceUrl : string)
    (now1 now2 : Z) (ep : Endpoint) : Endpoint :=
  let '(circuit, ep1) := getCircuitBreakerState serviceUrl ep in
  let '(circuit', tripped) := circuitOnFailure (circuitBreaker res) now1 now2 circuit in
  let ep2 :=
    set_circuitBreakers (<[serviceUrl := circuit']> (circuitBreakers ep1)) ep1 in
  if tripped then set_metrics (incr_circuitBreakerTrips (metrics ep2)) ep2 else ep2.

(** The result object of [#checkCircuitBreaker]. *)
Record CircuitCheck : Type := {
  allowed : bool;
  check_error : option JsError
}.

Definition circuitOpenError (serviceUrl : string) : JsError :=
  newError ("Circuit breaker is OPEN for " +:+ serviceUrl).

(** [#checkCircuitBreaker]; [now] is its [Date.now()]. *)
Definition checkCircuitBreaker (res : Resilience) (serviceUrl : string) (now : Z)
    (ep : Endpoint) : CircuitCheck * Endpoint :=
  if negb (circuitBreakerEnabled (circuitBreaker res)) then
    ({| allowed := true; check_error := None |}, ep)
  else
    let '(circuit, ep1) := getCircuitBreakerState serviceUrl ep in
    match state circuit with
    | OPEN =>
        if nextAttemptTime circuit <=? now then
          ({| allowed := true; check_error := None |},
           set_circuitBreakers
             (<[serviceUrl :=
                  mkCircuit HALF_OPEN (failureCount circuit) 0
                    (lastFailureTime circuit) (nextAttemptTime circuit)]>
                (circuitBreakers ep1))
             ep1)
        else
          ({| allowed := false; check_error := Some (circuitOpenError serviceUrl) |}, ep1)
    | _ => ({| allowed := true; check_error := None |}, ep1)
    end.

(** [resetCircuitBreaker]. *)
Definition resetCircuitBreaker (serviceUrl : string) (ep : Endpoint) : Endpoint :=
  match circuitBreakers ep !! serviceUrl with
  | Some _ =>
      set_circuitBreakers (<[serviceUrl := initialCircuit]> (circuitBreakers ep)) ep
  | None => ep
  end.

(** ** Retry engine *)

(** [#calculateRetryDelay(attempt, config)] in exact arithmetic;
    [random] is the draw of [Math.random()], read only when jitter is
    enabled. *)
Definition calculateRetryDelay (attempt : nat) (config : RetryConfig) (random : Q) : Q :=
  let delay := (initialDelay config * backoffFactor config ^ Z.of_nat attempt)%Q in
  let delay := Qmin delay (maxDelay config) in
  let delay :=
    if jitterEnabled config then
      (delay + delay * 0.25 * (random - 0.5) * 2)%Q
    else delay in
  Qmax delay 0.

(** [#shouldRetry(error, retryOn)]. *)
Definition shouldRetry (error : JsError) (retryOn : option (list Json)) : bool :=
  match retryOn with
  | None => false
  | Some retryOn =>
      if (length retryOn =? 0)%nat then false
      else if truthy (status error) && includes retryOn (status error) then true
      else if truthy (code error) && includes retryOn (code error) then true
      else if includes retryOn (Some (JStr "ETIMEDOUT"))
              && str_includes "timeout" (message error) then true
      else false
  end.

(** ** Outbound client *)

(** ToString of a decoded value, as [new Error(value)] applies it. *)
Fixpoint toStringJs (v : Json) : string :=
  match v with
  | JNull => "null"
  | JBool true => "true"
  | JBool false => "false"
  | JNum n => showZ n
  | JStr s => s
  | JArr items =>
      (fix join (l : list Json) : string :=
         match l with
         | [] => ""
         | [x] => match x with JNull => "" | _ => toStringJs x end
         | x :: rest =>
             (match x with JNull => "" | _ => toStringJs x end) +:+ "," +:+ join rest
         end) items
  | JObj _ => "[object Object]"
  end.

(** A property read [v.k] for the keys the code reads ([error],
    [message], [status], [data], [alg], [exp], [nbf], [iss], [aud]):
    [null] has no properties and the read throws a TypeError; numbers,
    booleans, strings and arrays have none of these keys. *)
Definition getProp (v : Json) (k : string) : Res string JsVal :=
  match v with
  | JNull => Throw ("Cannot read properties of null (reading '" +:+ k +:+ "')")
  | JObj fields => Ok (lookup_field k fields)
  | _ => Ok None
  end.

(** What the event loop delivers to one attempt. *)
Inductive AttemptEvent : Type :=
| ClientError (e : JsError)      (* client.on('error') *)
| ConnectionTimerFires           (* the connectionTimeout timer of #makeRequest *)
| ClientConnect                  (* client.on('connect') *)
| RequestTimerFires              (* the requestTimeout timer of #makeRequest *)
| RequestData (chunk : string)   (* req.on('data') *)
| RequestEnd                     (* req.on('end') *)
| RequestError (e : JsError)     (* req.on('error') *)
| WrapperTimerFires.             (* the timer of #createTimeoutPromise *)

(** Timers and stream of one attempt while its promise is pending. *)
Record AttemptState : Type := mkAttempt {
  connectionTimer : bool;
  requestTimer : bool;
  wrapperTimer : bool;
  connected : bool;
  data : string
}.

(** The environment of one attempt of [request]: the jitter draw of the
    delay before it, a synchronous throw of [http2.connect] if any, the
    events delivered to it, and the two clock readings of the failure
    update that follows a failed attempt. *)
Record AttemptEnv : Type := {
  random : Q;
  connectThrows : option JsError;
  events : list AttemptEvent;
  nowFailure1 : Z;
  nowFailure2 : Z
}.

Record RequestOptions : Type := {
  token : option string;
  opt_retryOptions : RetryOptions;   (* options.retryOptions *)
  opt_top : RetryOptions             (* retry keys given in options itself *)
}.

Definition noRequestOptions : RequestOptions :=
  {| token := None; opt_retryOptions := noRetryOptions; opt_top := noRetryOptions |}.

(** How a call of [request] ends. *)
Inductive Outcome : Type :=
| Returned (v : JsVal)
| Thrown (e : JsError)
| NeverSettles.

(** What a call of [request] did besides its final state. *)
Inductive Effect : Type :=
| Slept (delay : Q)
| Attempted (attempt : nat).

Record RequestResult : Type := {
  outcome : Outcome;
  endpoint : Endpoint;
  effects : list Effect
}.

(** The white space of [String.prototype.trim] among the code units
    below 256: tab, line feed, vertical tab, form feed, carriage return,
    space and the no-break space U+00A0. *)
Definition is_space (c : ascii) : bool :=
  let n := nat_of_ascii c in
  ((n =? 32) || (n =? 9) || (n =? 10) || (n =? 11) || (n =? 12) || (n =? 13)
   || (n =? 160))%nat.

Fixpoint all_space (s : string) : bool :=
  match s with
  | EmptyString => true
  | String c s' => is_space c && all_space s'
  end.

(** [validators.isNonEmptyString] on a string: [value.trim().length > 0]. *)
Definition isNonEmptyString (value : string) : bool := negb (all_space value).

(** [validators.isObject]. *)
Definition isObject (value : Json) : bool :=
  match value with
  | JObj _ => true
  | _ => false
  end.

Section Client.

(** [JSON.parse]; a [Throw] carries the message of the SyntaxError. *)
Variable JSON_parse : string -> Res string Json.
(** [validators.isValidUrl]: [new URL(value)] does not throw. *)
Variable isValidUrl : string -> bool.

(** The body of the ['end'] listener of [#makeRequest] after the timer
    is cleared: what the promise is settled with. *)
Definition decodeResponse (data : string) : Res JsError JsVal :=
  if String.eqb data "" then Throw (newError "Empty response from server")
  else
    let decoded :=
      let? response := JSON_parse data in
      let? error := getProp response "error" in
      if truthy error then
        let? msg := getProp response "message" in
        let? st := getProp response "status" in
        Ok (Throw
              {| message :=
                   toStringJs (if truthy msg then default JNull msg else JStr "RPC Error");
                 code := error;
                 status := if truthy st then st else Some (JNum 500) |})
      else
        let? d := getProp response "data" in
        Ok (Ok d)
    in
    match decoded with
    | Ok settled => settled
    | Throw parseError => Throw (newError ("Invalid JSON response: " +:+ parseError))
    end.

Definition connectionTimeoutError (res : Resilience) : JsError :=
  newError ("Connection timeout after " +:+ showZ (connectionTimeout (timeout res)) +:+ "ms").

Definition requestTimeoutError (res : Resilience) : JsError :=
  newError ("Request timeout after " +:+ showZ (requestTimeout (timeout res)) +:+ "ms").

(** The attempt when [request] starts awaiting it: [#makeRequest] has
    opened the session and armed the connection timer, and
    [#createTimeoutPromise] has armed its timer when the timeout
    pattern is enabled. *)
Definition startAttempt (res : Resilience) : AttemptState :=
  {| connectionTimer := true; requestTimer := false;
     wrapperTimer := timeoutEnabled (timeout res);
     connected := false; data := "" |}.

(** One event.  [inr] is the settlement of the awaited promise: the
    first settlement of the promise of [#makeRequest], which the
    wrapper passes on, or the rejection by the wrapper's own timer.  An
    event whose timer is not armed or whose stream does not exist yet
    cannot be delivered and changes nothing. *)
Definition attemptStep (res : Resilience) (a : AttemptState) (ev : AttemptEvent)
    (m : Metrics) : (AttemptState + Res JsError JsVal) * Metrics :=
  match ev with
  | ClientError e => (inr (Throw e), m)
  | ConnectionTimerFires =>
      if connectionTimer a then (inr (Throw (connectionTimeoutError res)), m)
      else (inl a, m)
  | ClientConnect =>
      if connected a then (inl a, m)
      else (inl (mkAttempt false true (wrapperTimer a) true (data a)), m)
  | RequestTimerFires =>
      if requestTimer a then (inr (Throw (requestTimeoutError res)), m)
      else (inl a, m)
  | RequestData chunk =>
      if connected a then
        (inl (mkAttempt (connectionTimer a) (requestTimer a) (wrapperTimer a)
                true (data a +:+ chunk)), m)
      else (inl a, m)
  | RequestEnd =>
      if connected a then (inr (decodeResponse (data a)), m) else (inl a, m)
  | RequestError e =>
      if connected a then (inr (Throw e), m) else (inl a, m)
  | WrapperTimerFires =>
      if wrapperTimer a then
        (inr (Throw (requestTimeoutError res)), incr_timeoutCount m)
      else (inl a, m)
  end.

(** The awaited promise of one attempt: [None] when the events end
    before it is settled. *)
Fixpoint runAttempt (res : Resilience) (a : AttemptState) (evs : list AttemptEvent)
    (m : Metrics) : option (Res JsError JsVal) * Metrics :=
  match evs with
  | [] => (None, m)
  | ev :: evs' =>
      match attemptStep res a ev m with
      | (inl a', m') => runAttempt res a' evs' m'
      | (inr settled, m') => (Some settled, m')
      end
  end.

(** [#makeRequest] under the timeout wrapper, as [request] awaits it. *)
Definition awaitAttempt (res : Resilience) (env : AttemptEnv) (m : Metrics)
    : option (Res JsError JsVal) * Metrics :=
  match connectThrows env with
  | Some e => (Some (Throw e), m)
  | None => runAttempt res (startAttempt res) (events env) m
  end.

(** The [for] loop of [request] from iteration [attempt] on;
    [remaining] counts the iterations the loop condition
    [attempt <= maxRetries] still admits. *)
Fixpoint retryLoop (res : Resilience) (retryConfig : RetryConfig) (serviceUrl : string)
    (env : nat -> AttemptEnv) (remaining attempt : nat) (lastError : option JsError)
    (ep : Endpoint) (done : list Effect) : RequestResult :=
  match remaining with
  | O =>
      match lastError with
      | Some e => {| outcome := Thrown e; endpoint := ep; effects := done |}
      | None =>
          {| outcome :=
               Thrown (newError "Cannot read properties of undefined (reading 'message')");
             endpoint := ep; effects := done |}
      end
  | S remaining' =>
      let '(ep1, done1) :=
        match attempt with
        | O => (ep, done)
        | S previous =>
            let delay := calculateRetryDelay previous retryConfig (random (env attempt)) in
            (set_metrics (incr_retryCount (metrics ep)) ep, done ++ [Slept delay])
        end in
      let '(settled, m2) := awaitAttempt res (env attempt) (metrics ep1) in
      let ep2 := set_metrics m2 ep1 in
      let done2 := done1 ++ [Attempted attempt] in
      match settled with
      | None => {| outcome := NeverSettles; endpoint := ep2; effects := done2 |}
      | Some (Ok result) =>
          {| outcome := Returned result;
             endpoint := updateCircuitBreakerOnSuccess res serviceUrl ep2;
             effects := done2 |}
      | Some (Throw error) =>
          let ep3 :=
            updateCircuitBreakerOnFailure res serviceUrl
              (nowFailure1 (env attempt)) (nowFailure2 (env attempt)) ep2 in
          if Z.of_nat attempt =? maxRetries retryConfig then
            {| outcome := Thrown error; endpoint := ep3; effects := done2 |}
          else if negb (shouldRetry error (retryOn retryConfig)) then
            {| outcome := Thrown error; endpoint := ep3; effects := done2 |}
          else
            retryLoop res retryConfig serviceUrl env remaining' (S attempt)
              (Some error) ep3 done2
      end
  end.

(** [request(serviceUrl, methodName, params, options)]; [nowGate] is
    the [Date.now()] of the gate.  [serviceUrl] and [methodName] are
    strings and [options] is an options object, so the type tests on
    them always pass. *)
Definition request (res : Resilience) (serviceUrl methodName : string) (params : Json)
    (options : RequestOptions) (nowGate : Z) (env : nat -> AttemptEnv)
    (ep : Endpoint) : RequestResult :=
  let fail msg := {| outcome := Thrown (newError msg); endpoint := ep; effects := [] |} in
  if negb (isNonEmptyString serviceUrl) then fail "Service URL must be a non-empty string"
  else if negb (isValidUrl serviceUrl) then fail "Service URL must be a valid URL"
  else if negb (isNonEmptyString methodName) then fail "Method name must be a non-empty string"
  else if negb (isObject params) then fail "Params must be an object"
  else
    let retryConfig :=
      spreadRetry (spreadRetry (retry res) (opt_retryOptions options)) (opt_top options) in
    let '(circuitCheck, ep1) := checkCircuitBreaker res serviceUrl nowGate ep in
    if negb (allowed circuitCheck) then
      {| outcome := Thrown (default (newError "") (check_error circuitCheck));
         endpoint := ep1; effects := [] |}
    else
      retryLoop res retryConfig serviceUrl env
        (Z.to_nat (maxRetries retryConfig + 1)) 0 None ep1 [].

End Client.

(** ** Per-method bulkhead *)

(** The value an options object gives for a key. *)
Inductive Given : Type :=
| GivenUndefined
| GivenNumber (n : JsNumber)
| GivenOther.     (* a string, a boolean, [null], an object, a function *)

(** The [bulkheadConfig] argument of [addMethod]: each key absent
    ([None]) or given; [enabled] is given by its truthiness. *)
Record BulkheadOptions : Type := {
  b_enabled : option bool;
  b_maxConcurrentRequests : option Given;
  b_maxQueueSize : option Given;
  b_queueTimeout : option Given
}.

Definition noBulkheadOptions : BulkheadOptions :=
  {| b_enabled := None; b_maxConcurrentRequests := None;
     b_maxQueueSize := None; b_queueTimeout := None |}.

(** The object [{ ...defaultConfig, ...bulkheadConfig }]. *)
Record MergedBulkhead : Type := {
  m_enabled : bool;
  m_maxConcurrentRequests : Given;
  m_maxQueueSize : Given;
  m_queueTimeout : Given
}.

Definition defaultConfig : MergedBulkhead :=
  {| m_enabled := true;
     m_maxConcurrentRequests :=
       GivenNumber (Finite (inject_Z DEFAULTS.RESILIENCE.BULKHEAD.MAX_CONCURRENT));
     m_maxQueueSize := GivenNumber (Finite (inject_Z DEFAULTS.RESILIENCE.BULKHEAD.MAX_QUEUE));
     m_queueTimeout :=
       GivenNumber (Finite (inject_Z DEFAULTS.RESILIENCE.BULKHEAD.QUEUE_TIMEOUT)) |}.

Definition spreadBulkhead (d : MergedBulkhead) (o : BulkheadOptions) : MergedBulkhead :=
  {| m_enabled := default (m_enabled d) (b_enabled o);
     m_maxConcurrentRequests :=
       default (m_maxConcurrentRequests d) (b_maxConcurrentRequests o);
     m_maxQueueSize := default (m_maxQueueSize d) (b_maxQueueSize o);
     m_queueTimeout := default (m_queueTimeout d) (b_queueTimeout o) |}.

(** [validators.isPositiveNumber]: [typeof value === 'number' && value > 0]. *)
Definition isPositiveNumber (value : Given) : bool :=
  match value with
  | GivenNumber (Finite q) => negb (Qle_bool q 0)
  | GivenNumber PosInfinity => true
  | _ => false
  end.

(** [value !== undefined]. *)
Definition isDefined (value : Given) : bool :=
  match value with
  | GivenUndefined => false
  | _ => true
  end.

(** A value that passed the validation of [addMethod], as a limit: it
    is [undefined] or a number. *)
Definition asLimit (value : Given) : Limit :=
  match value with
  | GivenNumber n => Some n
  | _ => None
  end.

(** The merged object as the bulkhead keeps it. *)
Definition storedConfig (m : MergedBulkhead) : BulkheadConfig :=
  {| bulkheadEnabled := m_enabled m;
     maxConcurrentRequests := asLimit (m_maxConcurrentRequests m);
     maxQueueSize := asLimit (m_maxQueueSize m);
     queueTimeout := asLimit (m_queueTimeout m) |}.

(** Where an assignment through a prototype chain ends. *)
Inductive Assigned : Type :=
| AssignedOwn           (* an own property is created *)
| AssignedPrototype     (* the [__proto__] accessor sets the prototype *)
| AssignedElsewhere.    (* another setter of the chain takes the value *)

Section Registry.

(** What the prototype chain does once a handler [h] is the prototype of
    [this._methods], for a name the object does not have itself:
    [readThrough h name] is the read [this._methods[name]], which throws
    or yields a falsy value ([None]) or a truthy one, given by what
    calling it does; [writeThrough h name] is where the assignment
    [this._methods[name] = handler] ends, unless it throws. *)
Variable readThrough : Handler -> string -> Res JsError (option Handler).
Variable writeThrough : Handler -> string -> Res JsError Assigned.

(** The read [this._methods[name]] of [addMethod]; its value decides a
    log line only. *)
Definition probeMethod (o : MethodsObject) (name : string) : Res JsError unit :=
  match lookupOwn name (ownMethods o), protoHandler o with
  | None, Some h => let? _ := readThrough h name in Ok tt
  | _, _ => Ok tt
  end.

(** [this._methods[name] = handler]. *)
Definition assignMethod (name : string) (handler : Handler) (o : MethodsObject)
  : Res JsError MethodsObject :=
  let own := mkMethodsObject (setOwn name handler (ownMethods o)) (protoHandler o) in
  let proto := mkMethodsObject (ownMethods o) (Some handler) in
  match lookupOwn name (ownMethods o) with
  | Some _ => Ok own
  | None =>
      match protoHandler o with
      | None => if String.eqb name "__proto__" then Ok proto else Ok own
      | Some h =>
          let? assigned := writeThrough h name in
          match assigned with
          | AssignedOwn => Ok own
          | AssignedPrototype => Ok proto
          | AssignedElsewhere => Ok o
          end
      end
  end.

(** [addMethod(name, handler, bulkheadConfig)]: the error thrown, if
    any, and the endpoint it leaves. *)
Definition addMethod (name : string) (handler : Handler) (bulkheadConfig : BulkheadOptions)
    (ep : Endpoint) : option JsError * Endpoint :=
  if negb (isNonEmptyString name) then
    (Some (newError "Method name must be a non-empty string"), ep)
  else
    match probeMethod (_methods ep) name with
    | Throw e => (Some e, ep)
    | Ok _ =>
        let methodBulkhead := spreadBulkhead defaultConfig bulkheadConfig in
        if isDefined (m_maxConcurrentRequests methodBulkhead)
           && negb (isPositiveNumber (m_maxConcurrentRequests methodBulkhead)) then
          (Some (newError "maxConcurrentRequests must be a positive number"), ep)
        else if isDefined (m_maxQueueSize methodBulkhead)
                && negb (isPositiveNumber (m_maxQueueSize methodBulkhead)) then
          (Some (newError "maxQueueSize must be a positive number"), ep)
        else if isDefined (m_queueTimeout methodBulkhead)
                && negb (isPositiveNumber (m_queueTimeout methodBulkhead)) then
          (Some (newError "queueTimeout must be a positive number"), ep)
        else
          let ep1 :=
            set_bulkheadMethods
              (<[name := {| config := storedConfig methodBulkhead; activeRequests := 0;
                            queuedRequests := []; rejectedRequests := 0 |}]>
                 (bulkheadMethods ep))
              ep in
          match assignMethod name handler (_methods ep1) with
          | Throw e => (Some e, ep1)
          | Ok methods => (None, set_methods methods ep1)
          end
    end.

End Registry.

(** Settling a promise has an effect only while it is pending. *)
Definition settle (p : nat) (outcome : Promise) (ps : list Promise) : list Promise :=
  match ps !! p with
  | Some Pending => <[p := outcome]> ps
  | _ => ps
  end.

(** Calling one of the four functions of an admission promise; [reason]
    is the argument of a reject. *)
Definition callClosure (f : Closure) (reason : JsError) (ep : Endpoint) : Endpoint :=
  match f with
  | PromiseResolve p => set_promises (settle p Fulfilled (promises ep)) ep
  | PromiseReject p => set_promises (settle p (Rejected reason) (promises ep)) ep
  | ItemResolve p =>
      let ep1 := set_queueTimers (queueTimers ep ∖ {[p]}) ep in
      set_promises (settle p Fulfilled (promises ep1)) ep1
  | ItemReject p =>
      let ep1 := set_queueTimers (queueTimers ep ∖ {[p]}) ep in
      set_promises (settle p (Rejected reason) (promises ep1)) ep1
  end.

(** What the caller of [#acquireMethodBulkheadPermit] gets: the promise
    is fulfilled at once, still pending (as promise [p]), or rejected at
    once. *)
Inductive Permit : Type :=
| Acquired
| Queued (p : nat)
| Refused (e : JsError).

Definition capacityError (methodName : string) : JsError :=
  newError ("Method " +:+ methodName +:+ " bulkhead capacity exceeded - request rejected").

Definition queueTimeoutError (methodName : string) : JsError :=
  newError ("Method " +:+ methodName +:+ " bulkhead queue timeout").

Definition set_methodState (methodName : string) (ms : MethodState) (ep : Endpoint)
  : Endpoint :=
  set_bulkheadMethods (<[methodName := ms]> (bulkheadMethods ep)) ep.

(** [#acquireMethodBulkheadPermit(methodName)]. *)
Definition acquireMethodBulkheadPermit (methodName : string) (ep : Endpoint)
  : Permit * Endpoint :=
  match bulkheadMethods ep !! methodName with
  | None => (Acquired, ep)
  | Some methodState =>
      let config := config methodState in
      if negb (bulkheadEnabled config) then (Acquired, ep)
      else if belowLimit (activeRequests methodState) (maxConcurrentRequests config) then
        (Acquired,
         set_methodState methodName
           (mkMethodState config (activeRequests methodState + 1)
              (queuedRequests methodState) (rejectedRequests methodState))
           ep)
      else if belowLimit (Z.of_nat (length (queuedRequests methodState)))
                (maxQueueSize config) then
        let p := length (promises ep) in
        let ep1 := set_promises (promises ep ++ [Pending]) ep in
        let ep2 := set_queueTimers (queueTimers ep1 ∪ {[p]}) ep1 in
        (Queued p,
         set_methodState methodName
           (mkMethodState config (activeRequests methodState)
              (queuedRequests methodState
                 ++ [{| resolve := ItemResolve p; reject := ItemReject p |}])
              (rejectedRequests methodState))
           ep2)
      else
        let ep1 :=
          set_methodState methodName
            (mkMethodState config (activeRequests methodState)
               (queuedRequests methodState) (rejectedRequests methodState + 1))
            ep in
        (Refused (capacityError methodName),
         set_metrics (incr_bulkheadRejections (metrics ep1)) ep1)
  end.

(** [#releaseMethodBulkheadPermit(methodName)]. *)
Definition releaseMethodBulkheadPermit (methodName : string) (ep : Endpoint) : Endpoint :=
  match bulkheadMethods ep !! methodName with
  | None => ep
  | Some methodState =>
      let config := config methodState in
      if negb (bulkheadEnabled config) then ep
      else
        let active := activeRequests methodState - 1 in
        match queuedRequests methodState with
        | [] =>
            set_methodState methodName
              (mkMethodState config active [] (rejectedRequests methodState)) ep
        | next :: rest =>
            let ep1 :=
              set_methodState methodName
                (mkMethodState config (active + 1) rest (rejectedRequests methodState))
                ep in
            callClosure (resolve next) (newError "") ep1
        end
  end.

(** [arr.findIndex(f)]; [None] is the source's -1. *)
Fixpoint findIndex {A : Type} (f : A -> bool) (arr : list A) : option nat :=
  match arr with
  | [] => None
  | x :: rest => if f x then Some O else S <$> findIndex f rest
  end.

(** The callback of the queue timer that [#acquireMethodBulkheadPermit]
    armed for promise [p] of [methodName]; it runs only while the timer
    is armed.  [resolve] in the callback is the promise's own function,
    and [methodState] is the entry the method had when the promise was
    queued (the registry's entry, unless the method is registered anew
    in between). *)
Definition queueTimerFires (methodName : string) (p : nat) (ep : Endpoint) : Endpoint :=
  if negb (bool_decide (p ∈ queueTimers ep)) then ep
  else
    let ep1 := set_queueTimers (queueTimers ep ∖ {[p]}) ep in
    let ep2 :=
      match bulkheadMethods ep1 !! methodName with
      | None => ep1
      | Some methodState =>
          match findIndex (fun item => closure_eqb (resolve item) (PromiseResolve p))
                  (queuedRequests methodState) with
          | Some index =>
              set_methodState methodName
                (mkMethodState (config methodState) (activeRequests methodState)
                   (delete index (queuedRequests methodState))
                   (rejectedRequests methodState))
                ep1
          | None => ep1
          end
      end in
    callClosure (PromiseReject p) (queueTimeoutError methodName) ep2.

(** ** JWT RS256 validation *)

Record AuthSettings : Type := {
  jwtAuth : bool;
  jwtPublicKey : option string;
  jwtIssuer : option string;
  jwtAudience : option string;
  excludedPaths : gset string
}.

(** [value || null] on an optional string. *)
Definition orNull (value : option string) : option string :=
  match value with
  | Some s => if String.eqb s "" then None else Some s
  | None => None
  end.

(** The authentication members the constructor sets. *)
Definition constructor_auth (o_jwtAuth : option bool)
    (o_jwtPublicKey o_jwtIssuer o_jwtAudience : option string)
    (o_excludedPaths : list string) : AuthSettings :=
  {| jwtAuth := default false o_jwtAuth;
     jwtPublicKey := orNull o_jwtPublicKey;
     jwtIssuer := orNull o_jwtIssuer;
     jwtAudience := orNull o_jwtAudience;
     excludedPaths := {["health-check"]} ∪ list_to_set o_excludedPaths |}.

(** ToBoolean of a member that is a string or [null]. *)
Definition isSet (value : option string) : bool :=
  match value with
  | Some s => negb (String.eqb s "")
  | None => false
  end.

(** What [#validateJWT] returns: the bare boolean [true], or an object
    [{valid: true, payload}] or [{valid: false, error}]. *)
Inductive Validation : Type :=
| BareTrue
| Valid (payload : Json)
| Invalid (error : string).




(** [token.split('.')]. *)
Fixpoint splitDot (s : string) : list string :=
  match s with
  | EmptyString => [""]
  | String c rest =>
      if Ascii.eqb c "." then "" :: splitDot rest
      else
        match splitDot rest with
        | seg :: segs => String c seg :: segs
        | [] => [String c ""]
        end
  end.

(** [a !== b] for a property read and a configured string. *)
Definition strictNe (a : JsVal) (b : string) : bool :=
  match a with
  | Some (JStr s) => negb (String.eqb s b)
  | _ => true
  end.

Section Auth.

(** [JSON.parse(Buffer.from(segment, 'base64url').toString())]; a
    [Throw] carries the message of the error. *)
Variable decodeSegment : string -> Res string Json.
(** [crypto.createVerify('RSA-SHA256')], [update(signatureData)] and
    [verify(publicKey, Buffer.from(signatureB64, 'base64url'))], by
    public key, signed data and signature segment. *)
Variable rsaSha256Verify : string -> string -> string -> Res string bool.
(** ToNumber of a string, array or object; [None] is NaN. *)
Variable coerceNumber : Json -> option Z.

Definition toNumber (v : Json) : option Z :=
  match v with
  | JNull => Some 0
  | JBool b => Some (if b then 1 else 0)
  | JNum n => Some n
  | _ => coerceNumber v
  end.

(** [new Date(v * 1000).toISOString()] throws a RangeError for a time
    value that is NaN or beyond 8.64e15 ms. *)
Definition toISOString (v : Json) : Res string unit :=
  match toNumber v with
  | Some n =>
      if Z.abs (n * 1000) <=? 8640000000000000 then Ok tt
      else Throw "Invalid time value"
  | None => Throw "Invalid time value"
  end.

(** [v < now] and [v > now] for a truthy property [v] and a number. *)
Definition jsLt (v : JsVal) (now : Z) : bool :=
  match v with
  | Some j => match toNumber j with Some n => n <? now | None => false end
  | None => false
  end.

Definition jsGt (v : JsVal) (now : Z) : bool :=
  match v with
  | Some j => match toNumber j with Some n => now <? n | None => false end
  | None => false
  end.

(** The [try] block of [#validateJWT]; [key] is the configured public
    key and [nowMs] the reading of [Date.now()]. *)
Definition validateJWT_try (auth : AuthSettings) (key token : string) (nowMs : Z)
  : Res string Json :=
  let segments := splitDot token in
  let headerB64 := default "" (segments !! 0%nat) in
  let payloadB64 := default "" (segments !! 1%nat) in
  let signatureB64 := default "" (segments !! 2%nat) in
  if String.eqb headerB64 "" || String.eqb payloadB64 "" || String.eqb signatureB64 ""
  then Throw "Invalid token format"
  else
    let? header := decodeSegment headerB64 in
    let? payload := decodeSegment payloadB64 in
    (* the arguments of the debug record *)
    let? alg := getProp header "alg" in
    let? iss := getProp payload "iss" in
    let? aud := getProp payload "aud" in
    let? exp := getProp payload "exp" in
    let? _ := (if truthy exp then toISOString (default JNull exp) else Ok tt) in
    let? nbf := getProp payload "nbf" in
    let? _ := (if truthy nbf then toISOString (default JNull nbf) else Ok tt) in
    if strictNe alg DEFAULTS.JWT_ALGORITHM then Throw "Invalid algorithm"
    else
      let signatureData := headerB64 +:+ "." +:+ payloadB64 in
      let? verified := rsaSha256Verify key signatureData signatureB64 in
      if negb verified then Throw "Invalid signature"
      else
        let now := nowMs / 1000 in
        if truthy exp && jsLt exp now then Throw "Token expired"
        else if truthy nbf && jsGt nbf now then Throw "Token not yet valid"
        else if isSet (jwtIssuer auth)
                && strictNe iss (default "" (jwtIssuer auth))
        then Throw "Invalid issuer"
        else if isSet (jwtAudience auth)
                && strictNe aud (default "" (jwtAudience auth))
        then Throw "Invalid audience"
        else Ok payload.

(** [#validateJWT(token)]. *)
Definition validateJWT (auth : AuthSettings) (token : string) (nowMs : Z) : Validation :=
  if negb (jwtAuth auth) || negb (isSet (jwtPublicKey auth)) then BareTrue
  else
    match validateJWT_try auth (default "" (jwtPublicKey auth)) token nowMs with
    | Ok payload => Valid payload
    | Throw errorMessage => Invalid errorMessage
    end.


Record AuthResult : Type := {
  authorized : bool;
  auth_error : option string;
  user : JsVal
}.



End Auth.

(** ** Inbound dispatcher *)

(** A response object before [JSON.stringify]; a key whose value is
    [undefined] is [None]. *)
Definition Body : Type := list (string * JsVal).

Record Response : Type := {
  statusCode : Z;
  responseData : option Body     (* [None]: [res.end()] without a body *)
}.

Record ErrorSpec : Type := {
  err_code : string;
  err_message : option string;
  extra : Body
}.

(** [#formatResponse(data, error)]. *)
Definition formatResponse (data : JsVal) (error : option ErrorSpec) : Body :=
  match error with
  | Some e =>
      [("error", Some (JStr (err_code e))); ("message", JStr <$> err_message e)]
        ++ extra e
  | None => [("data", data)]
  end.

(** [#sendResponse(res, statusCode, responseData)], without the headers. *)
Definition sendResponse (statusCode : Z) (responseData : Body) : Response :=
  {| statusCode := statusCode; responseData := Some responseData |}.


(** [obj[k] = v] on a field list. *)
Fixpoint setField (k : string) (v : Json) (fields : list (string * Json))
  : list (string * Json) :=
  match fields with
  | [] => [(k, v)]
  | (k', v') :: rest =>
      if String.eqb k' k then (k, v) :: rest else (k', v') :: setField k v rest
  end.

(** [params._user = user] in the strict code of the class body. *)
Definition injectUser (params user : Json) : Res string Json :=
  match params with
  | JObj fields => Ok (JObj (setField "_user" user fields))
  | JArr items => Ok (JArr items)
  | JNull => Throw "Cannot set properties of null (setting '_user')"
  | JBool _ =>
      Throw ("Cannot create property '_user' on boolean '" +:+ toStringJs params +:+ "'")
  | JNum _ =>
      Throw ("Cannot create property '_user' on number '" +:+ toStringJs params +:+ "'")
  | JStr _ =>
      Throw ("Cannot create property '_user' on string '" +:+ toStringJs params +:+ "'")
  end.


(** How the ['end'] listener leaves the request at its first [await]. *)
Inductive EndStage : Type :=
| EndIgnored
| EndReplied (r : Response)
| EndInvoke (method : Handler) (params : Json)
| EndQueued (p : nat) (method : Handler) (params : Json).

Section Server.

Variable JSON_parse : string -> Res string Json.
(** The read of [this._methods[name]] through a handler that is the
    prototype, as in [addMethod]. *)
Variable readThrough : Handler -> string -> Res JsError (option Handler).
(** What calling the member [name] of [Object.prototype] as a plain
    function does. *)
Variable objectPrototypeMember : string -> Handler.
Variable decodeSegment : string -> Res string Json.
Variable rsaSha256Verify : string -> string -> string -> Res string bool.
Variable coerceNumber : Json -> option Z.


(** The [catch (bulkheadError)] block of the ['end'] listener. *)
Definition onBulkheadError (pathname : string) (startTime now : Z) (ep : Endpoint)
  : Response * Endpoint :=
  let errorResponse :=
    formatResponse None
      (Some {| err_code := "METHOD_BULKHEAD_EXCEEDED";
               err_message := Some ("Method " +:+ pathname +:+ " is overloaded");
               extra := [("method", Some (JStr pathname));
                         ("reason", Some (JStr "bulkhead_capacity_exceeded"))] |}) in
  (sendResponse 503 errorResponse,
   set_metrics (updateMetrics (now - startTime) true (metrics ep)) ep).

(** The outer [catch (error)] block of the ['end'] listener. *)
Definition onUnhandledError (errorMessage : string) (startTime now : Z) (ep : Endpoint)
  : Response * Endpoint :=
  let errorResponse :=
    formatResponse None
      (Some {| err_code := "INTERNAL_ERROR"; err_message := Some "Internal server error";
               extra := [("details", Some (JStr errorMessage))] |}) in
  (sendResponse 500 errorResponse,
   set_metrics (updateMetrics (now - startTime) true (metrics ep)) ep).

(** [Object.keys(params)] in the arguments of the log record before the
    permit is asked for; it throws for [null]. *)
Definition objectKeysOf (params : Json) : Res string unit :=
  match params with
  | JNull => Throw "Cannot convert undefined or null to object"
  | _ => Ok tt
  end.

(** The read [this._methods[pathname]]: an own property, else what the
    prototype chain has.  It throws, or yields a falsy value ([None]) or
    a truthy one, given by what calling it does. *)
Definition getMethod (o : MethodsObject) (pathname : string)
  : Res JsError (option Handler) :=
  match lookupOwn pathname (ownMethods o) with
  | Some handler => Ok (Some handler)
  | None =>
      match protoHandler o with
      | Some h => readThrough h pathname
      | None =>
          if bool_decide (pathname ∈ objectPrototypeNames)
          then Ok (Some (objectPrototypeMember pathname))
          else Ok None
      end
  end.

(** The ['end'] listener up to the [await] of the permit. *)
Definition onEnd (pathname : string) (authResult : AuthResult) (body : string)
    (requestProcessed : bool) (startTime now : Z) (ep : Endpoint)
  : EndStage * Endpoint :=
  let reply (r : Response * Endpoint) := (EndReplied (fst r), snd r) in
  if requestProcessed then (EndIgnored, ep)
  else
    match getMethod (_methods ep) pathname with
    | Throw error => reply (onUnhandledError (message error) startTime now ep)
    | Ok None =>
        let errorResponse :=
          formatResponse None
            (Some {| err_code := "METHOD_NOT_FOUND"; err_message := Some "Method not found";
                     extra := [("method", Some (JStr pathname));
                               ("availableMethods",
                                Some (JArr (JStr <$> objectKeys (_methods ep))))] |}) in
        (EndReplied (sendResponse 404 errorResponse),
         set_metrics (updateMetrics (now - startTime) true (metrics ep)) ep)
    | Ok (Some method) =>
        match (if String.eqb body "" then Ok (JObj []) else JSON_parse body) with
        | Throw parseError =>
            let errorResponse :=
              formatResponse None
                (Some {| err_code := "INVALID_JSON";
                         err_message := Some "Invalid JSON format";
                         extra := [("details", Some (JStr parseError))] |}) in
            (EndReplied (sendResponse 400 errorResponse),
             set_metrics (updateMetrics (now - startTime) true (metrics ep)) ep)
        | Ok params =>
            match (let? params :=
                     (if truthy (user authResult)
                      then injectUser params (default JNull (user authResult))
                      else Ok params) in
                   let? _ := objectKeysOf params in
                   Ok params) with
            | Throw typeError => reply (onUnhandledError typeError startTime now ep)
            | Ok params =>
                match acquireMethodBulkheadPermit pathname ep with
                | (Acquired, ep1) => (EndInvoke method params, ep1)
                | (Queued p, ep1) => (EndQueued p method params, ep1)
                | (Refused _, ep1) => reply (onBulkheadError pathname startTime now ep1)
                end
            end
        end
    end.

(** The ['end'] listener once the permit is held: the handler runs, the
    reply is sent and the permit is released. *)
Definition onAdmitted (pathname : string) (method : Handler) (params : Json)
    (startTime now : Z) (ep : Endpoint) : Response * Endpoint :=
  match method params with
  | Ok result =>
      let ep1 := set_metrics (updateMetrics (now - startTime) false (metrics ep)) ep in
      (sendResponse 200 (formatResponse result None),
       releaseMethodBulkheadPermit pathname ep1)
  | Throw error =>
      onUnhandledError (message error) startTime now
        (releaseMethodBulkheadPermit pathname ep)
  end.

(** The ['end'] listener resumed after [await] on admission promise
    [p]; [None] while the promise is pending. *)
Definition onPermitSettled (pathname : string) (p : nat) (method : Handler)
    (params : Json) (startTime now : Z) (ep : Endpoint) : option (Response * Endpoint) :=
  match promises ep !! p with
  | Some Fulfilled => Some (onAdmitted pathname method params startTime now ep)
  | Some (Rejected _) => Some (onBulkheadError pathname startTime now ep)
  | _ => None
  end.

End Server.

(** ** Vocabulary of the statements *)

(** A run of consecutive failed attempts against [serviceUrl], each with
    the two clock readings of its failure update. *)
Definition failedAttempts (res : Resilience) (serviceUrl : string)
    (readings : list (Z * Z)) (ep : Endpoint) : Endpoint :=
  foldl (fun ep r => updateCircuitBreakerOnFailure res serviceUrl r.1 r.2 ep) ep readings.


(** What can happen to the bulkhead of one method. *)
Inductive BulkheadOp : Type :=
| OpAcquire
| OpRelease
| OpQueueTimeout (p : nat).

Definition bulkheadStep (methodName : string) (op : BulkheadOp) (ep : Endpoint) : Endpoint :=
  match op with
  | OpAcquire => (acquireMethodBulkheadPermit methodName ep).2
  | OpRelease => releaseMethodBulkheadPermit methodName ep
  | OpQueueTimeout p => queueTimerFires methodName p ep
  end.

(** The states an observer sees after each operation. *)
Fixpoint bulkheadRun (methodName : string) (ops : list BulkheadOp) (ep : Endpoint)
  : list Endpoint :=
  match ops with
  | [] => []
  | op :: ops' =>
      let ep' := bulkheadStep methodName op ep in
      ep' :: bulkheadRun methodName ops' ep'
  end.

(** A counter is within a limit: below the limit plus one when the
    limit is a finite number, which is at most the limit when the limit
    is an integer; anything under an infinite limit; and not above 0
    under a limit no counter is below ([undefined], NaN, minus
    infinity). *)
Definition within (n : Z) (limit : Limit) : Prop :=
  match limit with
  | Some (Finite value) => (inject_Z n < value + 1)%Q
  | Some PosInfinity => True
  | _ => n ≤ 0
  end.

Definition withinLimits (methodName : string) (ep : Endpoint) : Prop :=
  match bulkheadMethods ep !! methodName with
  | Some methodState =>
      within (activeRequests methodState) (maxConcurrentRequests (config methodState))
      ∧ within (Z.of_nat (length (queuedRequests methodState)))
          (maxQueueSize (config methodState))
  | None => True
  end.

(** A limit [addMethod] lets through: [undefined] or a number above 0. *)
Definition positiveOrUndefined (limit : Limit) : Prop :=
  match limit with
  | None | Some PosInfinity => True
  | Some (Finite value) => (0 < value)%Q
  | Some _ => False
  end.

(** A limit that is an integer. *)
Definition integerLimit (limit : Limit) (m : Z) : Prop :=
  ∃ value, limit = Some (Finite value) ∧ (value == inject_Z m)%Q.

(** Every queue item holds the arrow function created for it. *)
Definition queueOfItems (queue : list QueueItem) : Prop :=
  Forall (λ item, ∃ q, resolve item = ItemResolve q) queue.

Definition goodBulkhead (methodName : string) (ep : Endpoint) : Prop :=
  withinLimits methodName ep
  ∧ match bulkheadMethods ep !! methodName with
    | Some methodState => queueOfItems (queuedRequests methodState)
    | None => True
    end.

(** The admission promise a queue item belongs to. *)
Definition waiterOf (item : QueueItem) : nat :=
  match resolve item with
  | PromiseResolve p | PromiseReject p | ItemResolve p | ItemReject p => p
  end.

(** The waiters of a method, head of the queue first. *)
Definition waiting (methodName : string) (ep : Endpoint) : list nat :=
  match bulkheadMethods ep !! methodName with
  | Some methodState => waiterOf <$> queuedRequests methodState
  | None => []
  end.

(** The waiter an operation enqueues, if any. *)
Definition enqueuedBy (methodName : string) (op : BulkheadOp) (ep : Endpoint) : list nat :=
  match op with
  | OpAcquire =>
      match (acquireMethodBulkheadPermit methodName ep).1 with
      | Queued p => [p]
      | _ => []
      end
  | _ => []
  end.

(** The waiter an operation takes from the head of the queue, if any. *)
Definition shiftedBy (methodName : string) (op : BulkheadOp) (ep : Endpoint) : list nat :=
  match op with
  | OpRelease =>
      match bulkheadMethods ep !! methodName with
      | Some methodState =>
          if bulkheadEnabled (config methodState) then
            match queuedRequests methodState with
            | next :: _ => [waiterOf next]
            | [] => []
            end
          else []
      | None => []
      end
  | _ => []
  end.

(** The promises, numbered from [i], that are pending in [before] and
    fulfilled in [after]. *)
Fixpoint newlyFulfilled (i : nat) (before after : list Promise) : list nat :=
  match before, after with
  | b :: before', a :: after' =>
      match b, a with
      | Pending, Fulfilled => [i]
      | _, _ => []
      end ++ newlyFulfilled (S i) before' after'
  | _, _ => []
  end.

(** The waiters an operation admits: the admission promises it fulfils. *)
Definition admittedBy (methodName : string) (op : BulkheadOp) (ep : Endpoint) : list nat :=
  newlyFulfilled 0 (promises ep) (promises (bulkheadStep methodName op ep)).

Definition isQueueTimeout (op : BulkheadOp) : bool :=
  match op with
  | OpQueueTimeout _ => true
  | _ => false
  end.

Fixpoint enqueueLog (methodName : string) (ops : list BulkheadOp) (ep : Endpoint)
  : list nat :=
  match ops with
  | [] => []
  | op :: ops' =>
      enqueuedBy methodName op ep
        ++ enqueueLog methodName ops' (bulkheadStep methodName op ep)
  end.

Fixpoint shiftLog (methodName : string) (ops : list BulkheadOp) (ep : Endpoint)
  : list nat :=
  match ops with
  | [] => []
  | op :: ops' =>
      shiftedBy methodName op ep
        ++ shiftLog methodName ops' (bulkheadStep methodName op ep)
  end.

Fixpoint admitLog (methodName : string) (ops : list BulkheadOp) (ep : Endpoint)
  : list nat :=
  match ops with
  | [] => []
  | op :: ops' =>
      admittedBy methodName op ep
        ++ admitLog methodName ops' (bulkheadStep methodName op ep)
  end.

(** The waiters of a method are distinct and their promises pending. *)
Definition pendingWaiters (methodName : string) (ep : Endpoint) : Prop :=
  NoDup (waiting methodName ep)
  ∧ Forall (λ p, promises ep !! p = Some Pending) (waiting methodName ep).

(** Modelled from the claim: a counter is at most a limit, as the
    comparison [n <= limit] of the language has it. *)
Definition atMost (n : Z) (limit : Limit) : Prop :=
  match limit with
  | Some (Finite value) => (inject_Z n <= value)%Q
  | Some PosInfinity => True
  | _ => False
  end.

(** Modelled from the claim: [activeRequests <= maxConcurrentRequests]
    and the number of queued waiters [<= maxQueueSize]. *)
Definition withinLimits_spec (methodName : string) (ep : Endpoint) : Prop :=
  match bulkheadMethods ep !! methodName with
  | Some methodState =>
      atMost (activeRequests methodState) (maxConcurrentRequests (config methodState))
      ∧ atMost (Z.of_nat (length (queuedRequests methodState)))
          (maxQueueSize (config methodState))
  | None => True
  end.

(** An option of [addMethod] given as the integer [n]. *)
Definition given (n : Z) : option Given := Some (GivenNumber (Finite (inject_Z n))).

(** *** The verification steps of a token *)

Inductive JwtCheck : Type :=
| FormatCheck
| AlgorithmCheck
| SignatureCheck
| ExpirationCheck
| NotBeforeCheck
| IssuerCheck
| AudienceCheck.

Definition jwtCheckOrder : list JwtCheck :=
  [FormatCheck; AlgorithmCheck; SignatureCheck; ExpirationCheck; NotBeforeCheck;
   IssuerCheck; AudienceCheck].

Definition jwtReason (c : JwtCheck) : string :=
  match c with
  | FormatCheck => "Invalid token format"
  | AlgorithmCheck => "Invalid algorithm"
  | SignatureCheck => "Invalid signature"
  | ExpirationCheck => "Token expired"
  | NotBeforeCheck => "Token not yet valid"
  | IssuerCheck => "Invalid issuer"
  | AudienceCheck => "Invalid audience"
  end.

(** A property of a decoded object, [undefined] when absent. *)
Definition propOf (v : Json) (k : string) : JsVal :=
  match getProp v k with
  | Ok x => x
  | Throw _ => None
  end.

(** A token taken apart: its dot-separated segments, the decoded header
    and payload, and whether the signature verifies. *)
Record TokenFacts : Type := {
  segments : list string;
  header : Json;
  payload : Json;
  verified : bool
}.

(** Segment [i] of the token, empty when there is none. *)
Definition segment (t : TokenFacts) (i : nat) : string :=
  default ""%string (segments t !! i).

(** Whether a claim of the payload is the given string. *)
Definition claimIs (v : JsVal) (expected : string) : bool :=
  match v with
  | Some (JStr s) => String.eqb s expected
  | _ => false
  end.

(** A configured issuer or audience that is set. *)
Definition configured (value : option string) : option string :=
  match value with
  | Some "" => None
  | other => other
  end.

(** Modelled from the claim: whether the token passes one step, in the
    claim's words.  The token has three dot-separated segments; [alg] is
    RS256; the signature verifies; [exp], when the payload has one, is
    in the future; [nbf], when the payload has one, is in the past;
    [iss] is the configured issuer when one is set; [aud] is the
    configured audience when one is set. *)
Definition jwtCheckPasses_spec (auth : AuthSettings) (nowMs : Z) (t : TokenFacts)
    (c : JwtCheck) : bool :=
  let now := nowMs / 1000 in
  match c with
  | FormatCheck => (length (segments t) =? 3)%nat
  | AlgorithmCheck => claimIs (propOf (header t) "alg") "RS256"
  | SignatureCheck => verified t
  | ExpirationCheck =>
      match propOf (payload t) "exp" with
      | None => true
      | Some (JNum exp) => now <? exp
      | Some _ => false
      end
  | NotBeforeCheck =>
      match propOf (payload t) "nbf" with
      | None => true
      | Some (JNum nbf) => nbf <? now
      | Some _ => false
      end
  | IssuerCheck =>
      match configured (jwtIssuer auth) with
      | Some issuer => claimIs (propOf (payload t) "iss") issuer
      | None => true
      end
  | AudienceCheck =>
      match configured (jwtAudience auth) with
      | Some audience => claimIs (propOf (payload t) "aud") audience
      | None => true
      end
  end.

(** The verdict by the claim: the reason of the first step, in order,
    that the token does not pass, or acceptance with the claims. *)
Definition jwtVerdict_spec (auth : AuthSettings) (nowMs : Z) (t : TokenFacts) : Validation :=
  match find (λ c, negb (jwtCheckPasses_spec auth nowMs t c)) jwtCheckOrder with
  | Some c => Invalid (jwtReason c)
  | None => Valid (payload t)
  end.

(** The steps as amended.  The first three segments are there and not
    empty, whatever follows them; [exp], when it is a number other than
    0, is not before the current second; [nbf], when it is a number
    other than 0, is not after it; the other steps are as claimed. *)
Definition jwtCheckPasses_amended (auth : AuthSettings) (nowMs : Z) (t : TokenFacts)
    (c : JwtCheck) : bool :=
  let now := nowMs / 1000 in
  match c with
  | FormatCheck =>
      match segments t with
      | first :: second :: third :: _ =>
          negb (String.eqb first "") && negb (String.eqb second "")
          && negb (String.eqb third "")
      | _ => false
      end
  | ExpirationCheck =>
      match propOf (payload t) "exp" with
      | Some (JNum exp) => (exp =? 0) || (now <=? exp)
      | _ => true
      end
  | NotBeforeCheck =>
      match propOf (payload t) "nbf" with
      | Some (JNum nbf) => (nbf =? 0) || (nbf <=? now)
      | _ => true
      end
  | _ => jwtCheckPasses_spec auth nowMs t c
  end.

Definition jwtVerdict_amended (auth : AuthSettings) (nowMs : Z) (t : TokenFacts)
  : Validation :=
  match find (λ c, negb (jwtCheckPasses_amended auth nowMs t c)) jwtCheckOrder with
  | Some c => Invalid (jwtReason c)
  | None => Valid (payload t)
  end.

(** A date claim that the amended statement covers: absent, or a number
    of seconds within the range of [Date]. *)
Definition plainDate (v : JsVal) : Prop :=
  match v with
  | None => True
  | Some (JNum seconds) => Z.abs (seconds * 1000) ≤ 8640000000000000
  | Some _ => False
  end.

(** A fresh endpoint with one registered method.  The prototype of a
    fresh registry is [Object.prototype], so nothing is read or written
    through a handler. *)
Definition endpointWith (name : string) (handler : Handler)
    (bulkheadConfig : BulkheadOptions) : Endpoint :=
  (addMethod (λ _ _, Ok None) (λ _ _, Ok AssignedOwn) name handler bulkheadConfig
     initialEndpoint).2.

(** A key of a response body. *)
Fixpoint lookup_body (k : string) (body : Body) : JsVal :=
  match body with
  | [] => None
  | (k', v) :: rest => if String.eqb k' k then v else lookup_body k rest
  end.

Definition bodyField (k : string) (r : Response) : JsVal :=
  match responseData r with
  | Some body => lookup_body k body
  | None => None
  end.

(** The codes the specification lists as never retried. *)
Definition hardCodes : list string :=
  ["UNAUTHORIZED"; "FORBIDDEN"; "BAD_REQUEST"; "INVALID_JSON"; "METHOD_NOT_FOUND";
   "PAYLOAD_TOO_LARGE"].

Definition hasHardCode (error : JsError) : bool :=
  match code error with
  | Some (JStr c) => existsb (String.eqb c) hardCodes
  | _ => false
  end.

(** The attempts a call performed, in order. *)
Definition attemptsIn (effects : list Effect) : list nat :=
  omap (fun e => match e with Attempted a => Some a | Slept _ => None end) effects.

(** The delays a call slept, in order. *)
Definition sleepsIn (effects : list Effect) : list Q :=
  omap (fun e => match e with Slept d => Some d | Attempted _ => None end) effects.

(** ** Further operations of the endpoint *)

(** What [getMethodBulkheadStatus] returns for a registered method. *)
Record MethodBulkheadStatus : Type := {
  status_methodName : string;
  status_config : BulkheadConfig;
  status_activeRequests : Z;
  status_queuedRequests : nat;
  status_rejectedRequests : Z
}.

(** [getMethodBulkheadStatus(methodName)]; [inl] is the object
    [{error: 'Method not found'}]. *)
Definition getMethodBulkheadStatus (methodName : string) (ep : Endpoint)
  : string + MethodBulkheadStatus :=
  match bulkheadMethods ep !! methodName with
  | None => inl "Method not found"%string
  | Some methodState =>
      inr {| status_methodName := methodName;
             status_config := config methodState;
             status_activeRequests := activeRequests methodState;
             status_queuedRequests := length (queuedRequests methodState);
             status_rejectedRequests := rejectedRequests methodState |}
  end.

Section Setter.

Variable readThrough : Handler -> string -> Res JsError (option Handler).
Variable writeThrough : Handler -> string -> Res JsError Assigned.

(** The [forEach] over [Object.entries] that registers each method with
    the default bulkhead; a throw of [addMethod] ends it and leaves what
    was done so far. *)
Fixpoint addMethods (entries : list (string * Handler)) (ep : Endpoint)
  : option JsError * Endpoint :=
  match entries with
  | [] => (None, ep)
  | (name, handler) :: rest =>
      match addMethod readThrough writeThrough name handler noBulkheadOptions ep with
      | (None, ep') => addMethods rest ep'
      | (Some e, ep') => (Some e, ep')
      end
  end.

(** The setter [methods = methodsObject], for an object given by its
    entries. *)
Definition setMethods (entries : list (string * Handler)) (ep : Endpoint)
  : option JsError * Endpoint :=
  addMethods entries (set_methods emptyMethods ep).

End Setter.

(** The body of an inbound request while it streams in: the text
    received, the [requestProcessed] flag of [#handleRequest] (before the
    ['end'] event it is set exactly when the reply has been sent, so it
    also stands for [res.headersSent]), and whether [req.destroy()] was
    called. *)
Record Inbound : Type := mkInbound {
  receivedBody : string;
  requestProcessed : bool;
  streamDestroyed : bool
}.

Definition startInbound : Inbound :=
  {| receivedBody := ""; requestProcessed := false; streamDestroyed := false |}.

(** [Math.round(n / 1024)] for a length. *)
Definition roundKB (n : Z) : Z := (2 * n + 1024) / 2048.

(** The ['data'] listener of [#handleRequest]; the length of a string is
    its number of characters. *)
Definition onData (chunk : string) (startTime now : Z) (st : Inbound) (ep : Endpoint)
  : option Response * Inbound * Endpoint :=
  let body := receivedBody st +:+ chunk in
  let size := Z.of_nat (String.length body) in
  if DEFAULTS.MAX_REQUEST_SIZE <? size then
    if negb (requestProcessed st) then
      let errorResponse :=
        formatResponse None
          (Some {| err_code := "PAYLOAD_TOO_LARGE"; err_message := Some "Request too large";
                   extra := [("maxSize", Some (JStr "1MB"));
                             ("currentSize",
                              Some (JStr (showZ (roundKB size) +:+ "KB")))] |}) in
      (Some (sendResponse 413 errorResponse),
       mkInbound body true true,
       set_metrics (updateMetrics (now - startTime) true (metrics ep)) ep)
    else (None, mkInbound body (requestProcessed st) true, ep)
  else (None, mkInbound body (requestProcessed st) (streamDestroyed st), ep).

(** The ['error'] listener of the request stream. *)
Definition onStreamError (error : JsError) (startTime now : Z) (st : Inbound)
    (ep : Endpoint) : option Response * Inbound * Endpoint :=
  if negb (requestProcessed st) then
    let errorResponse :=
      formatResponse None
        (Some {| err_code := "BAD_REQUEST"; err_message := Some "Bad request";
                 extra := [("details", Some (JStr (message error)))] |}) in
    (Some (sendResponse 400 errorResponse),
     mkInbound (receivedBody st) true (streamDestroyed st),
     set_metrics (updateMetrics (now - startTime) true (metrics ep)) ep)
  else (None, st, ep).

(** What the request stream delivers before ['end'], each with the clock
    reading its listener takes. *)
Inductive InboundEvent : Type :=
| BodyData (chunk : string) (now : Z)
| StreamError (error : JsError) (now : Z).

Definition inboundStep (startTime : Z) (ev : InboundEvent) (st : Inbound) (ep : Endpoint)
  : option Response * Inbound * Endpoint :=
  match ev with
  | BodyData chunk now => onData chunk startTime now st ep
  | StreamError error now => onStreamError error startTime now st ep
  end.

(** The replies written while the body streams in, and the state the
    ['end'] listener will find. *)
Fixpoint receiveBody (startTime : Z) (evs : list InboundEvent) (st : Inbound)
    (ep : Endpoint) : list Response * Inbound * Endpoint :=
  match evs with
  | [] => ([], st, ep)
  | ev :: evs' =>
      let '(reply, st1, ep1) := inboundStep startTime ev st ep in
      let '(replies, st2, ep2) := receiveBody startTime evs' st1 ep1 in
      (option_list reply ++ replies, st2, ep2)
  end.

(** ** Vocabulary of the further statements *)

(** What can happen to the breaker of one target. *)
Inductive CircuitEvent : Type :=
| GateCheck (now : Z)
| AttemptSucceeded
| AttemptFailed (now1 now2 : Z)
| ManualReset.

Definition circuitEventStep (res : Resilience) (serviceUrl : string) (ev : CircuitEvent)
    (ep : Endpoint) : Endpoint :=
  match ev with
  | GateCheck now => (checkCircuitBreaker res serviceUrl now ep).2
  | AttemptSucceeded => updateCircuitBreakerOnSuccess res serviceUrl ep
  | AttemptFailed now1 now2 => updateCircuitBreakerOnFailure res serviceUrl now1 now2 ep
  | ManualReset => resetCircuitBreaker serviceUrl ep
  end.

(** The counters of a breaker entry are in the range its state allows. *)
Definition circuitInRange (cfg : CircuitBreakerConfig) (c : Circuit) : Prop :=
  0 ≤ failureCount c
  ∧ match state c with
    | CLOSED => failureCount c < failureThreshold cfg ∧ successCount c = 0
    | OPEN => successCount c = 0
    | HALF_OPEN => 0 ≤ successCount c < successThreshold cfg
    end.

(** An update of an attempt, as opposed to a gate check or a reset. *)
Definition isAttemptUpdate (ev : CircuitEvent) : bool :=
  match ev with
  | AttemptSucceeded | AttemptFailed _ _ => true
  | _ => false
  end.

(** [JSON.parse(JSON.stringify(body))] of a response body whose keys are
    distinct: the keys with a value, in order. *)
Definition bodyToJson (body : Body) : Json :=
  JObj (omap (λ kv : string * JsVal, (λ v, (kv.1, v)) <$> kv.2) body).

Definition hasKey (k : string) (body : Body) : bool :=
  existsb (λ kv : string * JsVal, String.eqb kv.1 k) body.

(** A [retryOn] list that holds status numbers only. *)
Definition onlyStatuses (retryOn : list Json) : bool :=
  forallb (λ j, match j with JNum _ => true | _ => false end) retryOn.

(** The metrics after a sequence of replies, each with its response time
    and whether it was an error. *)
Definition recordReplies (samples : list (Z * bool)) (m : Metrics) : Metrics :=
  foldl (λ m sample, updateMetrics sample.1 sample.2 m) m samples.

(** Every armed queue timer belongs to an admission that still waits. *)
Definition timersOfPending (ep : Endpoint) : Prop :=
  ∀ p, p ∈ queueTimers ep → promises ep !! p = Some Pending.

(** The text a sequence of chunks adds up to. *)
Definition concatChunks (chunks : list string) : string :=
  foldr String.append "" chunks.



(** The parameters the ['end'] listener passes to the handler, once it
    is past its own replies. *)
Definition handedParams (stage : EndStage) : option Json :=
  match stage with
  | EndInvoke _ params | EndQueued _ _ params => Some params
  | _ => None
  end.

(** Whether a handler call threw. *)
Definition threw {A : Type} (r : Res JsError A) : bool :=
  match r with
  | Throw _ => true
  | Ok _ => false
  end.

(** * Properties *)

(** ** Circuit breaker *)

Lemma circuitOf_getCircuitBreakerState serviceUrl ep :
  (getCircuitBreakerState serviceUrl ep).1 = circuitOf serviceUrl ep.
Proof.
  unfold getCircuitBreakerState, circuitOf.
  by destruct (circuitBreakers ep !! serviceUrl).
Qed.

Lemma circuitOf_set serviceUrl c cbs ep :
  circuitOf serviceUrl (set_circuitBreakers (<[serviceUrl := c]> cbs) ep) = c.
Proof. unfold circuitOf; simpl. by rewrite lookup_insert_eq. Qed.

Lemma circuitOf_updateCircuitBreakerOnFailure res serviceUrl now1 now2 ep :
  circuitOf serviceUrl (updateCircuitBreakerOnFailure res serviceUrl now1 now2 ep)
  = (circuitOnFailure (circuitBreaker res) now1 now2 (circuitOf serviceUrl ep)).1.
Proof.
  unfold updateCircuitBreakerOnFailure.
  rewrite <- (circuitOf_getCircuitBreakerState serviceUrl ep).
  destruct (getCircuitBreakerState serviceUrl ep) as [circuit ep1]; simpl.
  destruct (circuitOnFailure _ _ _ circuit) as [circuit' tripped]; simpl.
  destruct tripped; unfold circuitOf; simpl; by rewrite lookup_insert_eq.
Qed.

Lemma metrics_getCircuitBreakerState serviceUrl ep :
  metrics (getCircuitBreakerState serviceUrl ep).2 = metrics ep.
Proof.
  unfold getCircuitBreakerState. by destruct (circuitBreakers ep !! serviceUrl).
Qed.

Lemma metrics_updateCircuitBreakerOnFailure res serviceUrl now1 now2 ep :
  metrics (updateCircuitBreakerOnFailure res serviceUrl now1 now2 ep)
  = if (circuitOnFailure (circuitBreaker res) now1 now2 (circuitOf serviceUrl ep)).2
    then incr_circuitBreakerTrips (metrics ep) else metrics ep.
Proof.
  unfold updateCircuitBreakerOnFailure.
  rewrite <- (circuitOf_getCircuitBreakerState serviceUrl ep).
  rewrite <- (metrics_getCircuitBreakerState serviceUrl ep).
  destruct (getCircuitBreakerState serviceUrl ep) as [circuit ep1]; simpl.
  destruct (circuitOnFailure _ _ _ circuit) as [circuit' tripped]; simpl.
  by destruct tripped.
Qed.

Lemma circuitOf_updateCircuitBreakerOnSuccess res serviceUrl ep :
  circuitOf serviceUrl (updateCircuitBreakerOnSuccess res serviceUrl ep)
  = circuitOnSuccess (circuitBreaker res) (circuitOf serviceUrl ep).
Proof.
  unfold updateCircuitBreakerOnSuccess.
  rewrite <- (circuitOf_getCircuitBreakerState serviceUrl ep).
  destruct (getCircuitBreakerState serviceUrl ep) as [circuit ep1]; simpl.
  apply circuitOf_set.
Qed.

(** Updates of one target leave every other target's entry alone. *)
Lemma circuitOf_updateCircuitBreakerOnFailure_ne res url url' now1 now2 ep :
  url ≠ url' →
  circuitOf url' (updateCircuitBreakerOnFailure res url now1 now2 ep) = circuitOf url' ep.
Proof.
  intros Hne. unfold updateCircuitBreakerOnFailure, getCircuitBreakerState.
  destruct (circuitBreakers ep !! url) as [c|];
    destruct (circuitOnFailure _ _ _ _) as [c' tripped];
    destruct tripped; unfold circuitOf; simpl;
    by rewrite !lookup_insert_ne.
Qed.



(** An open breaker stays open, with its recovery time, through the
    updates of attempts that were already under way. *)
Lemma open_persists res serviceUrl now1 now2 ep :
  state (circuitOf serviceUrl ep) = OPEN →
  let failed := updateCircuitBreakerOnFailure res serviceUrl now1 now2 ep in
  let succeeded := updateCircuitBreakerOnSuccess res serviceUrl ep in
  (state (circuitOf serviceUrl failed) = OPEN
   ∧ nextAttemptTime (circuitOf serviceUrl failed) = nextAttemptTime (circuitOf serviceUrl ep))
  ∧ circuitOf serviceUrl succeeded = circuitOf serviceUrl ep.
Proof.
  intros Hst failed succeeded. subst failed succeeded.
  rewrite circuitOf_updateCircuitBreakerOnFailure, circuitOf_updateCircuitBreakerOnSuccess.
  unfold circuitOnFailure, circuitOnSuccess. by rewrite Hst.
Qed.



(** The scenario of the specification: [failureThreshold = 2],
    [maxRetries = 0] and three calls to a port nobody listens on; the
    first two fail with the transport error, the third is refused by the
    breaker without an attempt. *)
Example circuit_opens_scenario :
  let res :=
    constructor_resilience
      {| r_timeout := noTimeoutOptions;
         r_circuitBreaker :=
           {| o_circuitBreakerEnabled := None; o_failureThreshold := Some 2;
              o_recoveryTimeout := None; o_successThreshold := None |};
         r_retry :=
           {| o_maxRetries := Some 0; o_initialDelay := None; o_maxDelay := None;
              o_backoffFactor := None; o_retryOn := None; o_jitterEnabled := None |} |}
      noRetryOptions in
  let refused := {| message := "connect ECONNREFUSED 127.0.0.1:9";
                    code := Some (JStr "ECONNREFUSED"); status := None |} in
  let env := λ _ : nat,
    {| random := (1 # 2)%Q; connectThrows := None; events := [ClientError refused];
       nowFailure1 := 100; nowFailure2 := 100 |} in
  let call := λ now ep,
    request (λ _, Throw ""%string) (λ _, true) res "http://127.0.0.1:9" "echo" (JObj [])
      noRequestOptions now env ep in
  let r1 := call 90 initialEndpoint in
  let r2 := call 95 (endpoint r1) in
  let r3 := call 200 (endpoint r2) in
  outcome r1 = Thrown refused ∧ attemptsIn (effects r1) = [0%nat]
  ∧ outcome r2 = Thrown refused ∧ attemptsIn (effects r2) = [0%nat]
  ∧ outcome r3 = Thrown (circuitOpenError "http://127.0.0.1:9") ∧ effects r3 = []
  ∧ circuitBreakerTrips (metrics (endpoint r3)) = 1.
Proof. vm_compute. done. Qed.




(** ** Constructor defaults *)

Lemma default_recoveryTimeout_is_not_60000 :
  o_recoveryTimeout (r_circuitBreaker noResilienceOptions) = None
  ∧ recoveryTimeout (circuitBreaker (constructor_resilience noResilienceOptions noRetryOptions))
    ≠ 60000.
Proof. split; [reflexivity | vm_compute; discriminate]. Qed.

(** C8, amended.  When the constructor receives no
    [resilience.circuitBreaker.recoveryTimeout], the recovery timeout of
    the endpoint is [DEFAULTS.RESILIENCE.CIRCUIT_BREAKER.RECOVERY_TIMEOUT],
    which is 10000 ms. *)
Theorem default_recoveryTimeout (resilience : ResilienceOptions)
    (retryOptions : RetryOptions) :
  o_recoveryTimeout (r_circuitBreaker resilience) = None →
  recoveryTimeout (circuitBreaker (constructor_resilience resilience retryOptions)) = 10000.
Proof. intros H. simpl. by rewrite H. Qed.

Lemma default_recoveryTimeout_witness :
  recoveryTimeout
    (circuitBreaker
       (constructor_resilience
          {| r_timeout := noTimeoutOptions;
             r_circuitBreaker :=
               {| o_circuitBreakerEnabled := None; o_failureThreshold := Some 2;
                  o_recoveryTimeout := None; o_successThreshold := None |};
             r_retry := noRetryOptions |}
          noRetryOptions)) = 10000.
Proof.
  apply (default_recoveryTimeout
           {| r_timeout := noTimeoutOptions;
              r_circuitBreaker :=
                {| o_circuitBreakerEnabled := None; o_failureThreshold := Some 2;
                   o_recoveryTimeout := None; o_successThreshold := None |};
              r_retry := noRetryOptions |}
           noRetryOptions).
  reflexivity.
Defined.

(** ** Retry delay *)

(** The claim fails where the exponential term or [maxDelay] is
    negative, which no validation excludes: with jitter disabled and
    [maxDelay] -1 the capped term [d] is -1, the delay is 0 and not
    [d], and the interval [[0, d*1.25]] is empty. *)
Lemma negative_cap_is_clamped_to_zero :
  let config :=
    {| maxRetries := 3; initialDelay := 500; maxDelay := (-1); backoffFactor := 2;
       retryOn := None; jitterEnabled := false |} in
  let d := Qmin (initialDelay config * backoffFactor config ^ Z.of_nat 0) (maxDelay config) in
  (d == -1)%Q
  ∧ (calculateRetryDelay 0 config 0 == 0)%Q
  ∧ ¬ (calculateRetryDelay 0 config 0 == d)%Q
  ∧ ¬ (calculateRetryDelay 0 config 0 <= d * 1.25)%Q.
Proof. vm_compute. repeat split; discriminate || (intros H; by apply H). Qed.

(** C6.  In exact arithmetic, for attempt index [k] and a jitter draw
    [U] in [0,1), with [d = min(initialDelay * backoffFactor^k,
    maxDelay)], the delay computed for the sleep between attempts [k]
    and [k+1] is [max(0, d + d*0.25*(2U-1))] when jitter is enabled and
    [max(0, d)] when it is disabled, which is [d] itself when [d] is not
    negative; it lies in [[0, max(0, d*1.25)]], which is [[0, d*1.25]]
    when [d] is not negative. *)
Theorem calculateRetryDelay_spec (k : nat) (config : RetryConfig) (U : Q) :
  (0 <= U)%Q → (U < 1)%Q →
  let d := Qmin (initialDelay config * backoffFactor config ^ Z.of_nat k) (maxDelay config) in
  (jitterEnabled config = true →
     calculateRetryDelay k config U == Qmax 0 (d + d * 0.25 * (2 * U - 1)))%Q
  ∧ (jitterEnabled config = false → calculateRetryDelay k config U == Qmax 0 d)%Q
  ∧ (jitterEnabled config = false → 0 <= d → calculateRetryDelay k config U == d)%Q
  ∧ (0 <= calculateRetryDelay k config U)%Q
  ∧ (calculateRetryDelay k config U <= Qmax 0 (d * 1.25))%Q
  ∧ (0 <= d → calculateRetryDelay k config U <= d * 1.25)%Q.
Proof.
  intros HU0 HU1 d.
  unfold calculateRetryDelay. fold d.
  assert (∀ x, Qmax x 0 == Qmax 0 x)%Q as Hcomm by (intros x; apply Q.max_comm).
  assert (∀ x, 0 <= x → Qmax 0 x == x)%Q as Hpos by (intros x Hx; by apply Q.max_r).
  assert (∀ x, x <= 0 → Qmax 0 x == 0)%Q as Hneg by (intros x Hx; by apply Q.max_l).
  split; [|split; [|split; [|split; [|split]]]].
  - intros ->. rewrite Hcomm. apply Q.max_compat; [reflexivity|ring].
  - intros ->. apply Hcomm.
  - intros -> Hd. rewrite Hcomm. by apply Hpos.
  - apply Q.le_max_r.
  - rewrite Hcomm.
    destruct (Qlt_le_dec d 0) as [Hd|Hd].
    + rewrite (Hneg (d * 1.25)%Q) by lra.
      rewrite Hneg; [lra|]. destruct (jitterEnabled config); nra.
    + rewrite (Hpos (d * 1.25)%Q) by lra.
      apply Q.max_lub; [lra|]. destruct (jitterEnabled config); nra.
  - intros Hd. apply Q.max_lub; [|lra]. destruct (jitterEnabled config); nra.
Qed.

Lemma calculateRetryDelay_spec_witness :
  let config := retry (constructor_resilience noResilienceOptions noRetryOptions) in
  let U := (3 # 4)%Q in
  let d := Qmin (initialDelay config * backoffFactor config ^ Z.of_nat 2) (maxDelay config) in
  (jitterEnabled config = true →
     calculateRetryDelay 2 config U == Qmax 0 (d + d * 0.25 * (2 * U - 1)))%Q
  ∧ (jitterEnabled config = false → calculateRetryDelay 2 config U == Qmax 0 d)%Q
  ∧ (jitterEnabled config = false → 0 <= d → calculateRetryDelay 2 config U == d)%Q
  ∧ (0 <= calculateRetryDelay 2 config U)%Q
  ∧ (calculateRetryDelay 2 config U <= Qmax 0 (d * 1.25))%Q
  ∧ (0 <= d → calculateRetryDelay 2 config U <= d * 1.25)%Q.
Proof.
  apply (calculateRetryDelay_spec 2
           (retry (constructor_resilience noResilienceOptions noRetryOptions)) (3 # 4)%Q);
    vm_compute; (reflexivity || discriminate).
Defined.

(** ** Retry loop *)

(** Whether and how an attempt settles does not depend on the counters. *)
Lemma runAttempt_settled_indep JSON_parse res evs : ∀ a m m',
  (runAttempt JSON_parse res a evs m).1 = (runAttempt JSON_parse res a evs m').1.
Proof.
  induction evs as [|ev evs IH]; intros a m m'; [done|].
  destruct ev; simpl;
    repeat match goal with
           | |- context [if ?b then _ else _] => destruct b; simpl
           end; auto.
Qed.

Lemma awaitAttempt_settled_indep JSON_parse res env m m' :
  (awaitAttempt JSON_parse res env m).1 = (awaitAttempt JSON_parse res env m').1.
Proof.
  unfold awaitAttempt. destruct (connectThrows env); [done|].
  apply runAttempt_settled_indep.
Qed.

(** The loop only ever appends to what the call has done so far. *)
Lemma retryLoop_effects_extend JSON_parse res retryConfig serviceUrl env remaining :
  ∀ attempt lastError ep done,
  ∃ more,
    effects (retryLoop JSON_parse res retryConfig serviceUrl env remaining attempt
               lastError ep done) = done ++ more.
Proof.
  induction remaining as [|remaining IH]; intros attempt lastError ep done; simpl.
  - exists []. rewrite app_nil_r. by destruct lastError.
  - destruct attempt as [|previous].
    + destruct (awaitAttempt _ _ _ _) as [[[result|error]|] m2]; simpl.
      * by eexists.
      * repeat case_match; try discriminate; try (by eexists);
          (edestruct IH as [more Hmore]; rewrite Hmore, <- ?app_assoc; by eexists).
      * by eexists.
    + destruct (awaitAttempt _ _ _ _) as [[[result|error]|] m2]; simpl.
      * rewrite <- app_assoc. by eexists.
      * repeat case_match; try discriminate; try (rewrite <- app_assoc; by eexists);
          (edestruct IH as [more Hmore]; rewrite Hmore, <- ?app_assoc; by eexists).
      * rewrite <- app_assoc. by eexists.
Qed.

(** Before every attempt but the first, the loop sleeps the delay that
    [#calculateRetryDelay] gives for the index of the attempt before. *)
Lemma retryLoop_sleeps_before_retry JSON_parse res retryConfig serviceUrl env
    remaining k lastError ep done :
  ∃ more,
    effects (retryLoop JSON_parse res retryConfig serviceUrl env (S remaining) (S k)
               lastError ep done)
    = done ++ Slept (calculateRetryDelay k retryConfig (random (env (S k))))
           :: Attempted (S k) :: more.
Proof.
  simpl.
  destruct (awaitAttempt _ _ _ _) as [[[result|error]|] m2]; simpl.
  - rewrite <- app_assoc. by exists [].
  - repeat case_match; try discriminate; try (rewrite <- app_assoc; by exists []);
      (edestruct (retryLoop_effects_extend JSON_parse res retryConfig serviceUrl env remaining)
         as [more Hmore];
       rewrite Hmore, <- !app_assoc; by exists more).
  - rewrite <- app_assoc. by exists [].
Qed.

(** The scenario of the specification: the peer fails twice and then
    answers; with [maxRetries = 5], [initialDelay = 50],
    [backoffFactor = 1.5] and jitter off, the call sleeps 50 and 75 ms
    and returns the data of the third attempt. *)
Example retry_then_succeed :
  let parse := λ s : string,
    if String.eqb s "fail"
    then @Ok string Json (JObj [("error", JStr "INTERNAL_ERROR");
                                ("message", JStr "Internal server error")])
    else Ok (JObj [("data", JObj [("success", JBool true)])]) in
  let env := λ attempt : nat,
    {| random := (1 # 2)%Q; connectThrows := None;
       events := [ClientConnect;
                  RequestData (if (attempt <? 2)%nat then "fail" else "ok");
                  RequestEnd];
       nowFailure1 := 10; nowFailure2 := 10 |} in
  let options :=
    {| token := None; opt_retryOptions := noRetryOptions;
       opt_top :=
         {| o_maxRetries := Some 5; o_initialDelay := Some 50%Q; o_maxDelay := None;
            o_backoffFactor := Some (3 # 2)%Q; o_retryOn := None;
            o_jitterEnabled := Some false |} |} in
  let r :=
    request parse (λ _, true) (constructor_resilience noResilienceOptions noRetryOptions)
      "http://127.0.0.1:3000" "flaky" (JObj []) options 0 env initialEndpoint in
  outcome r = Returned (Some (JObj [("success", JBool true)]))
  ∧ attemptsIn (effects r) = [0; 1; 2]%nat
  ∧ Forall2 Qeq (sleepsIn (effects r)) [50%Q; 75%Q]
  ∧ retryCount (metrics (endpoint r)) = 2
  ∧ state (circuitOf "http://127.0.0.1:3000" (endpoint r)) = CLOSED
  ∧ failureCount (circuitOf "http://127.0.0.1:3000" (endpoint r)) = 0.
Proof. vm_compute. repeat split; repeat constructor. Qed.

Lemma attemptsIn_app l1 l2 : attemptsIn (l1 ++ l2) = attemptsIn l1 ++ attemptsIn l2.
Proof. unfold attemptsIn. apply omap_app. Qed.

Lemma unauthorized_envelope_is_retried :
  let envelope := JObj [("error", JStr "UNAUTHORIZED"); ("message", JStr "Invalid token")] in
  let env := λ _ : nat,
    {| random := (1 # 2)%Q; connectThrows := None;
       events := [ClientConnect; RequestData "{}"; RequestEnd];
       nowFailure1 := 0; nowFailure2 := 0 |} in
  let r :=
    request (λ _, Ok envelope) (λ _, true)
      (constructor_resilience noResilienceOptions noRetryOptions)
      "http://127.0.0.1:3000" "secure" (JObj []) noRequestOptions 0 env initialEndpoint in
  outcome r
  = Thrown {| message := "Invalid token"; code := Some (JStr "UNAUTHORIZED");
              status := Some (JNum 500) |}
  ∧ attemptsIn (effects r) = [0; 1; 2; 3]%nat.
Proof. vm_compute. done. Qed.

(** What the loop does with an attempt that failed. *)
Lemma retryLoop_failed_attempt JSON_parse res retryConfig serviceUrl env
    remaining attempt lastError ep done error :
  (awaitAttempt JSON_parse res (env attempt) initialMetrics).1 = Some (Throw error) →
  ∃ ep3 done2,
    attemptsIn done2 = attemptsIn done ++ [attempt]
    ∧ retryLoop JSON_parse res retryConfig serviceUrl env (S remaining) attempt
        lastError ep done
      = if Z.of_nat attempt =? maxRetries retryConfig then
          {| outcome := Thrown error; endpoint := ep3; effects := done2 |}
        else if negb (shouldRetry error (retryOn retryConfig)) then
          {| outcome := Thrown error; endpoint := ep3; effects := done2 |}
        else
          retryLoop JSON_parse res retryConfig serviceUrl env remaining (S attempt)
            (Some error) ep3 done2.
Proof.
  intros Hsettled. cbn [retryLoop].
  destruct attempt as [|previous].
  - rewrite (awaitAttempt_settled_indep _ _ _ initialMetrics (metrics ep)) in Hsettled.
    destruct (awaitAttempt _ _ _ _) as [settled m2]; simpl in Hsettled; subst settled.
    eexists _, _. split; [|reflexivity]. by rewrite attemptsIn_app.
  - rewrite (awaitAttempt_settled_indep _ _ _ initialMetrics
               (metrics (set_metrics (incr_retryCount (metrics ep)) ep))) in Hsettled.
    destruct (awaitAttempt _ _ _ _) as [settled m2]; simpl in Hsettled; subst settled.
    eexists _, _. split; [|reflexivity]. by rewrite !attemptsIn_app, app_nil_r.
Qed.

(** When every attempt fails with the same retried error, the loop uses
    every attempt it has. *)
Lemma retryLoop_all_fail JSON_parse res retryConfig serviceUrl env error remaining :
  (∀ attempt,
     (awaitAttempt JSON_parse res (env attempt) initialMetrics).1 = Some (Throw error)) →
  shouldRetry error (retryOn retryConfig) = true →
  ∀ attempt lastError ep done,
  Z.of_nat attempt + Z.of_nat (S remaining) = maxRetries retryConfig + 1 →
  let r := retryLoop JSON_parse res retryConfig serviceUrl env (S remaining) attempt
             lastError ep done in
  outcome r = Thrown error
  ∧ attemptsIn (effects r) = attemptsIn done ++ seq attempt (S remaining).
Proof.
  intros Hfail Hretry.
  induction remaining as [|remaining IH]; intros attempt lastError ep done Hleft r; subst r.
  all: match goal with
       | |- context [retryLoop _ _ _ _ _ (S ?n) _ _ _ _] =>
           destruct (retryLoop_failed_attempt JSON_parse res retryConfig serviceUrl env
                       n attempt lastError ep done error (Hfail attempt))
             as (ep3 & done2 & Hdone2 & ->)
       end.
  - destruct (Z.eqb_spec (Z.of_nat attempt) (maxRetries retryConfig)); [|lia].
    split; [done|]. exact Hdone2.
  - destruct (Z.eqb_spec (Z.of_nat attempt) (maxRetries retryConfig)); [lia|].
    rewrite Hretry. cbn [negb].
    destruct (IH (S attempt) (Some error) ep3 done2) as [Hout Hatt]; [lia|].
    split; [done|]. rewrite Hatt, Hdone2, <- app_assoc. done.
Qed.

(** C1, amended.  When an attempt fails with an error whose code is one
    of UNAUTHORIZED, FORBIDDEN, BAD_REQUEST, INVALID_JSON,
    METHOD_NOT_FOUND or PAYLOAD_TOO_LARGE, [#shouldRetry] answers by
    [retryOn] alone: the error is retried exactly when [retryOn] lists
    its truthy status, or its code, or 'ETIMEDOUT' while the message
    includes 'timeout'.  If it is not, or the attempt is the last one,
    the loop performs no further attempt and throws that error;
    otherwise it makes the next attempt, and when every attempt fails
    with that error the call makes all its [maxRetries + 1] attempts
    before it throws it.  A peer envelope with one of those codes and no
    truthy status is such an error with status 500, retried whenever
    [retryOn] lists 500. *)
Theorem hard_code_error_not_retried
    (JSON_parse : string → Res string Json) (res : Resilience)
    (retryConfig : RetryConfig) (serviceUrl : string) (env : nat → AttemptEnv)
    (remaining attempt : nat) (lastError : option JsError) (ep : Endpoint)
    (done : list Effect) (error : JsError) :
  hasHardCode error = true →
  (awaitAttempt JSON_parse res (env attempt) initialMetrics).1 = Some (Throw error) →
  let listed :=
    match retryOn retryConfig with
    | Some l =>
        truthy (status error) && includes l (status error)
        || includes l (code error)
        || includes l (Some (JStr "ETIMEDOUT")) && str_includes "timeout" (message error)
    | None => false
    end in
  let r := retryLoop JSON_parse res retryConfig serviceUrl env (S remaining) attempt
             lastError ep done in
  shouldRetry error (retryOn retryConfig) = listed
  ∧ (listed = false ∨ Z.of_nat attempt = maxRetries retryConfig →
     outcome r = Thrown error ∧ attemptsIn (effects r) = attemptsIn done ++ [attempt])
  ∧ (listed = true → Z.of_nat attempt ≠ maxRetries retryConfig → (0 < remaining)%nat →
     ∃ more, attemptsIn (effects r) = attemptsIn done ++ attempt :: S attempt :: more)
  ∧ (listed = true → 0 ≤ maxRetries retryConfig →
     (∀ a, (awaitAttempt JSON_parse res (env a) initialMetrics).1 = Some (Throw error)) →
     let whole := retryLoop JSON_parse res retryConfig serviceUrl env
                    (Z.to_nat (maxRetries retryConfig + 1)) 0 None ep [] in
     outcome whole = Thrown error
     ∧ attemptsIn (effects whole) = seq 0 (Z.to_nat (maxRetries retryConfig + 1)))
  ∧ (∀ data fields c l,
       data ≠ ""%string → JSON_parse data = Ok (JObj fields) →
       lookup_field "error" fields = Some (JStr c) →
       existsb (String.eqb c) hardCodes = true →
       truthy (lookup_field "status" fields) = false →
       includes l (Some (JNum 500)) = true →
       ∃ envelopeError,
         decodeResponse JSON_parse data = Throw envelopeError
         ∧ hasHardCode envelopeError = true
         ∧ status envelopeError = Some (JNum 500)
         ∧ shouldRetry envelopeError (Some l) = true).
Proof.
  intros Hcode Hsettled listed r.
  assert (truthy (code error) = true) as Htruthy.
  { unfold hasHardCode in Hcode. destruct (code error) as [[| | |c| |]|]; try done.
    simpl. destruct (String.eqb_spec c "") as [->|]; done. }
  assert (shouldRetry error (retryOn retryConfig) = listed) as Hlisted.
  { subst listed. unfold shouldRetry. destruct (retryOn retryConfig) as [l|]; [|done].
    rewrite Htruthy. cbn [andb].
    destruct l as [|j l]; [simpl; by rewrite !andb_false_r|].
    change (length (j :: l) =? 0)%nat with false. cbv iota.
    destruct (truthy (status error) && includes (j :: l) (status error)); [done|].
    destruct (includes (j :: l) (code error)); [done|].
    by destruct (includes (j :: l) (Some (JStr "ETIMEDOUT"))
                 && str_includes "timeout" (message error)). }
  split; [exact Hlisted|].
  destruct (retryLoop_failed_attempt JSON_parse res retryConfig serviceUrl env
              remaining attempt lastError ep done error Hsettled)
    as (ep3 & done2 & Hdone2 & Hstep).
  split; [|split; [|split]].
  - intros Hstop. subst r. rewrite Hstep, Hlisted.
    destruct (Z.eqb_spec (Z.of_nat attempt) (maxRetries retryConfig)); [done|].
    destruct Hstop as [->|]; done.
  - intros Hyes Hmore Hleft. subst r. rewrite Hstep, Hlisted, Hyes.
    destruct (Z.eqb_spec (Z.of_nat attempt) (maxRetries retryConfig)); [done|].
    cbn [negb]. destruct remaining as [|remaining]; [lia|].
    destruct (retryLoop_sleeps_before_retry JSON_parse res retryConfig serviceUrl env
                remaining attempt (Some error) ep3 done2) as [more ->].
    exists (attemptsIn more).
    rewrite attemptsIn_app, Hdone2, <- app_assoc. done.
  - intros Hyes Hretries Hall whole. subst whole.
    destruct (Z.to_nat (maxRetries retryConfig + 1)) as [|fuel] eqn:Hfuel; [lia|].
    apply (retryLoop_all_fail JSON_parse res retryConfig serviceUrl env error fuel Hall);
      [by rewrite Hlisted|lia].
  - intros data fields c l Hdata Hparse Herror Hhard Hstatus H500.
    assert (c ≠ ""%string) as Hc by (intros ->; done).
    unfold decodeResponse. destruct (String.eqb_spec data ""); [done|].
    rewrite Hparse. simpl. rewrite Herror. simpl.
    destruct (String.eqb_spec c ""); [done|]. simpl. rewrite Hstatus.
    eexists. split; [reflexivity|]. split; [exact Hhard|]. split; [done|].
    unfold shouldRetry. simpl. destruct l as [|j l]; [done|].
    change (length (j :: l) =? 0)%nat with false. cbv iota.
    by rewrite H500.
Qed.

Lemma hard_code_error_not_retried_witness :
  let JSON_parse : string → Res string Json :=
    λ _, Ok (JObj [("error", JStr "UNAUTHORIZED"); ("message", JStr "Invalid token")]) in
  let env := λ _ : nat,
    {| random := (1 # 2)%Q; connectThrows := None;
       events := [ClientConnect; RequestData "{}"; RequestEnd];
       nowFailure1 := 0; nowFailure2 := 0 |} in
  let res := constructor_resilience noResilienceOptions noRetryOptions in
  let retryConfig :=
    spreadRetry (retry res)
      {| o_maxRetries := None; o_initialDelay := None; o_maxDelay := None;
         o_backoffFactor := None; o_retryOn := Some (Some [JNum 502; JNum 503]);
         o_jitterEnabled := None |} in
  let error :=
    {| message := "Invalid token"; code := Some (JStr "UNAUTHORIZED");
       status := Some (JNum 500) |} in
  let listed :=
    match retryOn retryConfig with
    | Some l =>
        truthy (status error) && includes l (status error)
        || includes l (code error)
        || includes l (Some (JStr "ETIMEDOUT")) && str_includes "timeout" (message error)
    | None => false
    end in
  let r := retryLoop JSON_parse res retryConfig "http://127.0.0.1:3000" env 4 0 None
             initialEndpoint [] in
  shouldRetry error (retryOn retryConfig) = listed
  ∧ (listed = false ∨ Z.of_nat 0 = maxRetries retryConfig →
     outcome r = Thrown error ∧ attemptsIn (effects r) = attemptsIn [] ++ [0%nat])
  ∧ (listed = true → Z.of_nat 0 ≠ maxRetries retryConfig → (0 < 3)%nat →
     ∃ more, attemptsIn (effects r) = attemptsIn [] ++ 0%nat :: 1%nat :: more)
  ∧ (listed = true → 0 ≤ maxRetries retryConfig →
     (∀ a, (awaitAttempt JSON_parse res (env a) initialMetrics).1 = Some (Throw error)) →
     let whole := retryLoop JSON_parse res retryConfig "http://127.0.0.1:3000" env
                    (Z.to_nat (maxRetries retryConfig + 1)) 0 None initialEndpoint [] in
     outcome whole = Thrown error
     ∧ attemptsIn (effects whole) = seq 0 (Z.to_nat (maxRetries retryConfig + 1)))
  ∧ (∀ data fields c l,
       data ≠ ""%string → JSON_parse data = Ok (JObj fields) →
       lookup_field "error" fields = Some (JStr c) →
       existsb (String.eqb c) hardCodes = true →
       truthy (lookup_field "status" fields) = false →
       includes l (Some (JNum 500)) = true →
       ∃ envelopeError,
         decodeResponse JSON_parse data = Throw envelopeError
         ∧ hasHardCode envelopeError = true
         ∧ status envelopeError = Some (JNum 500)
         ∧ shouldRetry envelopeError (Some l) = true).
Proof.
  apply (hard_code_error_not_retried
           (λ _, Ok (JObj [("error", JStr "UNAUTHORIZED"); ("message", JStr "Invalid token")]))
           (constructor_resilience noResilienceOptions noRetryOptions)
           (spreadRetry (retry (constructor_resilience noResilienceOptions noRetryOptions))
              {| o_maxRetries := None; o_initialDelay := None; o_maxDelay := None;
                 o_backoffFactor := None; o_retryOn := Some (Some [JNum 502; JNum 503]);
                 o_jitterEnabled := None |})
           "http://127.0.0.1:3000"
           (λ _ : nat,
              {| random := (1 # 2)%Q; connectThrows := None;
                 events := [ClientConnect; RequestData "{}"; RequestEnd];
                 nowFailure1 := 0; nowFailure2 := 0 |})
           3 0 None initialEndpoint []
           {| message := "Invalid token"; code := Some (JStr "UNAUTHORIZED");
              status := Some (JNum 500) |}).
  - reflexivity.
  - reflexivity.
Defined.

(** ** Timeouts of an attempt *)

(** Events that do not settle the attempt leave the counters alone. *)
Lemma runAttempt_wrapper_timer JSON_parse res rest : ∀ pre a m,
  wrapperTimer a = true →
  (runAttempt JSON_parse res a pre m).1 = None →
  runAttempt JSON_parse res a (pre ++ WrapperTimerFires :: rest) m
  = (Some (Throw (requestTimeoutError res)), incr_timeoutCount m).
Proof.
  induction pre as [|ev pre IH]; intros a m Hw Hnone; simpl in *.
  - by rewrite Hw.
  - destruct ev; simpl in *;
      repeat match goal with
             | H : context [if ?b then _ else _] |- _ => destruct b eqn:?; simpl in H
             end; try discriminate; simpl; by apply IH.
Qed.

Lemma runAttempt_connection_timer JSON_parse res rest : ∀ pre a m,
  connectionTimer a = true → connected a = false →
  ClientConnect ∉ pre →
  (runAttempt JSON_parse res a pre m).1 = None →
  runAttempt JSON_parse res a (pre ++ ConnectionTimerFires :: rest) m
  = (Some (Throw (connectionTimeoutError res)), m).
Proof.
  induction pre as [|ev pre IH]; intros a m Hc Hn Hnot Hnone; simpl in *.
  - by rewrite Hc.
  - apply not_elem_of_cons in Hnot as [Hne Hnot].
    destruct ev; simpl in *; try done;
      repeat match goal with
             | H : context [if ?b then _ else _] |- _ => destruct b eqn:?; simpl in H
             end; try discriminate; simpl; try congruence; by apply IH.
Qed.

Lemma runAttempt_request_timer JSON_parse res rest : ∀ pre a m,
  wrapperTimer a = false →
  (connected a = true → requestTimer a = true) →
  (connected a = true ∨ ClientConnect ∈ pre) →
  (runAttempt JSON_parse res a pre m).1 = None →
  runAttempt JSON_parse res a (pre ++ RequestTimerFires :: rest) m
  = (Some (Throw (requestTimeoutError res)), m).
Proof.
  induction pre as [|ev pre IH]; intros a m Hw Hinv Hconn Hnone; simpl in *.
  - destruct Hconn as [Hconn|Hconn]; [|by apply elem_of_nil in Hconn].
    by rewrite (Hinv Hconn).
  - assert (Hpre : ev = ClientConnect ∨ connected a = true ∨ ClientConnect ∈ pre).
    { destruct Hconn as [?|Hin]; [tauto|].
      apply elem_of_cons in Hin as [<-|?]; tauto. }
    clear Hconn.
    destruct ev; simpl in *;
      repeat match goal with
             | H : context [if ?b then _ else _] |- _ => destruct b eqn:?; simpl in H
             end; try discriminate; simpl;
      apply IH; simpl; try done; try tauto;
      try (intros Hc; specialize (Hinv Hc); congruence);
      destruct Hpre as [?|[?|?]]; try discriminate; try congruence; tauto.
Qed.

Lemma connection_timeout_is_not_counted :
  let env := λ _ : nat,
    {| random := (1 # 2)%Q; connectThrows := None; events := [ConnectionTimerFires];
       nowFailure1 := 5000; nowFailure2 := 5000 |} in
  let r :=
    request (λ _, Throw ""%string) (λ _, true)
      (constructor_resilience noResilienceOptions noRetryOptions)
      "http://10.255.255.1:3000" "echo" (JObj []) noRequestOptions 0 env initialEndpoint in
  outcome r = Thrown (newError "Connection timeout after 5000ms")
  ∧ attemptsIn (effects r) = [0%nat]
  ∧ timeoutCount (metrics (endpoint r)) = timeoutCount (metrics initialEndpoint)
  ∧ timeoutCount (metrics (endpoint r)) ≠ timeoutCount (metrics initialEndpoint) + 1.
Proof. vm_compute. repeat split; discriminate. Qed.

(** C9, amended.  While an attempt is pending: when the timer of the
    timeout wrapper fires (the attempt exceeded [requestTimeout] and the
    timeout pattern is enabled), [timeoutCount] is incremented and the
    attempt fails with the error "Request timeout after
    <requestTimeout>ms" (the TIMEOUT kind); when the connection timer
    fires (the session was not connected within [connectionTimeout]),
    the attempt fails with "Connection timeout after
    <connectionTimeout>ms" and [timeoutCount] is unchanged; and when the
    timeout pattern is disabled and the request timer of [#makeRequest]
    fires after the connect, the attempt fails with the request-timeout
    error and [timeoutCount] is unchanged. *)
Theorem timeout_failures_accounting
    (JSON_parse : string → Res string Json) (res : Resilience)
    (pre rest : list AttemptEvent) (m : Metrics) :
  (runAttempt JSON_parse res (startAttempt res) pre m).1 = None →
  (timeoutEnabled (timeout res) = true →
     runAttempt JSON_parse res (startAttempt res) (pre ++ WrapperTimerFires :: rest) m
     = (Some (Throw (requestTimeoutError res)), incr_timeoutCount m)
     ∧ timeoutCount (incr_timeoutCount m) = timeoutCount m + 1)
  ∧ (ClientConnect ∉ pre →
     runAttempt JSON_parse res (startAttempt res) (pre ++ ConnectionTimerFires :: rest) m
     = (Some (Throw (connectionTimeoutError res)), m))
  ∧ (timeoutEnabled (timeout res) = false → ClientConnect ∈ pre →
     runAttempt JSON_parse res (startAttempt res) (pre ++ RequestTimerFires :: rest) m
     = (Some (Throw (requestTimeoutError res)), m)).
Proof.
  intros Hnone. split; [|split].
  - intros Hen. split; [|done]. by apply runAttempt_wrapper_timer.
  - intros Hnot. by apply runAttempt_connection_timer.
  - intros Hdis Hin. apply runAttempt_request_timer; simpl; try done. by right.
Qed.

Lemma timeout_failures_accounting_witness :
  let res := constructor_resilience noResilienceOptions noRetryOptions in
  let parse := λ _ : string, @Throw string Json ""%string in
  let pre := [ClientConnect; RequestData "partial"] in
  (runAttempt parse res (startAttempt res) pre initialMetrics).1 = None
  ∧ ((timeoutEnabled (timeout res) = true →
       runAttempt parse res (startAttempt res) (pre ++ WrapperTimerFires :: []) initialMetrics
       = (Some (Throw (requestTimeoutError res)), incr_timeoutCount initialMetrics)
       ∧ timeoutCount (incr_timeoutCount initialMetrics) = timeoutCount initialMetrics + 1)
     ∧ (ClientConnect ∉ pre →
        runAttempt parse res (startAttempt res) (pre ++ ConnectionTimerFires :: [])
          initialMetrics
        = (Some (Throw (connectionTimeoutError res)), initialMetrics))
     ∧ (timeoutEnabled (timeout res) = false → ClientConnect ∈ pre →
        runAttempt parse res (startAttempt res) (pre ++ RequestTimerFires :: [])
          initialMetrics
        = (Some (Throw (requestTimeoutError res)), initialMetrics))).
Proof.
  split; [reflexivity|].
  apply (timeout_failures_accounting (λ _ : string, @Throw string Json ""%string)
           (constructor_resilience noResilienceOptions noRetryOptions)
           [ClientConnect; RequestData "partial"] [] initialMetrics).
  reflexivity.
Defined.

(** ** Per-method bulkhead *)

Lemma bulkheadMethods_callClosure f reason ep :
  bulkheadMethods (callClosure f reason ep) = bulkheadMethods ep.
Proof. by destruct f. Qed.

Lemma bulkheadMethods_set_methodState methodName ms ep :
  bulkheadMethods (set_methodState methodName ms ep) !! methodName = Some ms.
Proof. unfold set_methodState; simpl. by rewrite lookup_insert_eq. Qed.

(** The queue timer looks for the promise's own [resolve] among arrow
    functions, and finds none. *)
Lemma findIndex_own_resolve p queue :
  queueOfItems queue →
  findIndex (λ item, closure_eqb (resolve item) (PromiseResolve p)) queue = None.
Proof.
  induction 1 as [|item queue [q Hq] _ IH]; [done|].
  simpl. rewrite Hq; simpl. by rewrite IH.
Qed.

Lemma bulkheadMethods_queueTimerFires methodName p ep :
  goodBulkhead methodName ep →
  bulkheadMethods (queueTimerFires methodName p ep) = bulkheadMethods ep.
Proof.
  intros [_ Hq]. unfold queueTimerFires.
  destruct (bool_decide (p ∈ queueTimers ep)); [|done].
  cbn [negb]. rewrite bulkheadMethods_callClosure. simpl.
  destruct (bulkheadMethods ep !! methodName) as [ms|]; [|done].
  by rewrite findIndex_own_resolve.
Qed.

Lemma belowLimit_Finite n value :
  belowLimit n (Some (Finite value)) = true ↔ (inject_Z n < value)%Q.
Proof.
  simpl. rewrite negb_true_iff. split.
  - intros Hle. apply Qnot_le_lt. intros Hcontra.
    apply Qle_bool_iff in Hcontra. congruence.
  - intros Hlt. destruct (Qle_bool value (inject_Z n)) eqn:Hle; [|done].
    apply Qle_bool_iff in Hle. by apply Qle_not_lt in Hle.
Qed.

Lemma within_succ n limit :
  within n limit → belowLimit n limit = true → within (n + 1) limit.
Proof.
  destruct limit as [[value| | |]|]; try done.
  intros _ Hbelow%belowLimit_Finite. unfold within.
  rewrite inject_Z_plus. change (inject_Z 1) with 1%Q. lra.
Qed.

Lemma within_pred n limit : within n limit → within (n - 1) limit.
Proof.
  destruct limit as [[value| | |]|]; simpl; try done; try lia.
  intros Hn. eapply Qle_lt_trans; [|exact Hn]. rewrite <- Zle_Qle. lia.
Qed.

Lemma within_integerLimit n limit m : within n limit → integerLimit limit m → n ≤ m.
Proof.
  intros Hn (value & -> & Hvalue). simpl in Hn. rewrite Hvalue in Hn.
  assert (inject_Z n < inject_Z (m + 1))%Q as Hlt
    by (rewrite inject_Z_plus; exact Hn).
  rewrite <- Zlt_Qlt in Hlt. lia.
Qed.

Lemma goodBulkhead_step methodName op ep :
  goodBulkhead methodName ep → goodBulkhead methodName (bulkheadStep methodName op ep).
Proof.
  intros Hgood. destruct op as [| |p]; simpl.
  - destruct Hgood as [Hlim Hq]. unfold goodBulkhead, withinLimits in *.
    unfold acquireMethodBulkheadPermit.
    destruct (bulkheadMethods ep !! methodName) as [ms|] eqn:Hms; simpl;
      [|by rewrite Hms].
    destruct (bulkheadEnabled (config ms)); simpl; [|by rewrite Hms].
    destruct Hlim as [Hactive Hqueue].
    destruct (belowLimit (activeRequests ms) (maxConcurrentRequests (config ms)))
      eqn:Hfree; simpl.
    { rewrite lookup_insert_eq; simpl. split; [split; [by apply within_succ|done]|done]. }
    destruct (belowLimit (Z.of_nat (length (queuedRequests ms)))
                (maxQueueSize (config ms))) eqn:Hroom; simpl.
    { rewrite lookup_insert_eq; simpl. rewrite length_app; simpl. split.
      - split; [done|]. rewrite Nat2Z.inj_add. by apply within_succ.
      - apply Forall_app. split; [done|]. apply Forall_singleton. by eexists. }
    rewrite lookup_insert_eq; simpl. done.
  - destruct Hgood as [Hlim Hq]. unfold goodBulkhead, withinLimits in *.
    unfold releaseMethodBulkheadPermit.
    destruct (bulkheadMethods ep !! methodName) as [ms|] eqn:Hms; simpl;
      [|by rewrite Hms].
    destruct (bulkheadEnabled (config ms)); simpl; [|by rewrite Hms].
    destruct Hlim as [Hactive Hqueue].
    destruct (queuedRequests ms) as [|next rest] eqn:Hwaiters; simpl.
    { rewrite lookup_insert_eq; simpl. split; [split; [by apply within_pred|done]|done]. }
    rewrite bulkheadMethods_callClosure, bulkheadMethods_set_methodState; simpl.
    apply Forall_cons in Hq as [_ Hq]. split; [|done]. split.
    + by rewrite Z.sub_add.
    + simpl in Hqueue. rewrite Nat2Z.inj_succ in Hqueue. unfold Z.succ in Hqueue.
      apply within_pred in Hqueue. by rewrite Z.add_simpl_r in Hqueue.
  - unfold goodBulkhead, withinLimits.
    rewrite (bulkheadMethods_queueTimerFires _ _ _ Hgood). exact Hgood.
Qed.

Lemma goodBulkhead_run methodName ops : ∀ ep,
  goodBulkhead methodName ep → Forall (goodBulkhead methodName) (bulkheadRun methodName ops ep).
Proof.
  induction ops as [|op ops IH]; intros ep Hgood; simpl; [done|].
  apply Forall_cons. split; [by apply goodBulkhead_step|].
  apply IH. by apply goodBulkhead_step.
Qed.

(** One operation takes a waiter from the head of the queue, adds one at
    the tail, or leaves the queue as it is. *)
Lemma waiting_step methodName op ep :
  goodBulkhead methodName ep →
  shiftedBy methodName op ep ++ waiting methodName (bulkheadStep methodName op ep)
  = waiting methodName ep ++ enqueuedBy methodName op ep.
Proof.
  intros Hgood. destruct op as [| |p]; simpl.
  - unfold waiting, acquireMethodBulkheadPermit.
    destruct (bulkheadMethods ep !! methodName) as [ms|] eqn:Hms; simpl;
      [|by rewrite Hms].
    destruct (bulkheadEnabled (config ms)); simpl; [|by rewrite Hms, app_nil_r].
    destruct (belowLimit (activeRequests ms) (maxConcurrentRequests (config ms))); simpl.
    { by rewrite lookup_insert_eq, app_nil_r. }
    destruct (belowLimit (Z.of_nat (length (queuedRequests ms)))
                (maxQueueSize (config ms))); simpl.
    { rewrite lookup_insert_eq; simpl. by rewrite fmap_app. }
    by rewrite lookup_insert_eq, app_nil_r.
  - unfold waiting, releaseMethodBulkheadPermit.
    destruct (bulkheadMethods ep !! methodName) as [ms|] eqn:Hms; simpl;
      [|by rewrite Hms].
    destruct (bulkheadEnabled (config ms)); simpl; [|by rewrite Hms, app_nil_r].
    destruct (queuedRequests ms) as [|next rest] eqn:Hqueue; simpl.
    { by rewrite lookup_insert_eq. }
    rewrite bulkheadMethods_callClosure, bulkheadMethods_set_methodState; simpl.
    by rewrite app_nil_r.
  - unfold waiting. rewrite (bulkheadMethods_queueTimerFires _ _ _ Hgood).
    by rewrite app_nil_r.
Qed.

Lemma waiting_run methodName ops : ∀ ep,
  goodBulkhead methodName ep →
  shiftLog methodName ops ep
    ++ waiting methodName (foldl (λ ep op, bulkheadStep methodName op ep) ep ops)
  = waiting methodName ep ++ enqueueLog methodName ops ep.
Proof.
  induction ops as [|op ops IH]; intros ep Hgood; simpl.
  - by rewrite app_nil_r.
  - rewrite <- app_assoc, IH by (by apply goodBulkhead_step).
    by rewrite !app_assoc, waiting_step.
Qed.

Lemma within_zero_validated value :
  isDefined value && negb (isPositiveNumber value) = false → within 0 (asLimit value).
Proof.
  destruct value as [|[q| | |]|]; simpl; try done.
  rewrite negb_involutive. intros Hpositive.
  destruct (Qle_bool q 0) eqn:Hle; [done|].
  assert (0 < q)%Q.
  { apply Qnot_le_lt. intros Hcontra. apply Qle_bool_iff in Hcontra. congruence. }
  change (inject_Z 0) with 0%Q. lra.
Qed.

Lemma positiveOrUndefined_validated value :
  isDefined value && negb (isPositiveNumber value) = false →
  positiveOrUndefined (asLimit value).
Proof.
  destruct value as [|[q| | |]|]; simpl; try done.
  rewrite negb_involutive. intros Hpositive.
  apply Qnot_le_lt. intros Hcontra. apply Qle_bool_iff in Hcontra. congruence.
Qed.

(** What a successful [addMethod] leaves in the bulkhead registry. *)
Lemma bulkheadMethods_addMethod readThrough writeThrough name handler bulkheadConfig ep0 ep :
  addMethod readThrough writeThrough name handler bulkheadConfig ep0 = (None, ep) →
  let merged := spreadBulkhead defaultConfig bulkheadConfig in
  bulkheadMethods ep
  = <[name := {| config := storedConfig merged; activeRequests := 0;
                 queuedRequests := []; rejectedRequests := 0 |}]> (bulkheadMethods ep0)
  ∧ isDefined (m_maxConcurrentRequests merged)
    && negb (isPositiveNumber (m_maxConcurrentRequests merged)) = false
  ∧ isDefined (m_maxQueueSize merged) && negb (isPositiveNumber (m_maxQueueSize merged))
    = false
  ∧ isDefined (m_queueTimeout merged) && negb (isPositiveNumber (m_queueTimeout merged))
    = false
  ∧ isNonEmptyString name = true
  ∧ metrics ep = metrics ep0 ∧ circuitBreakers ep = circuitBreakers ep0
  ∧ promises ep = promises ep0 ∧ queueTimers ep = queueTimers ep0.
Proof.
  intros Hadd merged. unfold addMethod in Hadd. fold merged in Hadd.
  destruct (isNonEmptyString name); [|discriminate]. cbn [negb] in Hadd.
  destruct (probeMethod readThrough (_methods ep0) name); [|discriminate].
  destruct (isDefined (m_maxConcurrentRequests merged)
            && negb (isPositiveNumber (m_maxConcurrentRequests merged))); [discriminate|].
  destruct (isDefined (m_maxQueueSize merged)
            && negb (isPositiveNumber (m_maxQueueSize merged))); [discriminate|].
  destruct (isDefined (m_queueTimeout merged)
            && negb (isPositiveNumber (m_queueTimeout merged))); [discriminate|].
  destruct (assignMethod _ _ _ _) as [methods|]; [|discriminate].
  injection Hadd as <-. by repeat split.
Qed.

Lemma goodBulkhead_addMethod readThrough writeThrough name handler bulkheadConfig ep0 ep :
  addMethod readThrough writeThrough name handler bulkheadConfig ep0 = (None, ep) →
  goodBulkhead name ep ∧ waiting name ep = [].
Proof.
  intros Hadd.
  destruct (bulkheadMethods_addMethod _ _ _ _ _ _ _ Hadd) as (Hb & H1 & H2 & _).
  unfold goodBulkhead, withinLimits, waiting. rewrite Hb, lookup_insert_eq. simpl.
  repeat split; [by apply within_zero_validated|by apply within_zero_validated|constructor].
Qed.

Lemma settle_lookup_ne p q o ps : p ≠ q → settle q o ps !! p = ps !! p.
Proof.
  intros Hne. unfold settle. destruct (ps !! q) as [[| |]|]; try done.
  by rewrite list_lookup_insert_ne.
Qed.

Lemma settle_lookup_settled p q o o' ps :
  ps !! p = Some o → o ≠ Pending → settle q o' ps !! p = Some o.
Proof.
  intros Hp Ho. destruct (decide (p = q)) as [->|Hne].
  - unfold settle. rewrite Hp. by destruct o.
  - by rewrite settle_lookup_ne.
Qed.

Lemma newlyFulfilled_same ps : ∀ i, newlyFulfilled i ps ps = [].
Proof. induction ps as [|[| |] ps IH]; intros i; simpl; by rewrite ?IH. Qed.

Lemma newlyFulfilled_app ps more : ∀ i, newlyFulfilled i ps (ps ++ more) = [].
Proof. induction ps as [|[| |] ps IH]; intros i; simpl; by rewrite ?IH. Qed.

Lemma newlyFulfilled_insert ps : ∀ i q outcome,
  newlyFulfilled i ps (<[q := outcome]> ps)
  = match ps !! q, outcome with
    | Some Pending, Fulfilled => [(i + q)%nat]
    | _, _ => []
    end.
Proof.
  induction ps as [|b ps IH]; intros i [|q] outcome; simpl; try done.
  - rewrite newlyFulfilled_same, app_nil_r, Nat.add_0_r. by destruct b, outcome.
  - rewrite IH. replace (S i + q)%nat with (i + S q)%nat by lia. by destruct b.
Qed.

Lemma newlyFulfilled_settle i q outcome ps :
  newlyFulfilled i ps (settle q outcome ps)
  = match ps !! q, outcome with
    | Some Pending, Fulfilled => [(i + q)%nat]
    | _, _ => []
    end.
Proof.
  unfold settle. destruct (ps !! q) as [[| |]|] eqn:Hq;
    rewrite ?newlyFulfilled_same, ?newlyFulfilled_insert, ?Hq; done.
Qed.

Lemma promises_queueTimerFires methodName p ep :
  promises (queueTimerFires methodName p ep)
  = if bool_decide (p ∈ queueTimers ep)
    then settle p (Rejected (queueTimeoutError methodName)) (promises ep)
    else promises ep.
Proof.
  unfold queueTimerFires. destruct (bool_decide (p ∈ queueTimers ep)); cbn [negb]; [|done].
  simpl. destruct (bulkheadMethods ep !! methodName) as [ms|]; [|done].
  by destruct (findIndex _ _).
Qed.

(** An operation fulfils no promise but that of the waiter it takes from
    the head of the queue. *)
Lemma admittedBy_shiftedBy methodName op ep :
  goodBulkhead methodName ep →
  admittedBy methodName op ep `sublist_of` shiftedBy methodName op ep.
Proof.
  intros [_ Hq]. unfold admittedBy. destruct op as [| |p]; simpl.
  - unfold acquireMethodBulkheadPermit.
    destruct (bulkheadMethods ep !! methodName) as [ms|]; simpl;
      [|by rewrite newlyFulfilled_same].
    destruct (bulkheadEnabled (config ms)); simpl; [|by rewrite newlyFulfilled_same].
    destruct (belowLimit (activeRequests ms) (maxConcurrentRequests (config ms))); simpl;
      [by rewrite newlyFulfilled_same|].
    destruct (belowLimit (Z.of_nat (length (queuedRequests ms)))
                (maxQueueSize (config ms))); simpl;
      [by rewrite newlyFulfilled_app|by rewrite newlyFulfilled_same].
  - unfold releaseMethodBulkheadPermit.
    destruct (bulkheadMethods ep !! methodName) as [ms|]; simpl;
      [|by rewrite newlyFulfilled_same].
    destruct (bulkheadEnabled (config ms)); simpl; [|by rewrite newlyFulfilled_same].
    destruct (queuedRequests ms) as [|next rest]; simpl;
      [by rewrite newlyFulfilled_same|].
    apply Forall_cons in Hq as [[q Hnext] _]. unfold waiterOf. rewrite Hnext. simpl.
    rewrite newlyFulfilled_settle.
    destruct (promises ep !! q) as [[| |]|]; [done|by apply sublist_nil_l..].
  - rewrite promises_queueTimerFires.
    destruct (bool_decide (p ∈ queueTimers ep));
      by rewrite ?newlyFulfilled_settle, ?newlyFulfilled_same; destruct (promises ep !! p) as [[| |]|].
Qed.

Lemma admitLog_shiftLog methodName ops : ∀ ep,
  goodBulkhead methodName ep →
  admitLog methodName ops ep `sublist_of` shiftLog methodName ops ep.
Proof.
  induction ops as [|op ops IH]; intros ep Hgood; simpl; [done|].
  apply sublist_app; [by apply admittedBy_shiftedBy|].
  apply IH. by apply goodBulkhead_step.
Qed.

(** While no queue timer fires, the waiters stay pending, and the head
    of the queue is fulfilled when a release takes it. *)
Lemma pendingWaiters_step methodName op ep :
  isQueueTimeout op = false → goodBulkhead methodName ep → pendingWaiters methodName ep →
  pendingWaiters methodName (bulkheadStep methodName op ep)
  ∧ admittedBy methodName op ep = shiftedBy methodName op ep.
Proof.
  intros Hop [_ Hq] [Hnodup Hpending]. unfold pendingWaiters, admittedBy, waiting in *.
  destruct op as [| |p]; [| |done]; simpl.
  - unfold acquireMethodBulkheadPermit.
    destruct (bulkheadMethods ep !! methodName) as [ms|] eqn:Hms; simpl;
      [|by rewrite Hms, newlyFulfilled_same].
    destruct (bulkheadEnabled (config ms)); simpl;
      [|by rewrite Hms, newlyFulfilled_same].
    destruct (belowLimit (activeRequests ms) (maxConcurrentRequests (config ms))); simpl.
    { by rewrite lookup_insert_eq, newlyFulfilled_same. }
    destruct (belowLimit (Z.of_nat (length (queuedRequests ms)))
                (maxQueueSize (config ms))); simpl.
    + rewrite lookup_insert_eq, newlyFulfilled_app. simpl. rewrite fmap_app. simpl.
      repeat split.
      * apply NoDup_app. repeat split; [done| |apply NoDup_singleton].
        intros q Hin ->%list_elem_of_singleton.
        rewrite Forall_forall in Hpending. apply Hpending in Hin.
        apply lookup_lt_Some in Hin. unfold waiterOf in Hin. simpl in Hin. lia.
      * apply Forall_app. split.
        -- eapply Forall_impl; [exact Hpending|]. intros q Hin. simpl in Hin.
           by apply lookup_app_l_Some.
        -- apply Forall_singleton. by rewrite lookup_app_r, Nat.sub_diag.
    + by rewrite lookup_insert_eq, newlyFulfilled_same.
  - unfold releaseMethodBulkheadPermit.
    destruct (bulkheadMethods ep !! methodName) as [ms|] eqn:Hms; simpl;
      [|by rewrite Hms, newlyFulfilled_same].
    destruct (bulkheadEnabled (config ms)); simpl;
      [|by rewrite Hms, newlyFulfilled_same].
    destruct (queuedRequests ms) as [|next rest] eqn:Hqueue; simpl.
    { rewrite lookup_insert_eq, newlyFulfilled_same. simpl. repeat split; constructor. }
    rewrite bulkheadMethods_callClosure, bulkheadMethods_set_methodState. simpl.
    apply Forall_cons in Hq as [[q Hnext] _].
    simpl in Hnodup, Hpending. unfold waiterOf in Hnodup, Hpending at 1.
    rewrite Hnext in Hnodup, Hpending.
    apply NoDup_cons in Hnodup as [Hfresh Hnodup].
    apply Forall_cons in Hpending as [Hhead Hpending].
    unfold waiterOf at 3. rewrite Hnext. simpl.
    rewrite newlyFulfilled_settle, Hhead. repeat split; [done|].
    rewrite Forall_forall in Hpending. apply Forall_forall. intros r Hin.
    rewrite settle_lookup_ne; [by apply Hpending|].
    intros ->. by apply Hfresh.
Qed.

Lemma admitLog_without_timeouts methodName ops : ∀ ep,
  forallb (λ op, negb (isQueueTimeout op)) ops = true →
  goodBulkhead methodName ep → pendingWaiters methodName ep →
  admitLog methodName ops ep = shiftLog methodName ops ep.
Proof.
  induction ops as [|op ops IH]; intros ep Hops Hgood Hpending; simpl; [done|].
  simpl in Hops. apply andb_true_iff in Hops as [Hop Hops].
  apply negb_true_iff in Hop.
  destruct (pendingWaiters_step methodName op ep Hop Hgood Hpending) as [Hnext ->].
  f_equal. apply IH; [done|by apply goodBulkhead_step|done].
Qed.

(** C4.  [activeRequests <= maxConcurrentRequests] does not hold at every
    observation: [addMethod] accepts any number above 0 as a limit, and
    under [maxConcurrentRequests = 1.5] two acquisitions are admitted
    at once, which leaves [activeRequests] at 2. *)
Lemma fractional_limit_is_exceeded :
  let options :=
    {| b_enabled := None; b_maxConcurrentRequests := Some (GivenNumber (Finite 1.5));
       b_maxQueueSize := None; b_queueTimeout := None |} in
  let ep := endpointWith "work" (λ params, Ok (Some params)) options in
  let ops := [OpAcquire; OpAcquire] in
  addMethod (λ _ _, Ok None) (λ _ _, Ok AssignedOwn) "work" (λ params, Ok (Some params))
    options initialEndpoint = (None, ep)
  ∧ (activeRequests <$> (bulkheadMethods <$> bulkheadRun "work" ops ep) !! 1%nat
                        ≫= (.!! "work")) = Some 2
  ∧ ¬ Forall (withinLimits_spec "work") (ep :: bulkheadRun "work" ops ep).
Proof.
  split; [reflexivity|]. split; [reflexivity|].
  intros Hall. apply Forall_cons in Hall as [_ Hall].
  apply Forall_cons in Hall as [_ Hall]. apply Forall_cons in Hall as [[Hactive _] _].
  vm_compute in Hactive. by apply Hactive.
Qed.

(** C4.  For a method registered by [addMethod], at every state a
    sequence of permit acquisitions, releases and queue timeouts goes
    through, [activeRequests] is below [maxConcurrentRequests + 1] and the
    number of queued waiters below [maxQueueSize + 1] (for a limit given
    as [undefined], neither exceeds 0), so that each is at most its
    limit when the limit is an integer; the waiters whose admission
    promise is fulfilled are fulfilled in the order they were enqueued;
    and while no queue timer fires they are an initial segment of the
    waiters enqueued, none being passed over. *)
Theorem bulkhead_limits_and_fifo
    (readThrough : Handler → string → Res JsError (option Handler))
    (writeThrough : Handler → string → Res JsError Assigned)
    (name : string) (handler : Handler) (bulkheadConfig : BulkheadOptions)
    (ep0 ep : Endpoint) (ops : list BulkheadOp) :
  addMethod readThrough writeThrough name handler bulkheadConfig ep0 = (None, ep) →
  Forall (withinLimits name) (ep :: bulkheadRun name ops ep)
  ∧ (∀ ep' methodState, ep' ∈ ep :: bulkheadRun name ops ep →
       bulkheadMethods ep' !! name = Some methodState →
       (∀ m, integerLimit (maxConcurrentRequests (config methodState)) m →
             activeRequests methodState ≤ m)
       ∧ (∀ m, integerLimit (maxQueueSize (config methodState)) m →
               Z.of_nat (length (queuedRequests methodState)) ≤ m))
  ∧ admitLog name ops ep `sublist_of` enqueueLog name ops ep
  ∧ (forallb (λ op, negb (isQueueTimeout op)) ops = true →
     admitLog name ops ep `prefix_of` enqueueLog name ops ep).
Proof.
  intros Hadd.
  destruct (goodBulkhead_addMethod _ _ _ _ _ _ _ Hadd) as [Hgood Hempty].
  assert (Hall : Forall (withinLimits name) (ep :: bulkheadRun name ops ep)).
  { apply Forall_cons. split; [apply Hgood|].
    eapply Forall_impl; [by apply goodBulkhead_run|]. by intros ? [? _]. }
  pose proof (waiting_run name ops ep Hgood) as Hrun.
  rewrite Hempty in Hrun. simpl in Hrun.
  split; [done|]. split; [|split].
  - intros ep' ms Hin Hms. rewrite Forall_forall in Hall. apply Hall in Hin.
    unfold withinLimits in Hin. rewrite Hms in Hin. destruct Hin as [Hactive Hqueue].
    split; intros m Hm; by eapply within_integerLimit.
  - rewrite <- Hrun. etrans; [by apply admitLog_shiftLog|]. by apply sublist_inserts_r.
  - intros Hops. rewrite <- Hrun, admitLog_without_timeouts; [by apply prefix_app_r|done..|].
    unfold pendingWaiters. rewrite Hempty. split; constructor.
Qed.

Lemma bulkhead_limits_and_fifo_witness :
  let ops := [OpAcquire; OpAcquire; OpAcquire; OpAcquire; OpRelease; OpQueueTimeout 1;
              OpAcquire; OpRelease; OpRelease] in
  let options :=
    {| b_enabled := None; b_maxConcurrentRequests := given 1; b_maxQueueSize := given 2;
       b_queueTimeout := None |} in
  ∃ ep,
    addMethod (λ _ _, Ok None) (λ _ _, Ok AssignedOwn) "work" (λ params, Ok (Some params))
      options initialEndpoint = (None, ep)
    ∧ Forall (withinLimits "work") (ep :: bulkheadRun "work" ops ep)
    ∧ (∀ ep' methodState, ep' ∈ ep :: bulkheadRun "work" ops ep →
         bulkheadMethods ep' !! "work" = Some methodState →
         (∀ m, integerLimit (maxConcurrentRequests (config methodState)) m →
               activeRequests methodState ≤ m)
         ∧ (∀ m, integerLimit (maxQueueSize (config methodState)) m →
                 Z.of_nat (length (queuedRequests methodState)) ≤ m))
    ∧ admitLog "work" ops ep `sublist_of` enqueueLog "work" ops ep
    ∧ (forallb (λ op, negb (isQueueTimeout op)) ops = true →
       admitLog "work" ops ep `prefix_of` enqueueLog "work" ops ep).
Proof.
  eexists. split; [reflexivity|].
  apply (bulkhead_limits_and_fifo (λ _ _, Ok None) (λ _ _, Ok AssignedOwn) "work"
           (λ params, Ok (Some params))
           {| b_enabled := None; b_maxConcurrentRequests := given 1;
              b_maxQueueSize := given 2; b_queueTimeout := None |}
           initialEndpoint).
  reflexivity.
Defined.

(** The same run: the second waiter, whose queue timer fired, is passed
    over, and the third is admitted after the first. *)
Example bulkhead_run_admissions :
  let ops := [OpAcquire; OpAcquire; OpAcquire; OpAcquire; OpRelease; OpQueueTimeout 1;
              OpAcquire; OpRelease; OpRelease] in
  let ep :=
    endpointWith "work" (λ params, Ok (Some params))
      {| b_enabled := None; b_maxConcurrentRequests := given 1; b_maxQueueSize := given 2;
         b_queueTimeout := None |} in
  enqueueLog "work" ops ep = [0; 1; 2]%nat
  ∧ shiftLog "work" ops ep = [0; 1; 2]%nat
  ∧ admitLog "work" ops ep = [0; 2]%nat.
Proof. vm_compute. done. Qed.

(** The scenario of the specification: [maxConcurrent = 2], [maxQueue = 1]
    and four concurrent calls; two run, one queues and is admitted by the
    first release, one is refused. *)
Example bulkhead_four_calls :
  ∃ ep,
    addMethod (λ _ _, Ok None) (λ _ _, Ok AssignedOwn) "slow" (λ params, Ok (Some params))
      {| b_enabled := None; b_maxConcurrentRequests := given 2; b_maxQueueSize := given 1;
         b_queueTimeout := given 10000 |}
      initialEndpoint = (None, ep)
    ∧ let a1 := acquireMethodBulkheadPermit "slow" ep in
      let a2 := acquireMethodBulkheadPermit "slow" a1.2 in
      let a3 := acquireMethodBulkheadPermit "slow" a2.2 in
      let a4 := acquireMethodBulkheadPermit "slow" a3.2 in
      let released := releaseMethodBulkheadPermit "slow" a4.2 in
      a1.1 = Acquired ∧ a2.1 = Acquired ∧ a3.1 = Queued 0
      ∧ a4.1 = Refused (capacityError "slow")
      ∧ promises released !! 0%nat = Some Fulfilled
      ∧ waiting "slow" released = [].
Proof. eexists. split; [reflexivity|]. vm_compute. done. Qed.

Lemma promise_after_queueTimerFires methodName p ep :
  promises ep !! p = Some Pending → p ∈ queueTimers ep →
  promises (queueTimerFires methodName p ep) !! p
  = Some (Rejected (queueTimeoutError methodName)).
Proof.
  intros Hp Hin. unfold queueTimerFires.
  rewrite bool_decide_eq_true_2 by done. cbn [negb].
  set (ep2 := match bulkheadMethods _ !! methodName with Some _ => _ | None => _ end).
  assert (Hps : promises ep2 = promises ep).
  { subst ep2. simpl. destruct (bulkheadMethods ep !! methodName) as [ms|]; [|done].
    by destruct (findIndex _ _). }
  simpl. unfold settle. rewrite Hps, Hp.
  apply list_lookup_insert_eq. by eapply lookup_lt_Some.
Qed.

(** A waiter whose queue timer fired is still in the queue. *)
Lemma waiting_after_queueTimerFires methodName p ep :
  goodBulkhead methodName ep →
  waiting methodName (queueTimerFires methodName p ep) = waiting methodName ep.
Proof.
  intros Hgood. unfold waiting. by rewrite bulkheadMethods_queueTimerFires.
Qed.

Lemma queue_timeout_reply_reason :
  let handler : Handler := λ params, Ok (Some params) in
  let ep :=
    endpointWith "slow" handler
      {| b_enabled := None; b_maxConcurrentRequests := given 1; b_maxQueueSize := given 1;
         b_queueTimeout := given 50 |} in
  let a1 := acquireMethodBulkheadPermit "slow" ep in
  let a2 := acquireMethodBulkheadPermit "slow" a1.2 in
  let fired := queueTimerFires "slow" 0 a2.2 in
  let reply := fst <$> onPermitSettled "slow" 0 handler (JObj []) 0 50 fired in
  a1.1 = Acquired ∧ a2.1 = Queued 0
  ∧ promises fired !! 0%nat = Some (Rejected (queueTimeoutError "slow"))
  ∧ (statusCode <$> reply) = Some 503
  ∧ (bodyField "reason" <$> reply) = Some (Some (JStr "bulkhead_capacity_exceeded"))
  ∧ (bodyField "reason" <$> reply) ≠ Some (Some (JStr "queue_timeout")).
Proof. vm_compute. repeat split; discriminate. Qed.

(** The same run: the waiter whose timer fired stays at the head of the
    queue, and the next release hands it the permit, which nothing
    releases again. *)
Example queue_timeout_leaves_waiter_queued :
  let handler : Handler := λ params, Ok (Some params) in
  let ep :=
    endpointWith "slow" handler
      {| b_enabled := None; b_maxConcurrentRequests := given 1; b_maxQueueSize := given 1;
         b_queueTimeout := given 50 |} in
  let a1 := acquireMethodBulkheadPermit "slow" ep in
  let a2 := acquireMethodBulkheadPermit "slow" a1.2 in
  let fired := queueTimerFires "slow" 0 a2.2 in
  let released := releaseMethodBulkheadPermit "slow" fired in
  waiting "slow" fired = [0%nat]
  ∧ waiting "slow" released = []
  ∧ (activeRequests <$> bulkheadMethods released !! "slow") = Some 1
  ∧ promises released !! 0%nat = Some (Rejected (queueTimeoutError "slow")).
Proof. vm_compute. done. Qed.

(** C5, amended.  For an admission request on a method whose bulkhead is
    enabled and saturated: if the queue has room, the request is
    enqueued with its timer armed, and whenever that timer fires while
    the request still waits, its admission promise is rejected with
    "Method <name> bulkhead queue timeout" and the dispatcher answers
    503 with error METHOD_BULKHEAD_EXCEEDED and reason
    bulkhead_capacity_exceeded; if the queue is full,
    [rejectedRequests] and [bulkheadRejections] are incremented and the
    request fails at once with "Method <name> bulkhead capacity exceeded
    - request rejected", which the dispatcher answers with the same 503,
    METHOD_BULKHEAD_EXCEEDED and reason bulkhead_capacity_exceeded. *)
Theorem saturated_bulkhead_rejections (pathname : string) (ms : MethodState)
    (ep : Endpoint) (startTime now : Z) :
  bulkheadMethods ep !! pathname = Some ms →
  bulkheadEnabled (config ms) = true →
  belowLimit (activeRequests ms) (maxConcurrentRequests (config ms)) = false →
  let acquired := acquireMethodBulkheadPermit pathname ep in
  if belowLimit (Z.of_nat (length (queuedRequests ms))) (maxQueueSize (config ms)) then
    ∃ p,
      acquired.1 = Queued p
      ∧ promises acquired.2 !! p = Some Pending
      ∧ p ∈ queueTimers acquired.2
      ∧ ∀ (ep' : Endpoint) (method : Handler) (params : Json) (later : Z),
          promises ep' !! p = Some Pending → p ∈ queueTimers ep' →
          let fired := queueTimerFires pathname p ep' in
          promises fired !! p = Some (Rejected (queueTimeoutError pathname))
          ∧ ∃ reply ep'',
              onPermitSettled pathname p method params startTime later fired
              = Some (reply, ep'')
              ∧ statusCode reply = 503
              ∧ bodyField "error" reply = Some (JStr "METHOD_BULKHEAD_EXCEEDED")
              ∧ bodyField "reason" reply = Some (JStr "bulkhead_capacity_exceeded")
  else
    acquired.1 = Refused (capacityError pathname)
    ∧ (rejectedRequests <$> bulkheadMethods acquired.2 !! pathname)
      = Some (rejectedRequests ms + 1)
    ∧ bulkheadRejections (metrics acquired.2) = bulkheadRejections (metrics ep) + 1
    ∧ let reply := (onBulkheadError pathname startTime now acquired.2).1 in
      statusCode reply = 503
      ∧ bodyField "error" reply = Some (JStr "METHOD_BULKHEAD_EXCEEDED")
      ∧ bodyField "reason" reply = Some (JStr "bulkhead_capacity_exceeded").
Proof.
  intros Hms Hen Hsat acquired. subst acquired.
  unfold acquireMethodBulkheadPermit. rewrite Hms, Hen, Hsat. cbn [negb].
  destruct (belowLimit (Z.of_nat (length (queuedRequests ms))) (maxQueueSize (config ms))).
  - exists (length (promises ep)). simpl.
    split; [done|]. split; [by rewrite lookup_app_r, Nat.sub_diag|].
    split; [set_solver|].
    intros ep' method params later Hp Hin.
    pose proof (promise_after_queueTimerFires pathname _ ep' Hp Hin) as Hrej.
    split; [done|].
    unfold onPermitSettled. rewrite Hrej. by eexists _, _.
  - simpl. rewrite lookup_insert_eq. by repeat split.
Qed.

Lemma saturated_bulkhead_rejections_witness :
  let handler : Handler := λ params, Ok (Some params) in
  let ep :=
    (acquireMethodBulkheadPermit "slow"
       (endpointWith "slow" handler
          {| b_enabled := None; b_maxConcurrentRequests := given 1;
             b_maxQueueSize := given 1; b_queueTimeout := given 50 |})).2 in
  let ms := mkMethodState
              {| bulkheadEnabled := true; maxConcurrentRequests := Some (Finite 1);
                 maxQueueSize := Some (Finite 1); queueTimeout := Some (Finite 50) |}
              1 [] 0 in
  let acquired := acquireMethodBulkheadPermit "slow" ep in
  ∃ p,
    acquired.1 = Queued p
    ∧ promises acquired.2 !! p = Some Pending
    ∧ p ∈ queueTimers acquired.2
    ∧ ∀ (ep' : Endpoint) (method : Handler) (params : Json) (later : Z),
        promises ep' !! p = Some Pending → p ∈ queueTimers ep' →
        let fired := queueTimerFires "slow" p ep' in
        promises fired !! p = Some (Rejected (queueTimeoutError "slow"))
        ∧ ∃ reply ep'',
            onPermitSettled "slow" p method params 0 later fired = Some (reply, ep'')
            ∧ statusCode reply = 503
            ∧ bodyField "error" reply = Some (JStr "METHOD_BULKHEAD_EXCEEDED")
            ∧ bodyField "reason" reply = Some (JStr "bulkhead_capacity_exceeded").
Proof.
  apply (saturated_bulkhead_rejections "slow"
           (mkMethodState
              {| bulkheadEnabled := true; maxConcurrentRequests := Some (Finite 1);
                 maxQueueSize := Some (Finite 1); queueTimeout := Some (Finite 50) |}
              1 [] 0)
           (acquireMethodBulkheadPermit "slow"
              (endpointWith "slow" (λ params, Ok (Some params))
                 {| b_enabled := None; b_maxConcurrentRequests := given 1;
                    b_maxQueueSize := given 1; b_queueTimeout := given 50 |})).2
           0 0).
  - reflexivity.
  - reflexivity.
  - reflexivity.
Defined.

(** ** JWT validation *)

Lemma getProp_propOf v k : v ≠ JNull → getProp v k = Ok (propOf v k).
Proof. unfold propOf. by destruct v. Qed.

Lemma strictNe_claimIs v expected : strictNe v expected = negb (claimIs v expected).
Proof. by destruct v as [[| | |s| |]|]. Qed.

Lemma jwtCheckPasses_amended_format auth nowMs t :
  jwtCheckPasses_amended auth nowMs t FormatCheck
  = negb (String.eqb (segment t 0) "" || String.eqb (segment t 1) ""
          || String.eqb (segment t 2) "").
Proof.
  unfold segment. cbn [jwtCheckPasses_amended].
  destruct (segments t) as [|first [|second [|third rest]]]; simpl.
  - done.
  - by rewrite orb_true_r.
  - by rewrite orb_true_r.
  - by destruct (String.eqb first ""), (String.eqb second ""), (String.eqb third "").
Qed.

(** The claim fails on four kinds of token.  A token whose [exp] is 0,
    one whose [exp] is the current second and one with a fourth segment
    are accepted; a token with a wrong [alg] whose [exp] is beyond the
    range of [Date] is refused with the message of the RangeError and
    not for its algorithm. *)
Lemma validateJWT_departs_from_claimed_checks :
  let decode := λ s : string,
    if String.eqb s "h" then @Ok string Json (JObj [("alg", JStr "RS256")])
    else if String.eqb s "hs" then Ok (JObj [("alg", JStr "HS256")])
    else if String.eqb s "epoch" then Ok (JObj [("exp", JNum 0)])
    else if String.eqb s "far" then Ok (JObj [("exp", JNum 8640000000001)])
    else if String.eqb s "now" then Ok (JObj [("exp", JNum 1000)])
    else Ok (JObj [("exp", JNum 2000)]) in
  let verify := λ _ _ sig : string, @Ok string bool (String.eqb sig "s") in
  let coerce := λ _ : Json, @None Z in
  let auth := constructor_auth (Some true) (Some "KEY") None None [] in
  let validate := λ token, validateJWT decode verify coerce auth token 1000000 in
  let claimed := λ token header payload verified,
    jwtVerdict_spec auth 1000000
      {| segments := splitDot token; header := header; payload := payload;
         verified := verified |} in
  validate "h.epoch.s" = Valid (JObj [("exp", JNum 0)])
  ∧ claimed "h.epoch.s" (JObj [("alg", JStr "RS256")]) (JObj [("exp", JNum 0)]) true
    = Invalid "Token expired"
  ∧ validate "h.now.s" = Valid (JObj [("exp", JNum 1000)])
  ∧ claimed "h.now.s" (JObj [("alg", JStr "RS256")]) (JObj [("exp", JNum 1000)]) true
    = Invalid "Token expired"
  ∧ validate "h.p.s.more" = Valid (JObj [("exp", JNum 2000)])
  ∧ claimed "h.p.s.more" (JObj [("alg", JStr "RS256")]) (JObj [("exp", JNum 2000)]) true
    = Invalid "Invalid token format"
  ∧ validate "hs.far.s" = Invalid "Invalid time value"
  ∧ claimed "hs.far.s" (JObj [("alg", JStr "HS256")]) (JObj [("exp", JNum 8640000000001)])
      true
    = Invalid "Invalid algorithm".
Proof. vm_compute. done. Qed.

(** C7, amended.  With JWT authentication enabled and a public key
    configured, [#validateJWT] goes through the steps format, algorithm,
    signature, [exp], [nbf], [iss], [aud] in this order and returns the
    reason of the first step that fails, or acceptance with the decoded
    claims when all pass; the seven reasons are pairwise distinct.  The
    steps are the amended ones: the format step asks for three
    non-empty leading segments, and the [exp] and [nbf] steps pass 0
    and the current second.  This holds for a token whose first two
    segments decode to a header and a payload other than [null], whose
    [exp] and [nbf] are absent or numbers within the range of [Date],
    and whose signature check does not raise.  A token of three
    non-empty segments whose header or payload does not decode is
    refused with the message of the decoder, and one whose signature
    check raises with the message raised. *)
Theorem validateJWT_checks_in_order
    (decodeSegment : string → Res string Json)
    (rsaSha256Verify : string → string → string → Res string bool)
    (coerceNumber : Json → option Z)
    (auth : AuthSettings) (key token : string) (nowMs : Z) (t : TokenFacts) :
  jwtAuth auth = true →
  jwtPublicKey auth = Some key → key ≠ ""%string →
  segments t = splitDot token →
  let verdict := validateJWT decodeSegment rsaSha256Verify coerceNumber auth token nowMs in
  let decoded :=
    decodeSegment (segment t 0) = Ok (header t)
    ∧ decodeSegment (segment t 1) = Ok (payload t)
    ∧ header t ≠ JNull ∧ payload t ≠ JNull
    ∧ plainDate (propOf (payload t) "exp")
    ∧ plainDate (propOf (payload t) "nbf") in
  let signatureCheck :=
    rsaSha256Verify key (segment t 0 +:+ "." +:+ segment t 1) (segment t 2) in
  ((jwtCheckPasses_amended auth nowMs t FormatCheck = true →
      decoded
      ∧ (jwtCheckPasses_amended auth nowMs t AlgorithmCheck = true →
         signatureCheck = Ok (verified t))) →
   verdict = jwtVerdict_amended auth nowMs t)
  ∧ (jwtCheckPasses_amended auth nowMs t FormatCheck = true →
     ∀ reason, decodeSegment (segment t 0) = Throw reason → verdict = Invalid reason)
  ∧ (jwtCheckPasses_amended auth nowMs t FormatCheck = true →
     ∀ reason, is_Ok (decodeSegment (segment t 0)) →
               decodeSegment (segment t 1) = Throw reason → verdict = Invalid reason)
  ∧ (jwtCheckPasses_amended auth nowMs t FormatCheck = true → decoded →
     jwtCheckPasses_amended auth nowMs t AlgorithmCheck = true →
     ∀ reason, signatureCheck = Throw reason → verdict = Invalid reason)
  ∧ NoDup (jwtReason <$> jwtCheckOrder).
Proof.
  intros Hauth Hkey Hne Hsegments verdict decoded signatureCheck.
  assert (verdict
          = match validateJWT_try decodeSegment rsaSha256Verify coerceNumber auth key
                    token nowMs with
            | Ok claims => Valid claims
            | Throw reason => Invalid reason
            end) as ->.
  { subst verdict. unfold validateJWT. rewrite Hauth, Hkey. simpl isSet.
    by destruct (String.eqb_spec key ""). }
  unfold validateJWT_try. rewrite <- Hsegments.
  fold (segment t 0) (segment t 1) (segment t 2).
  rewrite !(jwtCheckPasses_amended_format auth nowMs t).
  assert (∀ v, plainDate v →
            (if truthy v then toISOString coerceNumber (default JNull v) else Ok ())
            = Ok ()) as Hdate.
  { intros [[| |seconds| | |]|]; simpl; try done. intros Hrange.
    destruct (seconds =? 0); simpl; [done|]. unfold toISOString. simpl.
    destruct (Z.leb_spec (Z.abs (seconds * 1000)) 8640000000000000); [done|lia]. }
  subst decoded signatureCheck.
  split; [|split; [|split; [|split]]].
  5:{ apply (bool_decide_unpack _). by vm_compute. }
  2:{ intros Hformat reason Hthrows. apply negb_true_iff in Hformat.
      by rewrite Hformat, Hthrows. }
  2:{ intros Hformat reason [decodedHeader Hheader] Hthrows.
      apply negb_true_iff in Hformat.
      by rewrite Hformat, Hheader, Hthrows. }
  2:{ intros Hformat (Hdh & Hdp & Hnh & Hnp & Hexp & Hnbf) Halg reason Hthrows.
      apply negb_true_iff in Hformat. rewrite Hformat, Hdh, Hdp. cbn [bindRes].
      rewrite !(getProp_propOf (header t)), !(getProp_propOf (payload t)) by done.
      cbn [bindRes]. rewrite (Hdate _ Hexp), (Hdate _ Hnbf). cbn [bindRes].
      unfold DEFAULTS.JWT_ALGORITHM. rewrite strictNe_claimIs.
      change (jwtCheckPasses_amended auth nowMs t AlgorithmCheck)
        with (claimIs (propOf (header t) "alg") "RS256") in Halg.
      rewrite Halg. cbn [negb]. unfold id. by rewrite Hthrows. }
  intros Hdecode.
  unfold jwtVerdict_amended, jwtCheckOrder. cbn [find].
  rewrite (jwtCheckPasses_amended_format auth nowMs t).
  destruct (String.eqb (segment t 0) ""
            || String.eqb (segment t 1) "" || String.eqb (segment t 2) ""); [done|].
  cbn [negb]. destruct (Hdecode eq_refl) as ((Hdh & Hdp & Hnh & Hnp & Hexp & Hnbf) & Hver).
  rewrite Hdh, Hdp. cbn [bindRes].
  rewrite !(getProp_propOf (header t)), !(getProp_propOf (payload t)) by done.
  cbn [bindRes].
  rewrite (Hdate _ Hexp), (Hdate _ Hnbf). cbn [bindRes].
  unfold DEFAULTS.JWT_ALGORITHM. rewrite strictNe_claimIs.
  change (jwtCheckPasses_amended auth nowMs t AlgorithmCheck)
    with (claimIs (propOf (header t) "alg") "RS256") in *.
  destruct (claimIs (propOf (header t) "alg") "RS256"); cbn [negb]; [|done].
  unfold id. rewrite (Hver eq_refl). cbn [bindRes].
  change (jwtCheckPasses_amended auth nowMs t SignatureCheck) with (verified t).
  destruct (verified t); cbn [negb]; [|done].
  assert (truthy (propOf (payload t) "exp")
          && jsLt coerceNumber (propOf (payload t) "exp") (nowMs `div` 1000)
          = negb (jwtCheckPasses_amended auth nowMs t ExpirationCheck)) as ->.
  { cbn [jwtCheckPasses_amended].
    destruct (propOf (payload t) "exp") as [[| |exp| | |]|]; simpl in *; try done.
    destruct (Z.eqb_spec exp 0); simpl; [done|].
    destruct (Z.ltb_spec exp (nowMs `div` 1000)), (Z.leb_spec (nowMs `div` 1000) exp);
      simpl; done || lia. }
  destruct (jwtCheckPasses_amended auth nowMs t ExpirationCheck); cbn [negb]; [|done].
  assert (truthy (propOf (payload t) "nbf")
          && jsGt coerceNumber (propOf (payload t) "nbf") (nowMs `div` 1000)
          = negb (jwtCheckPasses_amended auth nowMs t NotBeforeCheck)) as ->.
  { cbn [jwtCheckPasses_amended].
    destruct (propOf (payload t) "nbf") as [[| |nbf| | |]|]; simpl in *; try done.
    destruct (Z.eqb_spec nbf 0); simpl; [done|].
    destruct (Z.ltb_spec (nowMs `div` 1000) nbf), (Z.leb_spec nbf (nowMs `div` 1000));
      simpl; done || lia. }
  destruct (jwtCheckPasses_amended auth nowMs t NotBeforeCheck); cbn [negb]; [|done].
  assert (∀ value claim,
            isSet value && strictNe claim (default ""%string value)
            = negb match configured value with
                   | Some expected => claimIs claim expected
                   | None => true
                   end) as Hconfigured.
  { intros [[|c s]|] claim; simpl; try done. by rewrite strictNe_claimIs. }
  rewrite !Hconfigured.
  change (jwtCheckPasses_amended auth nowMs t IssuerCheck)
    with (match configured (jwtIssuer auth) with
          | Some issuer => claimIs (propOf (payload t) "iss") issuer
          | None => true
          end).
  destruct (match configured (jwtIssuer auth) with Some _ => _ | None => _ end);
    cbn [negb]; [|done].
  change (jwtCheckPasses_amended auth nowMs t AudienceCheck)
    with (match configured (jwtAudience auth) with
          | Some audience => claimIs (propOf (payload t) "aud") audience
          | None => true
          end).
  by destruct (match configured (jwtAudience auth) with Some _ => _ | None => _ end).
Qed.

Lemma validateJWT_checks_in_order_witness :
  let headerJson := JObj [("alg", JStr "RS256"); ("typ", JStr "JWT")] in
  let payloadJson :=
    JObj [("iss", JStr "auth.example"); ("aud", JStr "rpc"); ("exp", JNum 2000);
          ("nbf", JNum 500)] in
  let decode := λ s : string,
    if String.eqb s "aGVhZGVy" then @Ok string Json headerJson else Ok payloadJson in
  let verify := λ _ _ sig : string, @Ok string bool (String.eqb sig "c2ln") in
  let coerce := λ _ : Json, @None Z in
  let auth :=
    constructor_auth (Some true) (Some "PUBLIC KEY") (Some "auth.example") (Some "rpc") [] in
  let t :=
    {| segments := ["aGVhZGVy"; "cGF5bG9hZA"; "c2ln"];
       header := headerJson; payload := payloadJson; verified := true |} in
  validateJWT decode verify coerce auth "aGVhZGVy.cGF5bG9hZA.c2ln" 1000000
  = jwtVerdict_amended auth 1000000 t.
Proof.
  refine (proj1
            (validateJWT_checks_in_order
               (λ s : string,
                  if String.eqb s "aGVhZGVy"
                  then @Ok string Json (JObj [("alg", JStr "RS256"); ("typ", JStr "JWT")])
                  else Ok (JObj [("iss", JStr "auth.example"); ("aud", JStr "rpc");
                                 ("exp", JNum 2000); ("nbf", JNum 500)]))
               (λ _ _ sig : string, @Ok string bool (String.eqb sig "c2ln"))
               (λ _ : Json, @None Z)
               (constructor_auth (Some true) (Some "PUBLIC KEY") (Some "auth.example")
                  (Some "rpc") [])
               "PUBLIC KEY" "aGVhZGVy.cGF5bG9hZA.c2ln" 1000000
               {| segments := ["aGVhZGVy"; "cGF5bG9hZA"; "c2ln"];
                  header := JObj [("alg", JStr "RS256"); ("typ", JStr "JWT")];
                  payload := JObj [("iss", JStr "auth.example"); ("aud", JStr "rpc");
                                   ("exp", JNum 2000); ("nbf", JNum 500)];
                  verified := true |}
               _ _ _ _) _).
  - reflexivity.
  - reflexivity.
  - discriminate.
  - reflexivity.
  - intros _. repeat split; try reflexivity; try discriminate; simpl; lia.
Defined.

(** Verdicts of [#validateJWT] on tokens that differ from an accepted
    one in a single respect. *)
Example validateJWT_verdicts :
  let decode := λ s : string,
    if String.eqb s "h" then @Ok string Json (JObj [("alg", JStr "RS256")])
    else if String.eqb s "hs" then Ok (JObj [("alg", JStr "HS256")])
    else if String.eqb s "old" then Ok (JObj [("iss", JStr "auth"); ("exp", JNum 999)])
    else if String.eqb s "early" then Ok (JObj [("iss", JStr "auth"); ("nbf", JNum 1001)])
    else if String.eqb s "other" then Ok (JObj [("iss", JStr "elsewhere")])
    else if String.eqb s "epoch" then Ok (JObj [("iss", JStr "auth"); ("exp", JNum 0)])
    else if String.eqb s "p" then Ok (JObj [("iss", JStr "auth"); ("exp", JNum 1000)])
    else Throw "Unexpected token" in
  let verify := λ _ _ sig : string, @Ok string bool (String.eqb sig "s") in
  let coerce := λ _ : Json, @None Z in
  let auth := constructor_auth (Some true) (Some "KEY") (Some "auth") None [] in
  let validate := λ token, validateJWT decode verify coerce auth token 1000000 in
  validate "h.p.s" = Valid (JObj [("iss", JStr "auth"); ("exp", JNum 1000)])
  ∧ validate "h.p" = Invalid "Invalid token format"
  ∧ validate "h..s" = Invalid "Invalid token format"
  ∧ validate "hs.old.x" = Invalid "Invalid algorithm"
  ∧ validate "h.old.x" = Invalid "Invalid signature"
  ∧ validate "h.old.s" = Invalid "Token expired"
  ∧ validate "h.early.s" = Invalid "Token not yet valid"
  ∧ validate "h.other.s" = Invalid "Invalid issuer"
  ∧ validate "h.p.s.extra" = Valid (JObj [("iss", JStr "auth"); ("exp", JNum 1000)])
  ∧ validate "h.epoch.s" = Valid (JObj [("iss", JStr "auth"); ("exp", JNum 0)])
  ∧ validate "h.junk.s" = Invalid "Unexpected token".
Proof. vm_compute. done. Qed.

(** ** Authentication without a public key *)




(** * Further properties *)

(** ** Circuit breaker registry *)

Lemma circuitOf_set_metrics serviceUrl m ep :
  circuitOf serviceUrl (set_metrics m ep) = circuitOf serviceUrl ep.
Proof. done. Qed.

Lemma circuitOf_checkCircuitBreaker res serviceUrl now ep :
  circuitOf serviceUrl (checkCircuitBreaker res serviceUrl now ep).2
  = let c := circuitOf serviceUrl ep in
    if circuitBreakerEnabled (circuitBreaker res) then
      match state c with
      | OPEN =>
          if nextAttemptTime c <=? now then
            mkCircuit HALF_OPEN (failureCount c) 0 (lastFailureTime c) (nextAttemptTime c)
          else c
      | _ => c
      end
    else c.
Proof.
  unfold checkCircuitBreaker, getCircuitBreakerState, circuitOf.
  destruct (circuitBreakerEnabled (circuitBreaker res)); simpl; [|done].
  destruct (circuitBreakers ep !! serviceUrl) as [c|] eqn:Hc; simpl.
  - destruct (state c); simpl; rewrite ?Hc; try done.
    destruct (nextAttemptTime c <=? now); simpl; [|by rewrite Hc].
    by rewrite lookup_insert_eq.
  - by rewrite lookup_insert_eq.
Qed.

Lemma circuitOf_checkCircuitBreaker_ne res url url' now ep :
  url ≠ url' →
  circuitOf url' (checkCircuitBreaker res url now ep).2 = circuitOf url' ep.
Proof.
  intros Hne. unfold checkCircuitBreaker, getCircuitBreakerState, circuitOf.
  destruct (circuitBreakerEnabled (circuitBreaker res)); simpl; [|done].
  destruct (circuitBreakers ep !! url) as [c|]; simpl.
  - destruct (state c); simpl; try done.
    destruct (nextAttemptTime c <=? now); simpl; [|done].
    by rewrite lookup_insert_ne.
  - by rewrite lookup_insert_ne.
Qed.

Lemma metrics_checkCircuitBreaker res serviceUrl now ep :
  metrics (checkCircuitBreaker res serviceUrl now ep).2 = metrics ep.
Proof.
  unfold checkCircuitBreaker, getCircuitBreakerState.
  destruct (circuitBreakerEnabled (circuitBreaker res)); simpl; [|done].
  destruct (circuitBreakers ep !! serviceUrl) as [c|]; simpl.
  - destruct (state c); simpl; try done.
    by destruct (nextAttemptTime c <=? now).
  - done.
Qed.

Lemma circuitOf_updateCircuitBreakerOnSuccess_ne res url url' ep :
  url ≠ url' →
  circuitOf url' (updateCircuitBreakerOnSuccess res url ep) = circuitOf url' ep.
Proof.
  intros Hne. unfold updateCircuitBreakerOnSuccess, getCircuitBreakerState, circuitOf.
  destruct (circuitBreakers ep !! url) as [c|]; simpl; by rewrite !lookup_insert_ne.
Qed.

Lemma metrics_updateCircuitBreakerOnSuccess res serviceUrl ep :
  metrics (updateCircuitBreakerOnSuccess res serviceUrl ep) = metrics ep.
Proof.
  unfold updateCircuitBreakerOnSuccess, getCircuitBreakerState.
  by destruct (circuitBreakers ep !! serviceUrl).
Qed.

Lemma circuitOf_resetCircuitBreaker serviceUrl ep :
  circuitOf serviceUrl (resetCircuitBreaker serviceUrl ep) = initialCircuit.
Proof.
  unfold resetCircuitBreaker, circuitOf.
  destruct (circuitBreakers ep !! serviceUrl) as [c|] eqn:Hc; simpl.
  - by rewrite lookup_insert_eq.
  - by rewrite Hc.
Qed.

Lemma circuitOf_resetCircuitBreaker_ne url url' ep :
  url ≠ url' → circuitOf url' (resetCircuitBreaker url ep) = circuitOf url' ep.
Proof.
  intros Hne. unfold resetCircuitBreaker, circuitOf.
  destruct (circuitBreakers ep !! url); simpl; [|done]. by rewrite lookup_insert_ne.
Qed.

Lemma circuitOf_circuitEventStep_ne res url url' ev ep :
  url ≠ url' → circuitOf url' (circuitEventStep res url ev ep) = circuitOf url' ep.
Proof.
  intros Hne. destruct ev; simpl.
  - by apply circuitOf_checkCircuitBreaker_ne.
  - by apply circuitOf_updateCircuitBreakerOnSuccess_ne.
  - by apply circuitOf_updateCircuitBreakerOnFailure_ne.
  - by apply circuitOf_resetCircuitBreaker_ne.
Qed.

(** X1.  [resetCircuitBreaker] puts the entry of the target back to
    CLOSED with every counter and time 0, whatever state it was in, so
    that the next gate check lets the call pass at any time; it creates
    no entry for a target that has none, leaves the entries of all other
    targets alone, and does not touch the metrics: [circuitBreakerTrips]
    keeps counting across resets. *)
Theorem resetCircuitBreaker_restores_closed (res : Resilience) (serviceUrl : string)
    (now : Z) (ep : Endpoint) :
  let ep' := resetCircuitBreaker serviceUrl ep in
  circuitOf serviceUrl ep' = initialCircuit
  ∧ allowed (checkCircuitBreaker res serviceUrl now ep').1 = true
  ∧ metrics ep' = metrics ep
  ∧ (circuitBreakers ep !! serviceUrl = None → ep' = ep)
  ∧ ∀ url', serviceUrl ≠ url' → circuitOf url' ep' = circuitOf url' ep.
Proof.
  intros ep'. split; [apply circuitOf_resetCircuitBreaker|].
  split.
  { pose proof (circuitOf_resetCircuitBreaker serviceUrl ep) as Hc. fold ep' in Hc.
    unfold checkCircuitBreaker.
    destruct (circuitBreakerEnabled (circuitBreaker res)); [|done]. cbn [negb].
    rewrite (surjective_pairing (getCircuitBreakerState serviceUrl ep')).
    rewrite circuitOf_getCircuitBreakerState, Hc. done. }
  split.
  { subst ep'. unfold resetCircuitBreaker. by destruct (circuitBreakers ep !! serviceUrl). }
  split.
  { intros Hnone. subst ep'. unfold resetCircuitBreaker. by rewrite Hnone. }
  intros url' Hne. by apply circuitOf_resetCircuitBreaker_ne.
Qed.

Lemma circuitOf_retryLoop_ne JSON_parse res retryConfig url url' env remaining :
  url ≠ url' →
  ∀ attempt lastError ep done,
    circuitOf url' (endpoint (retryLoop JSON_parse res retryConfig url env remaining
                                attempt lastError ep done))
    = circuitOf url' ep.
Proof.
  intros Hne. induction remaining as [|remaining IH]; intros attempt lastError ep done.
  - simpl. by destruct lastError.
  - cbn [retryLoop].
    destruct attempt as [|previous];
      destruct (awaitAttempt _ _ _ _) as [[[result|error]|] m2];
      cbn [endpoint]; try done;
      try (by rewrite circuitOf_updateCircuitBreakerOnSuccess_ne);
      (destruct (_ =? _); cbn [endpoint];
       [by rewrite circuitOf_updateCircuitBreakerOnFailure_ne|];
       destruct (negb _); cbn [endpoint];
       [by rewrite circuitOf_updateCircuitBreakerOnFailure_ne|];
       by rewrite IH, circuitOf_updateCircuitBreakerOnFailure_ne).
Qed.

(** X2.  The breakers of different targets are independent: a gate
    check, an attempt's success or failure update, a manual reset, and a
    whole call of [request] against one service URL leave the breaker
    entry of every other service URL exactly as it was. *)
Theorem breakers_are_per_target
    (JSON_parse : string → Res string Json) (isValidUrl : string → bool)
    (res : Resilience) (url url' : string) (ep : Endpoint) :
  url ≠ url' →
  (∀ ev, circuitOf url' (circuitEventStep res url ev ep) = circuitOf url' ep)
  ∧ ∀ methodName params options now env,
      circuitOf url'
        (endpoint (request JSON_parse isValidUrl res url methodName params options now env ep))
      = circuitOf url' ep.
Proof.
  intros Hne. split; [intros ev; by apply circuitOf_circuitEventStep_ne|].
  intros methodName params options now env. unfold request.
  repeat (destruct (negb _); [done|]).
  destruct (checkCircuitBreaker res url now ep) as [chk ep1] eqn:Hchk.
  assert (Hep1 : circuitOf url' ep1 = circuitOf url' ep).
  { change ep1 with (chk, ep1).2. rewrite <- Hchk.
    by apply circuitOf_checkCircuitBreaker_ne. }
  destruct (negb (allowed chk)); cbn [endpoint]; [done|].
  by rewrite circuitOf_retryLoop_ne.
Qed.

Lemma breakers_are_per_target_witness :
  let res := constructor_resilience noResilienceOptions noRetryOptions in
  let ep := failedAttempts res "http://b:2" [(1, 1); (2, 2)] initialEndpoint in
  (∀ ev, circuitOf "http://b:2" (circuitEventStep res "http://a:1" ev ep)
         = circuitOf "http://b:2" ep)
  ∧ ∀ methodName params options now env,
      circuitOf "http://b:2"
        (endpoint (request (λ _, Throw ""%string) (λ _, true) res "http://a:1" methodName
                     params options now env ep))
      = circuitOf "http://b:2" ep.
Proof.
  apply (breakers_are_per_target (λ _, Throw ""%string) (λ _, true)
           (constructor_resilience noResilienceOptions noRetryOptions)
           "http://a:1" "http://b:2"
           (failedAttempts (constructor_resilience noResilienceOptions noRetryOptions)
              "http://b:2" [(1, 1); (2, 2)] initialEndpoint)).
  discriminate.
Defined.

Lemma circuitInRange_step res serviceUrl ev ep :
  1 ≤ failureThreshold (circuitBreaker res) →
  1 ≤ successThreshold (circuitBreaker res) →
  circuitInRange (circuitBreaker res) (circuitOf serviceUrl ep) →
  circuitInRange (circuitBreaker res)
    (circuitOf serviceUrl (circuitEventStep res serviceUrl ev ep)).
Proof.
  intros Hf Hs [Hfc Hst]. destruct ev as [now| |now1 now2|]; simpl.
  - rewrite circuitOf_checkCircuitBreaker. cbn zeta.
    destruct (circuitBreakerEnabled (circuitBreaker res)); [|done].
    destruct (state (circuitOf serviceUrl ep)) eqn:Hstate; try (split; [done|by rewrite Hstate]).
    destruct (nextAttemptTime (circuitOf serviceUrl ep) <=? now);
      [|split; [done|by rewrite Hstate]].
    split; simpl; [done|lia].
  - rewrite circuitOf_updateCircuitBreakerOnSuccess. unfold circuitOnSuccess.
    destruct (state (circuitOf serviceUrl ep)) eqn:Hstate.
    + split; simpl; [lia|]. split; [lia|tauto].
    + split; [done|]. by rewrite Hstate.
    + destruct (Z.leb_spec (successThreshold (circuitBreaker res))
                  (successCount (circuitOf serviceUrl ep) + 1));
        split; simpl; lia.
  - rewrite circuitOf_updateCircuitBreakerOnFailure. unfold circuitOnFailure.
    destruct (state (circuitOf serviceUrl ep)) eqn:Hstate; simpl.
    + destruct (Z.leb_spec (failureThreshold (circuitBreaker res))
                  (failureCount (circuitOf serviceUrl ep) + 1));
        split; simpl; lia.
    + split; simpl; [lia|done].
    + split; simpl; [lia|done].
  - rewrite circuitOf_resetCircuitBreaker. split; simpl; [done|]. split; [lia|done].
Qed.

(** X3.  With thresholds of at least 1, every sequence of gate checks,
    success and failure updates and manual resets keeps the counters of a
    breaker entry in the range of its state: [failureCount] is never
    negative; a CLOSED entry has fewer than [failureThreshold] counted
    failures and [successCount] 0; an OPEN entry has [successCount] 0;
    a HALF_OPEN entry has counted fewer than [successThreshold]
    successes.  It holds of a fresh entry. *)
Theorem breaker_counters_stay_in_range (res : Resilience) (serviceUrl : string)
    (evs : list CircuitEvent) (ep : Endpoint) :
  1 ≤ failureThreshold (circuitBreaker res) →
  1 ≤ successThreshold (circuitBreaker res) →
  circuitInRange (circuitBreaker res) (circuitOf serviceUrl ep) →
  circuitInRange (circuitBreaker res) initialCircuit
  ∧ circuitInRange (circuitBreaker res)
      (circuitOf serviceUrl (foldl (λ ep ev, circuitEventStep res serviceUrl ev ep) ep evs)).
Proof.
  intros Hf Hs Hin. split; [split; simpl; [done|]; split; [lia|done]|].
  revert ep Hin. induction evs as [|ev evs IH]; intros ep Hin; simpl; [done|].
  apply IH. by apply circuitInRange_step.
Qed.

Lemma breaker_counters_stay_in_range_witness :
  let res := constructor_resilience noResilienceOptions noRetryOptions in
  let evs := [AttemptFailed 1 1; AttemptFailed 2 2; AttemptSucceeded; AttemptFailed 3 3;
              AttemptFailed 4 4; AttemptFailed 5 5; AttemptFailed 6 6; AttemptFailed 7 7;
              GateCheck 8; GateCheck 20000; AttemptSucceeded; ManualReset] in
  circuitInRange (circuitBreaker res) initialCircuit
  ∧ circuitInRange (circuitBreaker res)
      (circuitOf "http://a:1"
         (foldl (λ ep ev, circuitEventStep res "http://a:1" ev ep) initialEndpoint evs)).
Proof.
  apply (breaker_counters_stay_in_range
           (constructor_resilience noResilienceOptions noRetryOptions) "http://a:1"
           [AttemptFailed 1 1; AttemptFailed 2 2; AttemptSucceeded; AttemptFailed 3 3;
            AttemptFailed 4 4; AttemptFailed 5 5; AttemptFailed 6 6; AttemptFailed 7 7;
            GateCheck 8; GateCheck 20000; AttemptSucceeded; ManualReset]
           initialEndpoint).
  - vm_compute; discriminate.
  - vm_compute; discriminate.
  - vm_compute. repeat split; discriminate.
Defined.

(** X4.  While a breaker is OPEN, the success and failure updates of
    attempts that are still under way change neither its state nor its
    [nextAttemptTime]: failures during the open period do not extend it,
    and only a gate check or a manual reset takes the breaker out of
    OPEN. *)
Theorem open_breaker_ignores_attempt_updates (res : Resilience) (serviceUrl : string)
    (evs : list CircuitEvent) (ep : Endpoint) :
  state (circuitOf serviceUrl ep) = OPEN →
  forallb isAttemptUpdate evs = true →
  let ep' := foldl (λ ep ev, circuitEventStep res serviceUrl ev ep) ep evs in
  state (circuitOf serviceUrl ep') = OPEN
  ∧ nextAttemptTime (circuitOf serviceUrl ep') = nextAttemptTime (circuitOf serviceUrl ep)
  ∧ circuitBreakerTrips (metrics ep') = circuitBreakerTrips (metrics ep).
Proof.
  revert ep. induction evs as [|ev evs IH]; intros ep Hopen Hall; simpl in *; [done|].
  apply andb_true_iff in Hall as [Hev Hall].
  destruct (open_persists res serviceUrl 0 0 ep Hopen) as [_ Hsucc].
  destruct ev as [| |now1 now2|]; try discriminate; simpl.
  - destruct (IH (updateCircuitBreakerOnSuccess res serviceUrl ep)) as (H1 & H2 & H3);
      [by rewrite Hsucc|done|].
    rewrite H1, H2, H3, Hsucc, metrics_updateCircuitBreakerOnSuccess. done.
  - destruct (open_persists res serviceUrl now1 now2 ep Hopen) as [[Hf1 Hf2] _].
    destruct (IH (updateCircuitBreakerOnFailure res serviceUrl now1 now2 ep))
      as (H1 & H2 & H3); [done|done|].
    rewrite H1, H2, H3, Hf2, metrics_updateCircuitBreakerOnFailure.
    unfold circuitOnFailure. by rewrite Hopen.
Qed.

Lemma open_breaker_ignores_attempt_updates_witness :
  let res := constructor_resilience noResilienceOptions noRetryOptions in
  let url := "http://a:1"%string in
  let ep := set_circuitBreakers {[ url := mkCircuit OPEN 5 0 100 10100 ]} initialEndpoint in
  let evs := [AttemptFailed 200 200; AttemptSucceeded; AttemptFailed 300 301] in
  let ep' := foldl (λ ep ev, circuitEventStep res url ev ep) ep evs in
  state (circuitOf url ep') = OPEN
  ∧ nextAttemptTime (circuitOf url ep') = nextAttemptTime (circuitOf url ep)
  ∧ circuitBreakerTrips (metrics ep') = circuitBreakerTrips (metrics ep).
Proof.
  apply (open_breaker_ignores_attempt_updates
           (constructor_resilience noResilienceOptions noRetryOptions) "http://a:1"
           [AttemptFailed 200 200; AttemptSucceeded; AttemptFailed 300 301]
           (set_circuitBreakers {[ "http://a:1"%string := mkCircuit OPEN 5 0 100 10100 ]}
              initialEndpoint));
    reflexivity.
Defined.

(** ** One outbound attempt *)

Lemma append_assoc_string (a b c : string) : (a +:+ b) +:+ c = a +:+ (b +:+ c).
Proof.
  induction a as [|x a IH]; [done|].
  change (String x ((a +:+ b) +:+ c) = String x (a +:+ (b +:+ c))). by rewrite IH.
Qed.

Lemma append_empty_r (a : string) : a +:+ "" = a.
Proof.
  induction a as [|x a IH]; [done|].
  change (String x (a +:+ "") = String x a). by rewrite IH.
Qed.

Lemma length_append_string (a b : string) :
  String.length (a +:+ b) = (String.length a + String.length b)%nat.
Proof.
  induction a as [|x a IH]; [done|].
  change (S (String.length (a +:+ b)) = S (String.length a + String.length b)).
  by rewrite IH.
Qed.

Lemma runAttempt_chunks JSON_parse res chunks : ∀ a m,
  connected a = true →
  runAttempt JSON_parse res a (map RequestData chunks ++ [RequestEnd]) m
  = (Some (decodeResponse JSON_parse (data a +:+ concatChunks chunks)), m).
Proof.
  induction chunks as [|chunk chunks IH]; intros a m Hconn; simpl.
  - by rewrite Hconn, append_empty_r.
  - rewrite Hconn. rewrite IH by done. cbn [data].
    unfold concatChunks. cbn [foldr]. by rewrite append_assoc_string.
Qed.

(** X6.  The response body is what the chunks add up to: after the
    session connects, any number of ['data'] chunks followed by ['end']
    settles the attempt with the decoding of their concatenation, in the
    order received, and touches no counter. *)
Theorem attempt_decodes_concatenated_chunks
    (JSON_parse : string → Res string Json) (res : Resilience)
    (chunks : list string) (m : Metrics) :
  runAttempt JSON_parse res (startAttempt res)
    (ClientConnect :: map RequestData chunks ++ [RequestEnd]) m
  = (Some (decodeResponse JSON_parse (concatChunks chunks)), m).
Proof. simpl. by rewrite runAttempt_chunks. Qed.

Lemma runAttempt_metrics JSON_parse res evs : ∀ a m,
  (runAttempt JSON_parse res a evs m).2 = m
  ∨ (runAttempt JSON_parse res a evs m
     = (Some (Throw (requestTimeoutError res)), incr_timeoutCount m)
     ∧ wrapperTimer a = true).
Proof.
  induction evs as [|ev evs IH]; intros a m; simpl; [by left|].
  destruct ev; simpl;
    repeat match goal with
           | |- context [if ?b then _ else _] => destruct b eqn:?; simpl
           end;
    try (by left); try (by right);
    match goal with
    | |- (runAttempt _ _ ?x _ _).2 = _ ∨ _ =>
        destruct (IH x m) as [?|[? ?]];
        [by left|right; split; [done|simpl in *; congruence]]
    end.
Qed.

(** X7.  An attempt changes the metrics in one way only: when the timer
    of the timeout wrapper ends it, [timeoutCount] grows by one and the
    attempt fails with the request-timeout error; in every other case,
    whether the attempt succeeds, fails, or stays pending, all counters
    are as before. *)
Theorem attempt_counts_only_wrapper_timeouts
    (JSON_parse : string → Res string Json) (res : Resilience) (env : AttemptEnv)
    (m : Metrics) :
  (awaitAttempt JSON_parse res env m).2 = m
  ∨ (awaitAttempt JSON_parse res env m
     = (Some (Throw (requestTimeoutError res)), incr_timeoutCount m)
     ∧ timeoutEnabled (timeout res) = true).
Proof.
  unfold awaitAttempt. destruct (connectThrows env); [by left|].
  apply (runAttempt_metrics JSON_parse res (events env) (startAttempt res) m).
Qed.

(** ** The retry loop as a whole *)

Lemma attemptsIn_snoc_slept l d : attemptsIn (l ++ [Slept d]) = attemptsIn l.
Proof. by rewrite attemptsIn_app, app_nil_r. Qed.

Lemma attemptsIn_snoc_attempted l a : attemptsIn (l ++ [Attempted a]) = attemptsIn l ++ [a].
Proof. by rewrite attemptsIn_app. Qed.

Lemma sleepsIn_app l1 l2 : sleepsIn (l1 ++ l2) = sleepsIn l1 ++ sleepsIn l2.
Proof. unfold sleepsIn. apply omap_app. Qed.

Lemma awaitAttempt_metrics JSON_parse res env m :
  (awaitAttempt JSON_parse res env m).2 = m
  ∨ (awaitAttempt JSON_parse res env m).2 = incr_timeoutCount m.
Proof.
  unfold awaitAttempt. destruct (connectThrows env); [by left|].
  destruct (runAttempt_metrics JSON_parse res (events env) (startAttempt res) m)
    as [?|[-> _]]; [by left|by right].
Qed.

Lemma retryCount_awaitAttempt JSON_parse res env m :
  retryCount (awaitAttempt JSON_parse res env m).2 = retryCount m.
Proof. destruct (awaitAttempt_metrics JSON_parse res env m) as [->| ->]; done. Qed.

Lemma retryCount_updateCircuitBreakerOnFailure res serviceUrl now1 now2 ep :
  retryCount (metrics (updateCircuitBreakerOnFailure res serviceUrl now1 now2 ep))
  = retryCount (metrics ep).
Proof.
  rewrite metrics_updateCircuitBreakerOnFailure. by destruct (circuitOnFailure _ _ _ _).2.
Qed.

(** The attempts of the loop are numbered on from where it starts, there
    are no more of them than iterations left, one sleep precedes every
    attempt but attempt 0, and [retryCount] counts the sleeps. *)
Lemma retryLoop_accounting JSON_parse res retryConfig serviceUrl env remaining :
  ∀ attempt lastError ep done,
  let r := retryLoop JSON_parse res retryConfig serviceUrl env remaining attempt
             lastError ep done in
  ∃ (n : nat) (slept : list Q),
    (n ≤ remaining)%nat
    ∧ attemptsIn (effects r) = attemptsIn done ++ seq attempt n
    ∧ sleepsIn (effects r) = sleepsIn done ++ slept
    ∧ length slept = match attempt with O => pred n | S _ => n end
    ∧ retryCount (metrics (endpoint r))
      = retryCount (metrics ep) + Z.of_nat (length slept).
Proof.
  induction remaining as [|remaining IH]; intros attempt lastError ep done r; subst r.
  { exists 0%nat, []. simpl. rewrite !app_nil_r.
    destruct lastError; destruct attempt; simpl; repeat split; lia. }
  cbn [retryLoop].
  destruct attempt as [|previous].
  - pose proof (retryCount_awaitAttempt JSON_parse res (env 0%nat) (metrics ep)) as Hrc.
    destruct (awaitAttempt JSON_parse res (env 0%nat) (metrics ep))
      as [[[result|error]|] m2]; simpl in Hrc.
    + exists 1%nat, []. cbn [effects endpoint].
      rewrite metrics_updateCircuitBreakerOnSuccess, attemptsIn_snoc_attempted,
        sleepsIn_app, !app_nil_r. simpl. repeat split; lia.
    + destruct (Z.of_nat 0 =? maxRetries retryConfig);
        [|destruct (negb (shouldRetry error (retryOn retryConfig)))].
      1,2: exists 1%nat, []; cbn [effects endpoint];
        rewrite retryCount_updateCircuitBreakerOnFailure, attemptsIn_snoc_attempted,
          sleepsIn_app, !app_nil_r; simpl; repeat split; lia.
      edestruct (IH 1%nat (Some error)) as (n & slept & Hn & Ha & Hs & Hl & Hr).
      exists (S n), slept. rewrite Ha, Hs, Hr.
      rewrite retryCount_updateCircuitBreakerOnFailure, attemptsIn_snoc_attempted,
        sleepsIn_app, app_nil_r, <- app_assoc. simpl. repeat split; lia.
    + exists 1%nat, []. cbn [effects endpoint].
      rewrite attemptsIn_snoc_attempted, sleepsIn_app, !app_nil_r. simpl.
      repeat split; lia.
  - set (ep1 := set_metrics (incr_retryCount (metrics ep)) ep).
    set (delay := calculateRetryDelay previous retryConfig (random (env (S previous)))).
    pose proof (retryCount_awaitAttempt JSON_parse res (env (S previous)) (metrics ep1))
      as Hrc.
    destruct (awaitAttempt JSON_parse res (env (S previous)) (metrics ep1))
      as [[[result|error]|] m2]; simpl in Hrc.
    + exists 1%nat, [delay]. cbn [effects endpoint].
      rewrite metrics_updateCircuitBreakerOnSuccess, attemptsIn_snoc_attempted,
        attemptsIn_snoc_slept, !sleepsIn_app, !app_nil_r. simpl. repeat split; lia.
    + destruct (Z.of_nat (S previous) =? maxRetries retryConfig);
        [|destruct (negb (shouldRetry error (retryOn retryConfig)))].
      1,2: exists 1%nat, [delay]; cbn [effects endpoint];
        rewrite retryCount_updateCircuitBreakerOnFailure, attemptsIn_snoc_attempted,
          attemptsIn_snoc_slept, !sleepsIn_app, !app_nil_r; simpl; repeat split; lia.
      edestruct (IH (S (S previous)) (Some error)) as (n & slept & Hn & Ha & Hs & Hl & Hr).
      exists (S n), (delay :: slept). rewrite Ha, Hs, Hr.
      rewrite retryCount_updateCircuitBreakerOnFailure, attemptsIn_snoc_attempted,
        attemptsIn_snoc_slept, !sleepsIn_app, !app_nil_r, <- !app_assoc. simpl.
      repeat split; lia.
    + exists 1%nat, [delay]. cbn [effects endpoint].
      rewrite attemptsIn_snoc_attempted, attemptsIn_snoc_slept, !sleepsIn_app, !app_nil_r.
      simpl. repeat split; lia.
Qed.

(** X8.  A call of [request] that passes its argument checks and the
    breaker gate makes at least one and at most [maxRetries + 1]
    attempts, numbered 0, 1, 2, ... without gaps, where [maxRetries] is
    the merged retry setting of the call. *)
Theorem request_attempts_bounded
    (JSON_parse : string → Res string Json) (isValidUrl : string → bool)
    (res : Resilience) (serviceUrl methodName : string) (params : Json)
    (options : RequestOptions) (nowGate : Z) (env : nat → AttemptEnv) (ep : Endpoint)
    (Hurl : isNonEmptyString serviceUrl = true)
    (Hvalid : isValidUrl serviceUrl = true)
    (Hmethod : isNonEmptyString methodName = true)
    (Hparams : isObject params = true)
    (Hgate : allowed (checkCircuitBreaker res serviceUrl nowGate ep).1 = true)
    (Hretries : 0 ≤ maxRetries (spreadRetry (spreadRetry (retry res)
                  (opt_retryOptions options)) (opt_top options))) :
  let r := request JSON_parse isValidUrl res serviceUrl methodName params options
             nowGate env ep in
  ∃ n : nat,
    attemptsIn (effects r) = seq 0 n
    ∧ (1 ≤ n)%nat
    ∧ Z.of_nat n ≤ maxRetries (spreadRetry (spreadRetry (retry res)
                     (opt_retryOptions options)) (opt_top options)) + 1.
Proof.
  intros r; subst r. unfold request.
  rewrite Hurl, Hvalid, Hmethod, Hparams. cbn [negb].
  destruct (checkCircuitBreaker res serviceUrl nowGate ep) as [circuitCheck ep1].
  simpl in Hgate. rewrite Hgate. cbn [negb].
  set (cfg := spreadRetry _ (opt_top options)) in *.
  destruct (Z.to_nat (maxRetries cfg + 1)) as [|remaining] eqn:Hfuel; [lia|].
  destruct (retryLoop_accounting JSON_parse res cfg serviceUrl env (S remaining)
              0%nat None ep1 []) as (n & slept & Hn & Ha & _).
  exists n. split; [exact Ha|]. split; [|lia].
  destruct n; [|lia]. exfalso. revert Ha. cbn [retryLoop].
  destruct (awaitAttempt JSON_parse res (env 0%nat) (metrics ep1)) as [[[?|error]|] ?];
    [done| |done].
  destruct (Z.of_nat 0 =? maxRetries cfg); [done|].
  destruct (negb (shouldRetry error (retryOn cfg))); [done|].
  intros Ha.
  destruct (retryLoop_accounting JSON_parse res cfg serviceUrl env remaining 1%nat
    (Some error)
    (updateCircuitBreakerOnFailure res serviceUrl (nowFailure1 (env 0%nat))
       (nowFailure2 (env 0%nat)) (set_metrics m ep1))
    ([] ++ [Attempted 0%nat])) as (k & _ & _ & Hk & _).
  rewrite Hk in Ha. done.
Qed.

Lemma request_attempts_bounded_witness :
  let res := constructor_resilience noResilienceOptions noRetryOptions in
  let env := λ _ : nat,
    {| random := (1 # 2)%Q; connectThrows := None;
       events := [ClientError (newError "connect ECONNREFUSED")];
       nowFailure1 := 0; nowFailure2 := 0 |} in
  let r := request (λ _, Throw ""%string) (λ _, true) res "http://127.0.0.1:3000" "ping"
             (JObj []) noRequestOptions 0 env initialEndpoint in
  ∃ n : nat,
    attemptsIn (effects r) = seq 0 n
    ∧ (1 ≤ n)%nat
    ∧ Z.of_nat n ≤ maxRetries (spreadRetry (spreadRetry (retry res)
                     (opt_retryOptions noRequestOptions)) (opt_top noRequestOptions)) + 1.
Proof.
  apply (request_attempts_bounded (λ _, Throw ""%string) (λ _, true)
           (constructor_resilience noResilienceOptions noRetryOptions)
           "http://127.0.0.1:3000" "ping" (JObj []) noRequestOptions 0
           (λ _ : nat,
              {| random := (1 # 2)%Q; connectThrows := None;
                 events := [ClientError (newError "connect ECONNREFUSED")];
                 nowFailure1 := 0; nowFailure2 := 0 |})
           initialEndpoint).
  - reflexivity.
  - reflexivity.
  - reflexivity.
  - reflexivity.
  - reflexivity.
  - vm_compute. discriminate.
Defined.

(** X9.  Whatever the arguments and however the call ends, [request]
    sleeps exactly once between two consecutive attempts and adds the
    number of those sleeps to [retryCount]: a call that made [n ≥ 1]
    attempts raised the counter by [n - 1], and a call refused before
    its first attempt left it as it was. *)
Theorem request_counts_each_retry
    (JSON_parse : string → Res string Json) (isValidUrl : string → bool)
    (res : Resilience) (serviceUrl methodName : string) (params : Json)
    (options : RequestOptions) (nowGate : Z) (env : nat → AttemptEnv) (ep : Endpoint) :
  let r := request JSON_parse isValidUrl res serviceUrl methodName params options
             nowGate env ep in
  length (sleepsIn (effects r)) = pred (length (attemptsIn (effects r)))
  ∧ retryCount (metrics (endpoint r))
    = retryCount (metrics ep) + Z.of_nat (length (sleepsIn (effects r))).
Proof.
  intros r; subst r. unfold request.
  repeat (match goal with
          | |- context [if negb ?b then _ else _] => destruct b; cbn [negb]
          end; [|simpl; split; [done|lia]]).
  pose proof (metrics_checkCircuitBreaker res serviceUrl nowGate ep) as Hm.
  destruct (checkCircuitBreaker res serviceUrl nowGate ep) as [circuitCheck ep1].
  simpl in Hm. destruct (allowed circuitCheck); cbn [negb].
  - match goal with
    | |- context [retryLoop _ _ ?cfg _ _ ?fuel _ _ _ _] =>
        destruct (retryLoop_accounting JSON_parse res cfg serviceUrl env fuel
                    0%nat None ep1 []) as (n & slept & _ & Ha & Hs & Hl & Hr)
    end.
    change (attemptsIn [] ++ seq 0 n) with (seq 0 n) in Ha.
    change (sleepsIn [] ++ slept) with slept in Hs.
    rewrite Ha, Hs, Hr, Hm, Hl, length_seq. done.
  - simpl. rewrite Hm. split; [done|lia].
Qed.

Lemma retryLoop_indep JSON_parse res retryConfig serviceUrl env remaining :
  ∀ attempt lastError ep ep' done,
  outcome (retryLoop JSON_parse res retryConfig serviceUrl env remaining attempt
             lastError ep done)
  = outcome (retryLoop JSON_parse res retryConfig serviceUrl env remaining attempt
               lastError ep' done)
  ∧ effects (retryLoop JSON_parse res retryConfig serviceUrl env remaining attempt
               lastError ep done)
    = effects (retryLoop JSON_parse res retryConfig serviceUrl env remaining attempt
                 lastError ep' done).
Proof.
  induction remaining as [|remaining IH]; intros attempt lastError ep ep' done.
  { simpl. by destruct lastError. }
  cbn [retryLoop].
  destruct attempt as [|previous].
  - pose proof (awaitAttempt_settled_indep JSON_parse res (env 0%nat)
                  (metrics ep) (metrics ep')) as Hsame.
    destruct (awaitAttempt JSON_parse res (env 0%nat) (metrics ep)) as [settled m2].
    destruct (awaitAttempt JSON_parse res (env 0%nat) (metrics ep')) as [settled' m2'].
    simpl in Hsame. subst settled'.
    destruct settled as [[result|error]|]; [done| |done].
    destruct (Z.of_nat 0 =? maxRetries retryConfig); [done|].
    destruct (negb (shouldRetry error (retryOn retryConfig))); [done|].
    apply IH.
  - pose proof (awaitAttempt_settled_indep JSON_parse res (env (S previous))
                  (metrics (set_metrics (incr_retryCount (metrics ep)) ep))
                  (metrics (set_metrics (incr_retryCount (metrics ep')) ep'))) as Hsame.
    destruct (awaitAttempt JSON_parse res (env (S previous))
                (metrics (set_metrics (incr_retryCount (metrics ep)) ep)))
      as [settled m2].
    destruct (awaitAttempt JSON_parse res (env (S previous))
                (metrics (set_metrics (incr_retryCount (metrics ep')) ep')))
      as [settled' m2'].
    simpl in Hsame. subst settled'.
    destruct settled as [[result|error]|]; [done| |done].
    destruct (Z.of_nat (S previous) =? maxRetries retryConfig); [done|].
    destruct (negb (shouldRetry error (retryOn retryConfig))); [done|].
    apply IH.
Qed.

(** X10.  The breaker is consulted once, at the gate.  Two calls of
    [request] with the same arguments and the same behaviour of the
    remote side, both admitted by the gate, end the same way after the
    same attempts and sleeps, whatever the two endpoints' breakers,
    counters and clocks are: a breaker that opens in the middle of a
    call does not stop the call's remaining retries. *)
Theorem request_consults_breaker_only_at_gate
    (JSON_parse : string → Res string Json) (isValidUrl : string → bool)
    (res : Resilience) (serviceUrl methodName : string) (params : Json)
    (options : RequestOptions) (nowGate nowGate' : Z) (env : nat → AttemptEnv)
    (ep ep' : Endpoint)
    (Hgate : allowed (checkCircuitBreaker res serviceUrl nowGate ep).1 = true)
    (Hgate' : allowed (checkCircuitBreaker res serviceUrl nowGate' ep').1 = true) :
  let r := request JSON_parse isValidUrl res serviceUrl methodName params options
             nowGate env ep in
  let r' := request JSON_parse isValidUrl res serviceUrl methodName params options
              nowGate' env ep' in
  outcome r = outcome r' ∧ effects r = effects r'.
Proof.
  intros r r'; subst r r'. unfold request.
  repeat (match goal with
          | |- context [if negb ?b then _ else _] => destruct b; cbn [negb]
          end; [|done]).
  destruct (checkCircuitBreaker res serviceUrl nowGate ep) as [circuitCheck ep1].
  destruct (checkCircuitBreaker res serviceUrl nowGate' ep') as [circuitCheck' ep1'].
  simpl in Hgate, Hgate'. rewrite Hgate, Hgate'. cbn [negb].
  apply retryLoop_indep.
Qed.

Lemma request_consults_breaker_only_at_gate_witness :
  let res := constructor_resilience noResilienceOptions noRetryOptions in
  let env := λ _ : nat,
    {| random := (1 # 2)%Q; connectThrows := None;
       events := [ClientError (newError "connect ECONNREFUSED")];
       nowFailure1 := 0; nowFailure2 := 0 |} in
  let ep' := failedAttempts res "http://127.0.0.1:3000" [(1, 1); (2, 2); (3, 3); (4, 4)]
               initialEndpoint in
  let r := request (λ _, Throw ""%string) (λ _, true) res "http://127.0.0.1:3000" "ping"
             (JObj []) noRequestOptions 0 env initialEndpoint in
  let r' := request (λ _, Throw ""%string) (λ _, true) res "http://127.0.0.1:3000" "ping"
              (JObj []) noRequestOptions 5 env ep' in
  outcome r = outcome r' ∧ effects r = effects r'.
Proof.
  apply (request_consults_breaker_only_at_gate (λ _, Throw ""%string) (λ _, true)
           (constructor_resilience noResilienceOptions noRetryOptions)
           "http://127.0.0.1:3000" "ping" (JObj []) noRequestOptions 0 5
           (λ _ : nat,
              {| random := (1 # 2)%Q; connectThrows := None;
                 events := [ClientError (newError "connect ECONNREFUSED")];
                 nowFailure1 := 0; nowFailure2 := 0 |})
           initialEndpoint
           (failedAttempts (constructor_resilience noResilienceOptions noRetryOptions)
              "http://127.0.0.1:3000" [(1, 1); (2, 2); (3, 3); (4, 4)] initialEndpoint)).
  - reflexivity.
  - reflexivity.
Defined.

(** *** What a call may change *)












(** ** Which errors are retried *)

Lemma includes_onlyStatuses l s :
  onlyStatuses l = true → includes l (Some (JStr s)) = false.
Proof.
  unfold onlyStatuses, includes. induction l as [|j l IH]; [done|]. simpl.
  by destruct j.
Qed.

(** X12.  The two timeout errors of an attempt carry neither a status
    nor a code, so [request] retries them exactly when [retryOn] lists
    the string ['ETIMEDOUT']; under the default [retryOn], which holds
    status numbers only, a timed-out attempt is not retried. *)
Theorem timeouts_retried_iff_ETIMEDOUT_listed (res : Resilience)
    (retryOnList : option (list Json)) :
  let listed :=
    match retryOnList with
    | Some l => includes l (Some (JStr "ETIMEDOUT"))
    | None => false
    end in
  shouldRetry (requestTimeoutError res) retryOnList = listed
  ∧ shouldRetry (connectionTimeoutError res) retryOnList = listed
  ∧ shouldRetry (requestTimeoutError res)
      (retryOn (retry (constructor_resilience noResilienceOptions noRetryOptions))) = false
  ∧ shouldRetry (connectionTimeoutError res)
      (retryOn (retry (constructor_resilience noResilienceOptions noRetryOptions))) = false.
Proof.
  intros listed; subst listed.
  assert (∀ l, shouldRetry (requestTimeoutError res) (Some l)
               = includes l (Some (JStr "ETIMEDOUT"))
               ∧ shouldRetry (connectionTimeoutError res) (Some l)
                 = includes l (Some (JStr "ETIMEDOUT"))) as Hlisted.
  { intros l. unfold shouldRetry.
    destruct l as [|j l]; [done|].
    change (length (j :: l) =? 0)%nat with false. cbv iota.
    change (truthy (status (requestTimeoutError res))) with false.
    change (truthy (code (requestTimeoutError res))) with false.
    change (truthy (status (connectionTimeoutError res))) with false.
    change (truthy (code (connectionTimeoutError res))) with false.
    cbn [andb].
    assert (str_includes "timeout" (message (requestTimeoutError res)) = true) as ->
      by reflexivity.
    assert (str_includes "timeout" (message (connectionTimeoutError res)) = true) as ->
      by reflexivity.
    rewrite andb_true_r. by destruct (includes _ _). }
  split; [|split; [|split]].
  - destruct retryOnList as [l|]; [apply Hlisted|done].
  - destruct retryOnList as [l|]; [apply Hlisted|done].
  - change (retryOn _) with (Some DEFAULTS.RESILIENCE.RETRY.RETRY_ON).
    rewrite (proj1 (Hlisted _)). by apply includes_onlyStatuses.
  - change (retryOn _) with (Some DEFAULTS.RESILIENCE.RETRY.RETRY_ON).
    rewrite (proj2 (Hlisted _)). by apply includes_onlyStatuses.
Qed.

(** ** Growth of the retry delay *)

Lemma Qpower_succ_nat (a : Q) (k : nat) :
  (a ^ Z.of_nat (S k) == a ^ Z.of_nat k * a)%Q.
Proof.
  rewrite Nat2Z.inj_succ. unfold Z.succ.
  rewrite Qpower_plus' by lia. reflexivity.
Qed.

(** X13.  With jitter disabled, a non-negative [initialDelay] and
    [maxDelay] and a [backoffFactor] of at least 1, the delays of
    successive retries never decrease and never exceed [maxDelay]; and
    once the exponential term has reached [maxDelay], every later
    delay is [maxDelay]. *)
Theorem backoff_grows_up_to_maxDelay (k : nat) (config : RetryConfig) (U U' : Q) :
  jitterEnabled config = false →
  (0 <= initialDelay config)%Q → (1 <= backoffFactor config)%Q →
  (0 <= maxDelay config)%Q →
  (calculateRetryDelay k config U <= calculateRetryDelay (S k) config U')%Q
  ∧ (calculateRetryDelay (S k) config U' <= maxDelay config)%Q
  ∧ ((maxDelay config <= initialDelay config * backoffFactor config ^ Z.of_nat k)%Q →
     (calculateRetryDelay (S k) config U' == maxDelay config)%Q).
Proof.
  intros Hj Hi Hb Hm. unfold calculateRetryDelay. rewrite Hj.
  assert (0 <= backoffFactor config ^ Z.of_nat k)%Q as Hpow
    by (apply Qpower_0_le; lra).
  pose proof (Qpower_succ_nat (backoffFactor config) k) as Hsucc.
  set (p := (backoffFactor config ^ Z.of_nat k)%Q) in *.
  set (p' := (backoffFactor config ^ Z.of_nat (S k))%Q) in *.
  assert (0 <= initialDelay config * p)%Q as H0 by nra.
  assert (initialDelay config * p <= initialDelay config * p')%Q as Hle.
  { rewrite Hsucc.
    assert (0 <= initialDelay config * p * (backoffFactor config - 1))%Q by nra.
    lra. }
  destruct (Q.min_spec (initialDelay config * p) (maxDelay config)) as [[? ->]|[? ->]];
    destruct (Q.min_spec (initialDelay config * p') (maxDelay config)) as [[? ->]|[? ->]];
    (split; [|split; [|intros Hcap]]);
    repeat match goal with
           | |- context [Qmax ?a 0] =>
               let H := fresh in
               destruct (Q.max_spec a 0) as [[? H]|[? H]]; rewrite H; clear H
           end; lra.
Qed.

Lemma backoff_grows_up_to_maxDelay_witness :
  let config :=
    spreadRetry (retry (constructor_resilience noResilienceOptions noRetryOptions))
      {| o_maxRetries := None; o_initialDelay := None; o_maxDelay := None;
         o_backoffFactor := None; o_retryOn := None; o_jitterEnabled := Some false |} in
  (calculateRetryDelay 3 config 0 <= calculateRetryDelay 4 config 0)%Q
  ∧ (calculateRetryDelay 4 config 0 <= maxDelay config)%Q
  ∧ ((maxDelay config <= initialDelay config * backoffFactor config ^ Z.of_nat 3)%Q →
     (calculateRetryDelay 4 config 0 == maxDelay config)%Q).
Proof.
  apply (backoff_grows_up_to_maxDelay 3
           (spreadRetry (retry (constructor_resilience noResilienceOptions noRetryOptions))
              {| o_maxRetries := None; o_initialDelay := None; o_maxDelay := None;
                 o_backoffFactor := None; o_retryOn := None;
                 o_jitterEnabled := Some false |}) 0 0).
  - reflexivity.
  - vm_compute. discriminate.
  - vm_compute. discriminate.
  - vm_compute. discriminate.
Defined.

(** ** The envelope between two endpoints *)

Lemma lookup_field_bodyToJson_absent k body fields :
  bodyToJson body = JObj fields → hasKey k body = false → lookup_field k fields = None.
Proof.
  unfold bodyToJson, hasKey. intros [= <-].
  induction body as [|[k' [v|]] body IH]; simpl; [done| |].
  - destruct (String.eqb k' k); [done|]. exact IH.
  - destruct (String.eqb k' k); [done|]. exact IH.
Qed.



(** X15.  Every error reply of the dispatcher loses its HTTP status on
    the way: for an error with a non-empty code whose extra fields are
    none of [error], [message] and [status], the caller that parses the
    body [formatResponse(null, error)] throws an error with that code,
    with the reply's message (['RPC Error'] when the message is missing
    or empty) and with status 500, whatever status the reply was sent
    with. *)
Theorem error_reply_reaches_caller_as_500
    (JSON_parse : string → Res string Json) (error : ErrorSpec) (data : string)
    (Hcode : err_code error ≠ ""%string)
    (Herror : hasKey "error" (extra error) = false)
    (Hmessage : hasKey "message" (extra error) = false)
    (Hstatus : hasKey "status" (extra error) = false)
    (Hdata : data ≠ ""%string)
    (Hparse : JSON_parse data = Ok (bodyToJson (formatResponse None (Some error)))) :
  decodeResponse JSON_parse data
  = Throw {| message :=
               match err_message error with
               | Some text => if String.eqb text "" then "RPC Error" else text
               | None => "RPC Error"
               end;
             code := Some (JStr (err_code error));
             status := Some (JNum 500) |}.
Proof.
  unfold decodeResponse. destruct (String.eqb_spec data ""); [done|].
  rewrite Hparse. clear Hparse.
  destruct error as [c msg more]. simpl in *.
  pose proof (lookup_field_bodyToJson_absent "message" more _ eq_refl Hmessage) as Hm.
  pose proof (lookup_field_bodyToJson_absent "status" more _ eq_refl Hstatus) as Hs.
  unfold bodyToJson in *. simpl.
  destruct (String.eqb_spec c ""); [done|]. simpl.
  destruct msg as [text|]; simpl.
  - change (list_omap _ _ ?f more) with (omap f more). rewrite Hs. simpl.
    by destruct (String.eqb text "").
  - change (list_omap _ _ ?f more) with (omap f more). rewrite Hm. simpl.
    by rewrite Hs.
Qed.

Lemma error_reply_reaches_caller_as_500_witness :
  let error :=
    {| err_code := "METHOD_NOT_FOUND"; err_message := Some "Method not found";
       extra := [("method", Some (JStr "nope"))] |} in
  decodeResponse (λ _, Ok (bodyToJson (formatResponse None (Some error)))) "{}"
  = Throw {| message := "Method not found"; code := Some (JStr "METHOD_NOT_FOUND");
             status := Some (JNum 500) |}.
Proof.
  apply (error_reply_reaches_caller_as_500
           (λ _, Ok (bodyToJson
                       (formatResponse None
                          (Some {| err_code := "METHOD_NOT_FOUND";
                                   err_message := Some "Method not found";
                                   extra := [("method", Some (JStr "nope"))] |}))))
           {| err_code := "METHOD_NOT_FOUND"; err_message := Some "Method not found";
              extra := [("method", Some (JStr "nope"))] |} "{}").
  - discriminate.
  - reflexivity.
  - reflexivity.
  - reflexivity.
  - discriminate.
  - reflexivity.
Defined.

(** ** Inbound counters *)

Lemma recordReplies_snoc samples sample m :
  recordReplies (samples ++ [sample]) m
  = updateMetrics sample.1 sample.2 (recordReplies samples m).
Proof. unfold recordReplies. by rewrite foldl_app. Qed.

Lemma replies_count_nonneg samples m :
  0 ≤ requestCount m → 0 ≤ requestCount (recordReplies samples m).
Proof.
  induction samples as [|sample samples IH] using rev_ind; intros Hm; [done|].
  rewrite recordReplies_snoc. simpl. specialize (IH Hm). lia.
Qed.

(** X16.  After any sequence of replies [requestCount] has grown by the
    number of replies and [errorCount] by the number of error replies,
    so an endpoint whose errors did not exceed its requests keeps it
    so; the outbound counters are untouched. *)
Theorem replies_are_counted (samples : list (Z * bool)) (m : Metrics) :
  let m' := recordReplies samples m in
  requestCount m' = requestCount m + Z.of_nat (length samples)
  ∧ errorCount m' = errorCount m + Z.of_nat (length (filter (λ s, s.2 = true) samples))
  ∧ errorCount m' - errorCount m ≤ requestCount m' - requestCount m
  ∧ retryCount m' = retryCount m ∧ authFailures m' = authFailures m
  ∧ timeoutCount m' = timeoutCount m
  ∧ circuitBreakerTrips m' = circuitBreakerTrips m
  ∧ bulkheadRejections m' = bulkheadRejections m.
Proof.
  induction samples as [|[responseTime isError] samples IH] using rev_ind; intros m'.
  { subst m'. simpl. repeat split; lia. }
  subst m'. rewrite recordReplies_snoc.
  destruct IH as (Hr & He & Hle & ? & ? & ? & ? & ?).
  rewrite filter_app, !length_app.
  destruct isError.
  - rewrite filter_cons_True by done. rewrite filter_nil. simpl.
    repeat split; try done; lia.
  - rewrite filter_cons_False by done. rewrite filter_nil. simpl.
    repeat split; try done; lia.
Qed.

(** X17.  In exact arithmetic [averageResponseTime] is a true running
    mean: after any sequence of replies, the average times the number
    of requests is the former average times the former number plus the
    sum of the new response times.  The former number of requests must
    not be negative. *)
Theorem averageResponseTime_is_running_mean (samples : list (Z * bool)) (m : Metrics)
    (Hcount : 0 ≤ requestCount m) :
  let m' := recordReplies samples m in
  (averageResponseTime m' * inject_Z (requestCount m')
   == averageResponseTime m * inject_Z (requestCount m)
      + inject_Z (foldr Z.add 0%Z (samples.*1)))%Q.
Proof.
  induction samples as [|[responseTime isError] samples IH] using rev_ind; intros m'.
  { subst m'. simpl. ring. }
  subst m'. rewrite recordReplies_snoc.
  pose proof (replies_count_nonneg samples m Hcount) as Hn.
  simpl in IH. set (done := recordReplies samples m) in *.
  rewrite fmap_app, foldr_app. simpl.
  replace (foldr Z.add (responseTime + 0) samples.*1)
    with (foldr Z.add 0 samples.*1 + responseTime).
  2:{ clear. induction samples as [|[? ?] ? IH]; [simpl; lia|].
      rewrite !fmap_cons. cbn [foldr fst]. rewrite <- IH. lia. }
  cbn [updateMetrics averageResponseTime requestCount fst snd].
  replace (requestCount done + 1 - 1) with (requestCount done) by lia.
  assert (¬ inject_Z (requestCount done + 1) == 0)%Q as Hnz.
  { intros Hzero. unfold Qeq, inject_Z in Hzero. simpl in Hzero. lia. }
  transitivity (averageResponseTime done * inject_Z (requestCount done)
                + inject_Z responseTime)%Q; [field; exact Hnz|].
  rewrite IH, inject_Z_plus. ring.
Qed.

Lemma averageResponseTime_is_running_mean_witness :
  let samples := [(12, false); (30, true); (6, false)] in
  let m' := recordReplies samples initialMetrics in
  (averageResponseTime m' * inject_Z (requestCount m')
   == averageResponseTime initialMetrics * inject_Z (requestCount initialMetrics)
      + inject_Z (foldr Z.add 0%Z (samples.*1)))%Q.
Proof.
  apply (averageResponseTime_is_running_mean [(12, false); (30, true); (6, false)]
           initialMetrics).
  simpl. lia.
Defined.

(** ** Registration and permits of a method *)

Lemma lookupOwn_setOwn_eq name handler own :
  lookupOwn name (setOwn name handler own) = Some handler.
Proof.
  induction own as [|[name' handler'] own IH]; simpl.
  - by rewrite String.eqb_refl.
  - destruct (String.eqb name' name) eqn:Heq; simpl; [by rewrite String.eqb_refl|].
    by rewrite Heq.
Qed.

Lemma lookupOwn_setOwn_ne name other handler own :
  other ≠ name → lookupOwn other (setOwn name handler own) = lookupOwn other own.
Proof.
  intros Hne.
  assert (String.eqb name other = false) as Hneq by (apply String.eqb_neq; congruence).
  induction own as [|[name' handler'] own IH]; simpl.
  - by rewrite Hneq.
  - destruct (String.eqb_spec name' name) as [->|Hne']; simpl; [|by rewrite IH].
    by rewrite Hneq.
Qed.

(** What a successful [addMethod] leaves in [this._methods]. *)
Lemma methods_addMethod readThrough writeThrough name handler bulkheadConfig ep0 ep :
  addMethod readThrough writeThrough name handler bulkheadConfig ep0 = (None, ep) →
  assignMethod writeThrough name handler (_methods ep0) = Ok (_methods ep).
Proof.
  unfold addMethod. intros Hadd.
  destruct (isNonEmptyString name); [|discriminate]. cbn [negb] in Hadd.
  destruct (probeMethod readThrough (_methods ep0) name); [|discriminate].
  repeat (match type of Hadd with
          | (if ?b then _ else _) = _ => destruct b; [discriminate|]
          end).
  cbn zeta in Hadd. change (_methods (set_bulkheadMethods _ ep0)) with (_methods ep0) in Hadd.
  destruct (assignMethod _ _ _ _) as [methods|]; [|discriminate].
  by injection Hadd as <-.
Qed.

(** X18.  A successful [addMethod] gives the method a fresh bulkhead:
    the default limits overridden by the given options, each limit a
    number above 0 or [undefined], and no active, queued or rejected
    request, whatever the method's bulkhead held before; the bulkheads
    of the other methods, the counters, the breakers, the admission
    promises and the queue timers are untouched.  While the prototype of
    [this._methods] is [Object.prototype]: under a name other than
    [__proto__] the handler is the one the dispatcher finds, and what
    it finds under every other name is as before; under the name
    [__proto__] the handler becomes the prototype of [this._methods]
    and the own properties stay as they were. *)
Theorem addMethod_registers_fresh_bulkhead
    (readThrough : Handler → string → Res JsError (option Handler))
    (writeThrough : Handler → string → Res JsError Assigned)
    (objectPrototypeMember : string → Handler)
    (name : string) (handler : Handler)
    (bulkheadConfig : BulkheadOptions) (ep ep' : Endpoint)
    (Hadded : addMethod readThrough writeThrough name handler bulkheadConfig ep
              = (None, ep')) :
  let merged := storedConfig (spreadBulkhead defaultConfig bulkheadConfig) in
  let found := getMethod readThrough objectPrototypeMember in
  getMethodBulkheadStatus name ep'
  = inr {| status_methodName := name; status_config := merged;
           status_activeRequests := 0; status_queuedRequests := 0;
           status_rejectedRequests := 0 |}
  ∧ (positiveOrUndefined (maxConcurrentRequests merged)
     ∧ positiveOrUndefined (maxQueueSize merged)
     ∧ positiveOrUndefined (queueTimeout merged))
  ∧ (∀ other, other ≠ name →
       getMethodBulkheadStatus other ep' = getMethodBulkheadStatus other ep)
  ∧ metrics ep' = metrics ep ∧ circuitBreakers ep' = circuitBreakers ep
  ∧ promises ep' = promises ep ∧ queueTimers ep' = queueTimers ep
  ∧ (protoHandler (_methods ep) = None → name ≠ "__proto__" →
       found (_methods ep') name = Ok (Some handler)
       ∧ protoHandler (_methods ep') = None
       ∧ ∀ other, other ≠ name → found (_methods ep') other = found (_methods ep) other)
  ∧ (protoHandler (_methods ep) = None → name = "__proto__" →
       lookupOwn name (ownMethods (_methods ep)) = None →
       _methods ep'
       = {| ownMethods := ownMethods (_methods ep); protoHandler := Some handler |}).
Proof.
  intros merged found.
  pose proof (methods_addMethod _ _ _ _ _ _ _ Hadded) as Hmethods.
  destruct (bulkheadMethods_addMethod _ _ _ _ _ _ _ Hadded)
    as (Hb & H1 & H2 & H3 & _ & Hm & Hc & Hp & Ht).
  unfold getMethodBulkheadStatus. rewrite Hb, lookup_insert_eq. simpl.
  split; [done|]. split.
  { subst merged. simpl. by repeat split; apply positiveOrUndefined_validated. }
  split; [by intros other Hne; rewrite lookup_insert_ne|].
  do 4 (split; [done|]). split.
  - intros Hproto Hname. unfold assignMethod in Hmethods. rewrite Hproto in Hmethods.
    apply String.eqb_neq in Hname. rewrite Hname in Hmethods.
    assert (_methods ep'
            = mkMethodsObject (setOwn name handler (ownMethods (_methods ep))) None)
      as -> by (destruct (lookupOwn _ _); congruence).
    subst found. unfold getMethod. simpl. rewrite lookupOwn_setOwn_eq, Hproto.
    repeat split. intros other Hne. by rewrite lookupOwn_setOwn_ne.
  - intros Hproto Hname Hown. unfold assignMethod in Hmethods.
    rewrite Hown, Hproto, Hname in Hmethods. simpl in Hmethods. congruence.
Qed.

Lemma addMethod_registers_fresh_bulkhead_witness :
  let handler : Handler := λ _, Ok None in
  let options :=
    {| b_enabled := None; b_maxConcurrentRequests := given 2;
       b_maxQueueSize := Some GivenUndefined; b_queueTimeout := None |} in
  let readThrough : Handler → string → Res JsError (option Handler) := λ _ _, Ok None in
  let ep' := endpointWith "add" handler options in
  let merged := storedConfig (spreadBulkhead defaultConfig options) in
  let found := getMethod readThrough (λ _ _, Ok None) in
  getMethodBulkheadStatus "add" ep'
  = inr {| status_methodName := "add"; status_config := merged;
           status_activeRequests := 0; status_queuedRequests := 0;
           status_rejectedRequests := 0 |}
  ∧ (positiveOrUndefined (maxConcurrentRequests merged)
     ∧ positiveOrUndefined (maxQueueSize merged)
     ∧ positiveOrUndefined (queueTimeout merged))
  ∧ (∀ other, other ≠ "add" →
       getMethodBulkheadStatus other ep' = getMethodBulkheadStatus other initialEndpoint)
  ∧ metrics ep' = metrics initialEndpoint
  ∧ circuitBreakers ep' = circuitBreakers initialEndpoint
  ∧ promises ep' = promises initialEndpoint
  ∧ queueTimers ep' = queueTimers initialEndpoint
  ∧ (protoHandler (_methods initialEndpoint) = None → "add" ≠ "__proto__" →
       found (_methods ep') "add" = Ok (Some handler)
       ∧ protoHandler (_methods ep') = None
       ∧ ∀ other, other ≠ "add" →
           found (_methods ep') other = found (_methods initialEndpoint) other)
  ∧ (protoHandler (_methods initialEndpoint) = None → "add" = "__proto__" →
       lookupOwn "add" (ownMethods (_methods initialEndpoint)) = None →
       _methods ep'
       = {| ownMethods := ownMethods (_methods initialEndpoint);
            protoHandler := Some handler |}).
Proof.
  apply (addMethod_registers_fresh_bulkhead (λ _ _, Ok None) (λ _ _, Ok AssignedOwn)
           (λ _ _, Ok None) "add" (λ _, Ok None)
           {| b_enabled := None; b_maxConcurrentRequests := given 2;
              b_maxQueueSize := Some GivenUndefined; b_queueTimeout := None |}
           initialEndpoint
           (endpointWith "add" (λ _, Ok None)
              {| b_enabled := None; b_maxConcurrentRequests := given 2;
                 b_maxQueueSize := Some GivenUndefined; b_queueTimeout := None |})).
  reflexivity.
Defined.

(** Registering a handler under [__proto__] changes what the dispatcher
    finds under the other names: reads of names [this._methods] does not
    have itself go through the handler. *)
Example addMethod_proto_redirects_lookups :
  let handler : Handler := λ _, Ok None in
  let inherited : Handler := λ params, Ok (Some params) in
  let readThrough : Handler → string → Res JsError (option Handler) :=
    λ _ name, if String.eqb name "call" then Ok (Some inherited) else Ok None in
  let noOptions :=
    {| b_enabled := None; b_maxConcurrentRequests := None; b_maxQueueSize := None;
       b_queueTimeout := None |} in
  let ep := endpointWith "__proto__" handler noOptions in
  let found := getMethod readThrough (λ _ _, Ok None) in
  ownMethods (_methods ep) = []
  ∧ protoHandler (_methods ep) = Some handler
  ∧ found (_methods initialEndpoint) "call" = Ok None
  ∧ found (_methods ep) "call" = Ok (Some inherited).
Proof. by repeat split. Qed.

Lemma set_methodState_id methodName ms ep :
  bulkheadMethods ep !! methodName = Some ms → set_methodState methodName ms ep = ep.
Proof.
  intros Hms. destruct ep. unfold set_methodState, set_bulkheadMethods. simpl in *.
  by rewrite insert_id.
Qed.

Lemma set_methodState_twice methodName ms ms' ep :
  set_methodState methodName ms' (set_methodState methodName ms ep)
  = set_methodState methodName ms' ep.
Proof.
  unfold set_methodState, set_bulkheadMethods. simpl. by rewrite insert_insert_eq.
Qed.

Lemma releaseMethodBulkheadPermit_acquire methodName ep :
  (acquireMethodBulkheadPermit methodName ep).1 = Acquired →
  waiting methodName ep = [] →
  releaseMethodBulkheadPermit methodName (acquireMethodBulkheadPermit methodName ep).2
  = ep.
Proof.
  unfold acquireMethodBulkheadPermit, releaseMethodBulkheadPermit, waiting.
  destruct (bulkheadMethods ep !! methodName) as [ms|] eqn:Hms; simpl;
    [|by rewrite Hms].
  destruct (bulkheadEnabled (config ms)) eqn:Henabled; simpl;
    [|by rewrite Hms, Henabled].
  destruct (belowLimit (activeRequests ms) (maxConcurrentRequests (config ms))); simpl.
  - intros _ Hqueue. apply fmap_nil_inv in Hqueue.
    rewrite lookup_insert_eq. simpl. rewrite Henabled, Hqueue. simpl.
    rewrite set_methodState_twice. apply set_methodState_id.
    rewrite Hms. f_equal. destruct ms as [c a q r]. simpl in *. subst q.
    f_equal. lia.
  - by destruct (belowLimit (Z.of_nat (length (queuedRequests ms)))
              (maxQueueSize (config ms))).
Qed.

(** X19.  A permit granted while nobody waits is given back without a
    trace: when [#acquireMethodBulkheadPermit] admits at once and the
    method's queue is empty, the release that follows restores the
    endpoint exactly, whether the method has a bulkhead, has it
    disabled, or has none. *)
Theorem release_undoes_acquire (methodName : string) (ep : Endpoint)
    (Hadmitted : (acquireMethodBulkheadPermit methodName ep).1 = Acquired)
    (Hnobody : waiting methodName ep = []) :
  releaseMethodBulkheadPermit methodName (acquireMethodBulkheadPermit methodName ep).2
  = ep.
Proof. by apply releaseMethodBulkheadPermit_acquire. Qed.

Lemma release_undoes_acquire_witness :
  let ep := endpointWith "add" (λ _, Ok None) noBulkheadOptions in
  releaseMethodBulkheadPermit "add" (acquireMethodBulkheadPermit "add" ep).2 = ep.
Proof.
  apply (release_undoes_acquire "add"
           (endpointWith "add" (λ _, Ok None) noBulkheadOptions)).
  - reflexivity.
  - reflexivity.
Defined.

(** ** Admission promises *)

Lemma timersOfPending_step methodName op ep :
  goodBulkhead methodName ep → timersOfPending ep →
  timersOfPending (bulkheadStep methodName op ep).
Proof.
  intros [_ Hq] Htimers. destruct op as [| |q]; simpl.
  - unfold acquireMethodBulkheadPermit.
    destruct (bulkheadMethods ep !! methodName) as [ms|]; [|done].
    destruct (bulkheadEnabled (config ms)); simpl; [|done].
    destruct (belowLimit (activeRequests ms) (maxConcurrentRequests (config ms))); simpl; [done|].
    destruct (belowLimit (Z.of_nat (length (queuedRequests ms)))
              (maxQueueSize (config ms))); simpl;
      [|done].
    intros p. simpl. rewrite elem_of_union, elem_of_singleton. intros [Hin| ->].
    + rewrite lookup_app_l; [by apply Htimers|].
      eapply lookup_lt_Some. by apply Htimers.
    + by rewrite list_lookup_middle.
  - unfold releaseMethodBulkheadPermit.
    destruct (bulkheadMethods ep !! methodName) as [ms|]; [|done].
    destruct (bulkheadEnabled (config ms)); simpl; [|done].
    destruct (queuedRequests ms) as [|next rest]; [done|].
    apply Forall_cons in Hq as [[q Hnext] _]. rewrite Hnext.
    intros p. simpl. rewrite elem_of_difference, elem_of_singleton. intros [Hin Hne].
    rewrite settle_lookup_ne by done. by apply Htimers.
  - unfold queueTimerFires.
    destruct (bool_decide (q ∈ queueTimers ep)); cbn [negb]; [|done].
    intros p. simpl.
    assert (∀ ep2 : Endpoint,
              queueTimers ep2 = queueTimers ep ∖ {[q]} → promises ep2 = promises ep →
              p ∈ queueTimers ep2 → settle q (Rejected (queueTimeoutError methodName))
                                       (promises ep2) !! p = Some Pending) as Hany.
    { intros ep2 -> ->. rewrite elem_of_difference, elem_of_singleton. intros [Hin Hne].
      rewrite settle_lookup_ne by done. by apply Htimers. }
    destruct (bulkheadMethods ep !! methodName) as [ms|]; [|by apply Hany].
    destruct (findIndex _ _); by apply Hany.
Qed.

(** X21.  A queue timer is armed only for a waiter that is still
    pending.  From a state in which this holds and the queue holds the
    functions created for its waiters (a freshly registered method, for
    one), it holds after every sequence of acquisitions, releases and
    timer callbacks; so a queue timer that fires always rejects its
    request, and admitting a waiter always disarms its timer. *)
Theorem queue_timers_belong_to_pending_waiters (methodName : string)
    (ops : list BulkheadOp) (ep : Endpoint)
    (Hgood : goodBulkhead methodName ep) (Htimers : timersOfPending ep) :
  timersOfPending (foldl (λ ep op, bulkheadStep methodName op ep) ep ops).
Proof.
  revert ep Hgood Htimers. induction ops as [|op ops IH]; intros ep Hgood Htimers;
    [done|].
  simpl. apply IH; [by apply goodBulkhead_step|by apply timersOfPending_step].
Qed.

Lemma queue_timers_belong_to_pending_waiters_witness :
  let options :=
    {| b_enabled := None; b_maxConcurrentRequests := given 1;
       b_maxQueueSize := None; b_queueTimeout := None |} in
  timersOfPending
    (foldl (λ ep op, bulkheadStep "add" op ep) (endpointWith "add" (λ _, Ok None) options)
       [OpAcquire; OpAcquire; OpAcquire; OpQueueTimeout 0%nat; OpRelease]).
Proof.
  apply (queue_timers_belong_to_pending_waiters "add"
           [OpAcquire; OpAcquire; OpAcquire; OpQueueTimeout 0%nat; OpRelease]
           (endpointWith "add" (λ _, Ok None)
              {| b_enabled := None; b_maxConcurrentRequests := given 1;
                 b_maxQueueSize := None; b_queueTimeout := None |})).
  - split.
    + vm_compute. by split.
    + apply Forall_nil_2.
  - intros p Hp. by apply elem_of_empty in Hp.
Defined.

Lemma promises_queueTimerFires_ne methodName p q ep :
  q ≠ p → promises (queueTimerFires methodName p ep) !! q = promises ep !! q.
Proof.
  intros Hne. unfold queueTimerFires.
  destruct (bool_decide (p ∈ queueTimers ep)); cbn [negb]; [|done].
  simpl. rewrite settle_lookup_ne by done.
  destruct (bulkheadMethods ep !! methodName) as [ms|]; [|done].
  by destruct (findIndex _ _).
Qed.

(** X22.  A waiter whose queue timer fired stays at its place in the
    queue, and the next release hands the permit to it: when the head
    of the queue has timed out, a release admits nobody (the head's
    promise stays rejected and no other promise changes), takes the
    head out of the queue and leaves [activeRequests] as it was, so the
    slot of the request that finished is not freed. *)
Theorem release_after_queue_timeout_frees_no_slot (methodName : string) (p : nat)
    (ms : MethodState) (item : QueueItem) (rest : list QueueItem) (ep : Endpoint)
    (Hgood : goodBulkhead methodName ep)
    (Hms : bulkheadMethods ep !! methodName = Some ms)
    (Henabled : bulkheadEnabled (config ms) = true)
    (Hqueue : queuedRequests ms = item :: rest)
    (Hitem : resolve item = ItemResolve p)
    (Htimer : p ∈ queueTimers ep)
    (Hpending : promises ep !! p = Some Pending) :
  let released :=
    releaseMethodBulkheadPermit methodName (queueTimerFires methodName p ep) in
  promises released !! p = Some (Rejected (queueTimeoutError methodName))
  ∧ (∀ q, q ≠ p → promises released !! q = promises ep !! q)
  ∧ getMethodBulkheadStatus methodName released
    = inr {| status_methodName := methodName; status_config := config ms;
             status_activeRequests := activeRequests ms;
             status_queuedRequests := length rest;
             status_rejectedRequests := rejectedRequests ms |}.
Proof.
  intros released; subst released.
  pose proof (bulkheadMethods_queueTimerFires methodName p ep Hgood) as Hsame.
  pose proof (promise_after_queueTimerFires methodName p ep Hpending Htimer) as Hrejected.
  set (fired := queueTimerFires methodName p ep) in *.
  assert (∀ q, q ≠ p → promises fired !! q = promises ep !! q) as Hothers
    by (intros q Hq; by apply promises_queueTimerFires_ne).
  unfold releaseMethodBulkheadPermit, getMethodBulkheadStatus.
  rewrite Hsame, Hms. simpl. rewrite Henabled, Hqueue, Hitem. simpl.
  split; [|split].
  - by apply settle_lookup_settled.
  - intros q Hq. rewrite settle_lookup_ne by done. by apply Hothers.
  - rewrite lookup_insert_eq. simpl. by rewrite Z.sub_add.
Qed.

Lemma release_after_queue_timeout_frees_no_slot_witness :
  let options :=
    {| b_enabled := None; b_maxConcurrentRequests := given 1;
       b_maxQueueSize := None; b_queueTimeout := None |} in
  let ep :=
    foldl (λ ep op, bulkheadStep "add" op ep) (endpointWith "add" (λ _, Ok None) options)
      [OpAcquire; OpAcquire] in
  let ms :=
    mkMethodState
      {| bulkheadEnabled := true; maxConcurrentRequests := Some (Finite 1);
         maxQueueSize := Some (Finite (inject_Z DEFAULTS.RESILIENCE.BULKHEAD.MAX_QUEUE));
         queueTimeout :=
           Some (Finite (inject_Z DEFAULTS.RESILIENCE.BULKHEAD.QUEUE_TIMEOUT)) |}
      1 [{| resolve := ItemResolve 0; reject := ItemReject 0 |}] 0 in
  let released := releaseMethodBulkheadPermit "add" (queueTimerFires "add" 0%nat ep) in
  promises released !! 0%nat = Some (Rejected (queueTimeoutError "add"))
  ∧ (∀ q, q ≠ 0%nat → promises released !! q = promises ep !! q)
  ∧ getMethodBulkheadStatus "add" released
    = inr {| status_methodName := "add"; status_config := config ms;
             status_activeRequests := activeRequests ms;
             status_queuedRequests := length (@nil QueueItem);
             status_rejectedRequests := rejectedRequests ms |}.
Proof.
  apply (release_after_queue_timeout_frees_no_slot "add" 0%nat
           (mkMethodState
              {| bulkheadEnabled := true; maxConcurrentRequests := Some (Finite 1);
                 maxQueueSize :=
                   Some (Finite (inject_Z DEFAULTS.RESILIENCE.BULKHEAD.MAX_QUEUE));
                 queueTimeout :=
                   Some (Finite (inject_Z DEFAULTS.RESILIENCE.BULKHEAD.QUEUE_TIMEOUT)) |}
              1 [{| resolve := ItemResolve 0; reject := ItemReject 0 |}] 0)
           {| resolve := ItemResolve 0; reject := ItemReject 0 |} []
           (foldl (λ ep op, bulkheadStep "add" op ep)
              (endpointWith "add" (λ _, Ok None)
                 {| b_enabled := None; b_maxConcurrentRequests := given 1;
                    b_maxQueueSize := None; b_queueTimeout := None |})
              [OpAcquire; OpAcquire])).
  - split.
    + vm_compute. by split.
    + apply Forall_cons. split; [by exists 0%nat|apply Forall_nil_2].
  - reflexivity.
  - reflexivity.
  - reflexivity.
  - reflexivity.
  - apply (bool_decide_unpack _). by vm_compute.
  - reflexivity.
Defined.

(** ** The body of an inbound request *)

Lemma receiveBody_cons startTime ev evs st ep :
  receiveBody startTime (ev :: evs) st ep
  = let step := inboundStep startTime ev st ep in
    let later := receiveBody startTime evs step.1.2 step.2 in
    (option_list step.1.1 ++ later.1.1, later.1.2, later.2).
Proof.
  simpl. destruct (inboundStep startTime ev st ep) as [[reply st1] ep1]. simpl.
  by destruct (receiveBody startTime evs st1 ep1) as [[replies st2] ep2].
Qed.

Lemma receiveBody_data startTime chunks : ∀ st ep,
  requestProcessed st
  = (DEFAULTS.MAX_REQUEST_SIZE <? Z.of_nat (String.length (receivedBody st))) →
  let r := receiveBody startTime (map (λ c : string * Z, BodyData c.1 c.2) chunks) st ep in
  receivedBody r.1.2 = receivedBody st +:+ concatChunks chunks.*1
  ∧ requestProcessed r.1.2
    = (DEFAULTS.MAX_REQUEST_SIZE <? Z.of_nat (String.length (receivedBody r.1.2)))
  ∧ length r.1.1
    = (if requestProcessed st then 0 else if requestProcessed r.1.2 then 1 else 0)%nat
  ∧ Forall (λ reply, statusCode reply = 413) r.1.1
  ∧ requestCount (metrics r.2) = requestCount (metrics ep) + Z.of_nat (length r.1.1)
  ∧ (requestProcessed st = true → requestProcessed r.1.2 = true).
Proof.
  induction chunks as [|[chunk now] chunks IH]; intros st ep Hinv r; subst r.
  { simpl. rewrite append_empty_r. split; [done|]. split; [done|].
    split; [by destruct (requestProcessed st)|]. split; [constructor|].
    split; [lia|done]. }
  rewrite map_cons, receiveBody_cons. cbn [inboundStep fst snd].
  set (step := onData chunk startTime now st ep).
  assert (receivedBody step.1.2 = receivedBody st +:+ chunk
          ∧ requestProcessed step.1.2
            = (DEFAULTS.MAX_REQUEST_SIZE
               <? Z.of_nat (String.length (receivedBody step.1.2)))
          ∧ length (option_list step.1.1)
            = (if requestProcessed st then 0
               else if requestProcessed step.1.2 then 1 else 0)%nat
          ∧ Forall (λ reply, statusCode reply = 413) (option_list step.1.1)
          ∧ requestCount (metrics step.2)
            = requestCount (metrics ep) + Z.of_nat (length (option_list step.1.1))
          ∧ (requestProcessed st = true → requestProcessed step.1.2 = true))
    as (Hbody & Hinv1 & Hlen1 & Hall1 & Hcount1 & Hmono).
  { subst step. unfold onData.
    pose proof (length_append_string (receivedBody st) chunk) as Hgrow.
    destruct (Z.ltb_spec DEFAULTS.MAX_REQUEST_SIZE
                (Z.of_nat (String.length (receivedBody st +:+ chunk)))) as [Hbig|Hsmall].
    - assert ((DEFAULTS.MAX_REQUEST_SIZE
               <? Z.of_nat (String.length (receivedBody st +:+ chunk))) = true) as Hltb
        by (by apply Z.ltb_lt).
      destruct (requestProcessed st) eqn:Hdone; simpl.
      + rewrite ?Hltb. split; [done|]. split; [done|]. split; [done|].
        split; [constructor|]. split; [lia|done].
      + rewrite ?Hltb. split; [done|]. split; [done|]. split; [done|].
        split; [by repeat constructor|]. split; [lia|done].
    - assert ((DEFAULTS.MAX_REQUEST_SIZE
               <? Z.of_nat (String.length (receivedBody st +:+ chunk))) = false) as Hltb
        by (by apply Z.ltb_ge).
      assert (requestProcessed st = false) as Hdone.
      { rewrite Hinv. apply Z.ltb_ge. lia. }
      rewrite Hdone. simpl. rewrite ?Hltb. split; [done|]. split; [done|].
      split; [done|]. split; [constructor|]. split; [lia|done]. }
  destruct (IH step.1.2 step.2 Hinv1)
    as (Hbody2 & Hinv2 & Hlen2 & Hall2 & Hcount2 & Hmono2).
  set (later := receiveBody startTime _ step.1.2 step.2) in *.
  cbn [fst snd]. split; [|split; [|split; [|split; [|split]]]].
  - rewrite Hbody2, Hbody. cbn [fmap list_fmap concatChunks foldr fst].
    by rewrite append_assoc_string.
  - exact Hinv2.
  - rewrite length_app, Hlen1, Hlen2.
    destruct (requestProcessed st) eqn:Hdone.
    + by rewrite (Hmono eq_refl).
    + destruct (requestProcessed step.1.2); [by rewrite (Hmono2 eq_refl)|].
      by destruct (requestProcessed later.1.2).
  - by apply Forall_app.
  - rewrite Hcount2, Hcount1, length_app. lia.
  - intros Hdone. apply Hmono2, Hmono, Hdone.
Qed.

(** X23.  While the body of a request streams in without a stream
    error, the listener accumulates every chunk and answers exactly
    when the accumulated text has grown beyond [MAX_REQUEST_SIZE]
    characters: then once, with status 413, counted as one request,
    and the flag that makes the ['end'] listener return at once is set;
    a body of at most [MAX_REQUEST_SIZE] characters is passed on
    unanswered. *)
Theorem oversized_body_is_answered_once (startTime : Z) (chunks : list (string * Z))
    (ep : Endpoint) :
  let r :=
    receiveBody startTime (map (λ c : string * Z, BodyData c.1 c.2) chunks)
      startInbound ep in
  let oversized :=
    DEFAULTS.MAX_REQUEST_SIZE <? Z.of_nat (String.length (concatChunks chunks.*1)) in
  receivedBody r.1.2 = concatChunks chunks.*1
  ∧ requestProcessed r.1.2 = oversized
  ∧ length r.1.1 = (if oversized then 1 else 0)%nat
  ∧ Forall (λ reply, statusCode reply = 413) r.1.1
  ∧ requestCount (metrics r.2) = requestCount (metrics ep) + (if oversized then 1 else 0).
Proof.
  intros r oversized.
  destruct (receiveBody_data startTime chunks startInbound ep eq_refl)
    as (Hbody & Hinv & Hlen & Hall & Hcount & _).
  fold r in Hbody, Hinv, Hlen, Hall, Hcount.
  change (receivedBody startInbound +:+ concatChunks chunks.*1)
    with (concatChunks chunks.*1) in Hbody.
  change (requestProcessed startInbound) with false in Hlen.
  rewrite Hbody in Hinv. fold oversized in Hinv.
  rewrite Hinv in Hlen. rewrite Hcount, Hlen.
  repeat split; try done. by destruct oversized.
Qed.

Lemma receiveBody_replies startTime evs : ∀ st ep,
  let r := receiveBody startTime evs st ep in
  (r.1.1 = [] ∧ r.2 = ep ∧ requestProcessed r.1.2 = requestProcessed st)
  ∨ (requestProcessed st = false
     ∧ ∃ reply now,
         r.1.1 = [reply]
         ∧ (statusCode reply = 400 ∨ statusCode reply = 413)
         ∧ requestProcessed r.1.2 = true
         ∧ r.2 = set_metrics (updateMetrics (now - startTime) true (metrics ep)) ep).
Proof.
  induction evs as [|ev evs IH]; intros st ep r; subst r; [by left|].
  rewrite receiveBody_cons. cbn [fst snd].
  set (step := inboundStep startTime ev st ep).
  assert ((step.1.1 = None ∧ step.2 = ep
           ∧ requestProcessed step.1.2 = requestProcessed st)
          ∨ (requestProcessed st = false
             ∧ ∃ reply now,
                 step.1.1 = Some reply
                 ∧ (statusCode reply = 400 ∨ statusCode reply = 413)
                 ∧ requestProcessed step.1.2 = true
                 ∧ step.2 = set_metrics (updateMetrics (now - startTime) true (metrics ep))
                              ep)) as Hstep.
  { subst step. destruct ev as [chunk now|error now]; simpl.
    - unfold onData.
      destruct (DEFAULTS.MAX_REQUEST_SIZE <? _); [|by left].
      destruct (requestProcessed st); simpl; [by left|].
      right. split; [done|]. eexists _, now. repeat split. by right.
    - unfold onStreamError.
      destruct (requestProcessed st) eqn:Hdone; simpl; [by left|].
      right. split; [done|]. eexists _, now. repeat split. by left. }
  specialize (IH step.1.2 step.2). cbn zeta in IH.
  set (later := receiveBody startTime evs step.1.2 step.2) in *.
  destruct Hstep as [(Hnone & Hep & Hflag)|(Hflag & reply & now & Hsome & Hstatus & Hdone & Hep)].
  - rewrite Hnone. simpl. rewrite Hep, Hflag in IH. exact IH.
  - rewrite Hsome. simpl. right. split; [done|]. exists reply, now.
    destruct IH as [(Hnil & Hep2 & Hflag2)|(Hcontra & _)]; [|congruence].
    rewrite Hnil, Hep2, Hflag2. by repeat split.
Qed.

(** X24.  A request is answered at most once while its body streams
    in, whatever chunks and stream errors arrive in whatever order:
    either nothing is sent and the endpoint is untouched, or exactly one
    reply is sent, with status 400 or 413 and counted as one failed
    request, and then the ['end'] listener returns at once, so the
    handler does not run and no second reply follows. *)
Theorem streaming_request_answered_at_most_once
    (JSON_parse : string → Res string Json)
    (readThrough : Handler → string → Res JsError (option Handler))
    (objectPrototypeMember : string → Handler)
    (pathname : string) (authResult : AuthResult)
    (startTime nowEnd : Z) (evs : list InboundEvent) (ep : Endpoint) :
  let r := receiveBody startTime evs startInbound ep in
  let ended :=
    onEnd JSON_parse readThrough objectPrototypeMember pathname authResult
      (receivedBody r.1.2) (requestProcessed r.1.2) startTime nowEnd r.2 in
  (r.1.1 = [] ∧ r.2 = ep ∧ requestProcessed r.1.2 = false)
  ∨ (∃ reply,
       r.1.1 = [reply]
       ∧ (statusCode reply = 400 ∨ statusCode reply = 413)
       ∧ ended = (EndIgnored, r.2)
       ∧ requestCount (metrics r.2) = requestCount (metrics ep) + 1
       ∧ errorCount (metrics r.2) = errorCount (metrics ep) + 1
       ∧ bulkheadMethods r.2 = bulkheadMethods ep).
Proof.
  intros r ended.
  destruct (receiveBody_replies startTime evs startInbound ep)
    as [(Hnil & Hep & Hflag)|(_ & reply & now & Hone & Hstatus & Hdone & Hep)].
  - left. by repeat split.
  - right. exists reply. fold r in Hone, Hdone, Hep.
    subst ended. unfold onEnd. rewrite Hdone, Hep. by repeat split.
Qed.

(** ** The ['end'] listener *)

Lemma release_set_metrics methodName m ep :
  releaseMethodBulkheadPermit methodName (set_metrics m ep)
  = set_metrics m (releaseMethodBulkheadPermit methodName ep).
Proof.
  unfold releaseMethodBulkheadPermit. simpl.
  destruct (bulkheadMethods ep !! methodName) as [ms|]; [|done].
  destruct (bulkheadEnabled (config ms)); simpl; [|done].
  destruct (queuedRequests ms) as [|next rest]; [done|].
  by destruct (resolve next).
Qed.

Lemma metrics_releaseMethodBulkheadPermit methodName ep :
  metrics (releaseMethodBulkheadPermit methodName ep) = metrics ep.
Proof.
  unfold releaseMethodBulkheadPermit.
  destruct (bulkheadMethods ep !! methodName) as [ms|]; [|done].
  destruct (bulkheadEnabled (config ms)); simpl; [|done].
  destruct (queuedRequests ms) as [|next rest]; [done|].
  by destruct (resolve next).
Qed.

(** X25.  Serving a request gives its permit back.  When the method is
    admitted at once while nobody waits, the handler runs and, whether
    it returns or throws, the bulkhead, the admission promises and the
    queue timers are afterwards exactly as before the request; the
    reply is 200 when the handler returned and 500 when it threw, and
    exactly one request is counted, as an error in the second case. *)
Theorem served_request_returns_its_permit (pathname : string) (method : Handler)
    (params : Json) (startTime now : Z) (ep : Endpoint)
    (Hadmitted : (acquireMethodBulkheadPermit pathname ep).1 = Acquired)
    (Hnobody : waiting pathname ep = []) :
  let r :=
    onAdmitted pathname method params startTime now
      (acquireMethodBulkheadPermit pathname ep).2 in
  r.2 = set_metrics (updateMetrics (now - startTime) (threw (method params)) (metrics ep)) ep
  ∧ statusCode r.1 = (if threw (method params) then 500 else 200).
Proof.
  intros r; subst r. unfold onAdmitted.
  pose proof (releaseMethodBulkheadPermit_acquire pathname ep Hadmitted Hnobody) as Hback.
  destruct (method params) as [result|error]; simpl.
  - rewrite release_set_metrics, Hback. split; [|done].
    by rewrite <- (metrics_releaseMethodBulkheadPermit pathname), Hback.
  - by rewrite Hback.
Qed.

Lemma served_request_returns_its_permit_witness :
  let ep := endpointWith "add" (λ _, Ok None) noBulkheadOptions in
  let method : Handler := λ _, Throw (newError "boom") in
  let r := onAdmitted "add" method (JObj []) 10 25 (acquireMethodBulkheadPermit "add" ep).2 in
  r.2 = set_metrics (updateMetrics (25 - 10) (threw (method (JObj []))) (metrics ep)) ep
  ∧ statusCode r.1 = (if threw (method (JObj [])) then 500 else 200).
Proof.
  apply (served_request_returns_its_permit "add" (λ _, Throw (newError "boom")) (JObj [])
           10 25 (endpointWith "add" (λ _, Ok None) noBulkheadOptions)).
  - reflexivity.
  - reflexivity.
Defined.

Lemma acquire_refused methodName e ep ep' :
  acquireMethodBulkheadPermit methodName ep = (Refused e, ep') →
  promises ep' = promises ep ∧ queueTimers ep' = queueTimers ep
  ∧ requestCount (metrics ep') = requestCount (metrics ep)
  ∧ errorCount (metrics ep') = errorCount (metrics ep)
  ∧ ∀ name,
      activeRequests <$> bulkheadMethods ep' !! name
      = activeRequests <$> bulkheadMethods ep !! name
      ∧ queuedRequests <$> bulkheadMethods ep' !! name
        = queuedRequests <$> bulkheadMethods ep !! name.
Proof.
  unfold acquireMethodBulkheadPermit.
  destruct (bulkheadMethods ep !! methodName) as [ms|] eqn:Hms; [|done].
  destruct (bulkheadEnabled (config ms)); simpl; [|done].
  destruct (belowLimit (activeRequests ms) (maxConcurrentRequests (config ms))); simpl; [done|].
  destruct (belowLimit (Z.of_nat (length (queuedRequests ms)))
              (maxQueueSize (config ms))); simpl;
    [done|].
  intros [= _ <-]. simpl. repeat split; try done.
  - destruct (decide (name = methodName)) as [->|Hne].
    + by rewrite lookup_insert_eq, Hms.
    + by rewrite lookup_insert_ne.
  - destruct (decide (name = methodName)) as [->|Hne].
    + by rewrite lookup_insert_eq, Hms.
    + by rewrite lookup_insert_ne.
Qed.

(** X26.  When the ['end'] listener itself answers a request, that
    request holds no permit and has admitted or queued nobody.  The
    reply is 404, listing [Object.keys(this._methods)], exactly when the
    read [this._methods[pathname]] yields a falsy value, which under
    the prototype [Object.prototype] is when the name is neither a
    registered method nor a name of [Object.prototype]; it is 500 when
    that read throws, and else 400, 500 or 503.  It is counted as one
    failed request; and the active and queued requests of every method,
    the admission promises and the queue timers are as before. *)
Theorem end_listener_replies_hold_no_permit
    (JSON_parse : string → Res string Json)
    (readThrough : Handler → string → Res JsError (option Handler))
    (objectPrototypeMember : string → Handler)
    (pathname : string) (authResult : AuthResult)
    (body : string) (startTime now : Z) (ep ep' : Endpoint) (reply : Response)
    (Hreplied : onEnd JSON_parse readThrough objectPrototypeMember pathname authResult
                  body false startTime now ep
                = (EndReplied reply, ep')) :
  (match getMethod readThrough objectPrototypeMember (_methods ep) pathname with
   | Ok None =>
       statusCode reply = 404
       ∧ bodyField "availableMethods" reply
         = Some (JArr (JStr <$> objectKeys (_methods ep)))
   | Throw _ => statusCode reply = 500
   | Ok (Some _) => statusCode reply = 400 ∨ statusCode reply = 500 ∨ statusCode reply = 503
   end)
  ∧ (protoHandler (_methods ep) = None →
     (statusCode reply = 404
      ↔ lookupOwn pathname (ownMethods (_methods ep)) = None
        ∧ pathname ∉ objectPrototypeNames))
  ∧ requestCount (metrics ep') = requestCount (metrics ep) + 1
  ∧ errorCount (metrics ep') = errorCount (metrics ep) + 1
  ∧ promises ep' = promises ep ∧ queueTimers ep' = queueTimers ep
  ∧ ∀ name,
      activeRequests <$> bulkheadMethods ep' !! name
      = activeRequests <$> bulkheadMethods ep !! name
      ∧ queuedRequests <$> bulkheadMethods ep' !! name
        = queuedRequests <$> bulkheadMethods ep !! name.
Proof.
  assert (Hdefault : protoHandler (_methods ep) = None →
            match getMethod readThrough objectPrototypeMember (_methods ep) pathname with
            | Ok None => lookupOwn pathname (ownMethods (_methods ep)) = None
                         ∧ pathname ∉ objectPrototypeNames
            | Ok (Some _) => ¬ (lookupOwn pathname (ownMethods (_methods ep)) = None
                                ∧ pathname ∉ objectPrototypeNames)
            | Throw _ => False
            end).
  { intros Hproto. unfold getMethod. rewrite Hproto.
    destruct (lookupOwn pathname _); [by intros [? _]|].
    destruct (decide (pathname ∈ objectPrototypeNames)) as [Hin|Hout].
    - rewrite bool_decide_eq_true_2 by done. by intros [_ ?].
    - by rewrite bool_decide_eq_false_2. }
  revert Hreplied. unfold onEnd.
  destruct (getMethod readThrough objectPrototypeMember (_methods ep) pathname)
    as [[method|]|error].
  3:{ intros [= <- <-]. simpl. repeat split; try done; intros; exfalso; tauto. }
  2:{ intros [= <- <-]. simpl. repeat split; try done; tauto. }
  assert (∀ status, status ≠ 404 →
            protoHandler (_methods ep) = None →
            status = 404
            ↔ lookupOwn pathname (ownMethods (_methods ep)) = None
              ∧ pathname ∉ objectPrototypeNames) as Hfound.
  { intros status Hstatus Hproto. split; [done|]. intros Hnone. by apply Hdefault in Hnone. }
  destruct (if String.eqb body "" then Ok (JObj []) else JSON_parse body)
    as [params|parseError].
  2:{ intros [= <- <-]. simpl. repeat split; try done; [by left|by apply Hfound]. }
  destruct (bindRes _ _) as [params'|typeError].
  2:{ intros [= <- <-]. simpl.
      repeat split; try done; [right; by left|by apply Hfound]. }
  destruct (acquireMethodBulkheadPermit pathname ep) as [[|p|e] ep1] eqn:Hacquire;
    [done|done|].
  intros [= <- <-]. simpl.
  destruct (acquire_refused _ _ _ _ Hacquire) as (Hp & Ht & Hr & He & Hb).
  rewrite Hp, Ht, Hr, He.
  repeat split; try done; try apply Hb; [right; by right|by apply Hfound].
Qed.

Lemma end_listener_replies_hold_no_permit_witness :
  let ep := endpointWith "add" (λ _, Ok None) noBulkheadOptions in
  let readThrough : Handler → string → Res JsError (option Handler) := λ _ _, Ok None in
  let objectPrototypeMember : string → Handler := λ _ params, Ok (Some params) in
  let ended := onEnd (λ _, Throw "Unexpected token"%string) readThrough
                 objectPrototypeMember "toString"
                 {| authorized := true; auth_error := None; user := None |}
                 "{oops" false 10 25 ep in
  ∃ reply ep',
    ended = (EndReplied reply, ep')
    ∧ (match getMethod readThrough objectPrototypeMember (_methods ep) "toString" with
       | Ok None =>
           statusCode reply = 404
           ∧ bodyField "availableMethods" reply
             = Some (JArr (JStr <$> objectKeys (_methods ep)))
       | Throw _ => statusCode reply = 500
       | Ok (Some _) =>
           statusCode reply = 400 ∨ statusCode reply = 500 ∨ statusCode reply = 503
       end)
    ∧ (protoHandler (_methods ep) = None →
       (statusCode reply = 404
        ↔ lookupOwn "toString" (ownMethods (_methods ep)) = None
          ∧ "toString" ∉ objectPrototypeNames))
    ∧ requestCount (metrics ep') = requestCount (metrics ep) + 1
    ∧ errorCount (metrics ep') = errorCount (metrics ep) + 1
    ∧ promises ep' = promises ep ∧ queueTimers ep' = queueTimers ep
    ∧ ∀ name,
        activeRequests <$> bulkheadMethods ep' !! name
        = activeRequests <$> bulkheadMethods ep !! name
        ∧ queuedRequests <$> bulkheadMethods ep' !! name
          = queuedRequests <$> bulkheadMethods ep !! name.
Proof.
  eexists _, _. split; [reflexivity|].
  apply (end_listener_replies_hold_no_permit (λ _, Throw "Unexpected token"%string)
           (λ _ _, Ok None) (λ _ params, Ok (Some params)) "toString"
           {| authorized := true; auth_error := None; user := None |}
           "{oops" 10 25 (endpointWith "add" (λ _, Ok None) noBulkheadOptions)).
  reflexivity.
Defined.

(** A path that names a member of [Object.prototype] is not answered
    with 404 although no such method is registered: the member is
    called as the handler; and a body of [null] is answered with 500
    before any permit is asked for. *)
Example end_listener_finds_prototype_members :
  let ep := endpointWith "add" (λ _, Ok None) noBulkheadOptions in
  let anonymous := {| authorized := true; auth_error := None; user := None |} in
  let readThrough : Handler → string → Res JsError (option Handler) := λ _ _, Ok None in
  let objectPrototypeMember : string → Handler := λ _ params, Ok (Some params) in
  let parse : string → Res string Json := λ _, Ok JNull in
  let listen pathname body :=
    (onEnd parse readThrough objectPrototypeMember pathname anonymous body false 10 25
       ep).1 in
  listen "toString" "" = EndInvoke (objectPrototypeMember "toString") (JObj [])
  ∧ (∃ reply, listen "missing" "" = EndReplied reply ∧ statusCode reply = 404
              ∧ bodyField "availableMethods" reply = Some (JArr [JStr "add"]))
  ∧ (∃ reply, listen "add" "null" = EndReplied reply ∧ statusCode reply = 500
              ∧ bodyField "details" reply
                = Some (JStr "Cannot convert undefined or null to object")).
Proof.
  split; [reflexivity|]. split; eexists; (split; [reflexivity|]); by vm_compute.
Qed.

Lemma lookup_field_setField k v fields :
  lookup_field k (setField k v fields) = Some v.
Proof.
  induction fields as [|[k' v'] fields IH]; simpl; [by rewrite String.eqb_refl|].
  destruct (String.eqb k' k) eqn:Hk; simpl; [by rewrite String.eqb_refl|].
  by rewrite Hk.
Qed.

Lemma lookup_field_setField_ne k k' v fields :
  k' ≠ k → lookup_field k' (setField k v fields) = lookup_field k' fields.
Proof.
  intros Hne. induction fields as [|[k0 v0] fields IH]; simpl.
  - destruct (String.eqb_spec k k'); [congruence|done].
  - destruct (String.eqb_spec k0 k) as [->|Hk0]; simpl.
    + destruct (String.eqb_spec k k'); [congruence|done].
    + by destruct (String.eqb k0 k').
Qed.

(** X27.  A client cannot choose its own [_user].  When the request is
    authenticated, the parameters the handler is called with, if they
    are an object, carry the verified claims of the token under
    [_user], whatever [_user] the body held; every other key is as the
    client sent it. *)
Theorem verified_claims_replace_client_user
    (JSON_parse : string → Res string Json)
    (readThrough : Handler → string → Res JsError (option Handler))
    (objectPrototypeMember : string → Handler)
    (pathname : string) (authResult : AuthResult)
    (body : string) (startTime now : Z) (ep : Endpoint) (claims : Json)
    (fields : list (string * Json))
    (Huser : user authResult = Some claims)
    (Htruthy : truthy (Some claims) = true)
    (Hhanded : handedParams
                 (onEnd JSON_parse readThrough objectPrototypeMember pathname authResult
                    body false startTime now ep).1
               = Some (JObj fields)) :
  lookup_field "_user" fields = Some claims
  ∧ ∃ sent,
      (if String.eqb body "" then Ok (JObj []) else JSON_parse body) = Ok (JObj sent)
      ∧ ∀ k, k ≠ "_user"%string → lookup_field k fields = lookup_field k sent.
Proof.
  revert Hhanded. unfold onEnd.
  destruct (getMethod readThrough objectPrototypeMember (_methods ep) pathname)
    as [[method|]|error]; [|done..].
  destruct (if String.eqb body "" then Ok (JObj []) else JSON_parse body)
    as [params|parseError]; [|done].
  rewrite Huser, Htruthy. simpl.
  destruct params as [| | | | |sent]; simpl; try done.
  - destruct (acquireMethodBulkheadPermit pathname ep) as [[|p|e] ep1]; done.
  - assert (JObj (setField "_user" claims sent) = JObj fields →
            lookup_field "_user" fields = Some claims
            ∧ ∃ sent0, (Ok (JObj sent) : Res string Json) = Ok (JObj sent0)
                ∧ ∀ k, k ≠ "_user"%string → lookup_field k fields = lookup_field k sent0)
      as Hinjected.
    { intros [= <-]. split; [apply lookup_field_setField|].
      exists sent. split; [done|]. intros k Hk. by apply lookup_field_setField_ne. }
    destruct (acquireMethodBulkheadPermit pathname ep) as [[|p|e] ep1]; simpl;
      [intros [= Heq]; apply Hinjected; by rewrite Heq
      |intros [= Heq]; apply Hinjected; by rewrite Heq
      |done].
Qed.

Lemma verified_claims_replace_client_user_witness :
  let ep := endpointWith "add" (λ _, Ok None) noBulkheadOptions in
  let claims := JObj [("sub", JStr "alice")] in
  let sent := [("_user", JObj [("sub", JStr "root")]); ("a", JNum 1)] in
  let fields := [("_user", claims); ("a", JNum 1)] in
  lookup_field "_user" fields = Some claims
  ∧ ∃ sent0,
      (if String.eqb "{}" "" then Ok (JObj [])
       else (λ _ : string, Ok (JObj sent) : Res string Json) "{}")
      = Ok (JObj sent0)
      ∧ ∀ k, k ≠ "_user"%string → lookup_field k fields = lookup_field k sent0.
Proof.
  apply (verified_claims_replace_client_user
           (λ _, Ok (JObj [("_user", JObj [("sub", JStr "root")]); ("a", JNum 1)]))
           (λ _ _, Ok None) (λ _ _, Ok None) "add"
           {| authorized := true; auth_error := None;
              user := Some (JObj [("sub", JStr "alice")]) |}
           "{}" 10 25 (endpointWith "add" (λ _, Ok None) noBulkheadOptions)
           (JObj [("sub", JStr "alice")])
           [("_user", JObj [("sub", JStr "alice")]); ("a", JNum 1)]).
  - reflexivity.
  - reflexivity.
  - reflexivity.
Defined.

(** ** What an accepted token has passed *)

Lemma strictNe_false a b : strictNe a b = false → a = Some (JStr b).
Proof.
  destruct a as [[| | |s| |]|]; simpl; try done.
  destruct (String.eqb_spec s b) as [->|]; done.
Qed.

Lemma default_nonempty_lookup (segments : list string) (i : nat) :
  String.eqb (default ""%string (segments !! i)) "" = false →
  ∃ segment, segments !! i = Some segment ∧ segment ≠ ""%string.
Proof.
  destruct (segments !! i) as [segment|]; simpl; [|done].
  destruct (String.eqb_spec segment ""); [done|]. by exists segment.
Qed.

Lemma getProp_Ok_propOf v k x : getProp v k = Ok x → propOf v k = x.
Proof. unfold propOf. by intros ->. Qed.

(** X28.  [#validateJWT] accepts nothing it has not checked.  Whatever
    the codecs do, a token is accepted with claims [payload] only if
    authentication is on with a non-empty public key, the token's first
    three segments are non-empty, the first two decode to a header with
    [alg] equal to RS256 and to [payload], the signature over
    [header.payload] verified under the key, [exp] is not in the past
    and [nbf] not in the future when they are present, and the
    configured issuer and audience are the token's. *)
Theorem accepted_token_passed_every_check
    (decodeSegment : string → Res string Json)
    (rsaSha256Verify : string → string → string → Res string bool)
    (coerceNumber : Json → option Z)
    (auth : AuthSettings) (token : string) (nowMs : Z) (payload : Json)
    (Haccepted : validateJWT decodeSegment rsaSha256Verify coerceNumber auth token nowMs
                 = Valid payload) :
  ∃ key headerB64 payloadB64 signatureB64 header,
    jwtAuth auth = true ∧ jwtPublicKey auth = Some key ∧ key ≠ ""%string
    ∧ splitDot token !! 0%nat = Some headerB64 ∧ headerB64 ≠ ""%string
    ∧ splitDot token !! 1%nat = Some payloadB64 ∧ payloadB64 ≠ ""%string
    ∧ splitDot token !! 2%nat = Some signatureB64 ∧ signatureB64 ≠ ""%string
    ∧ decodeSegment headerB64 = Ok header
    ∧ decodeSegment payloadB64 = Ok payload
    ∧ propOf header "alg" = Some (JStr "RS256")
    ∧ rsaSha256Verify key (headerB64 +:+ "." +:+ payloadB64) signatureB64 = Ok true
    ∧ truthy (propOf payload "exp") && jsLt coerceNumber (propOf payload "exp") (nowMs / 1000)
      = false
    ∧ truthy (propOf payload "nbf") && jsGt coerceNumber (propOf payload "nbf") (nowMs / 1000)
      = false
    ∧ (∀ issuer, jwtIssuer auth = Some issuer → issuer ≠ ""%string →
         propOf payload "iss" = Some (JStr issuer))
    ∧ (∀ audience, jwtAudience auth = Some audience → audience ≠ ""%string →
         propOf payload "aud" = Some (JStr audience)).
Proof.
  revert Haccepted. unfold validateJWT.
  destruct (jwtAuth auth) eqn:Hauth; simpl; [|done].
  destruct (jwtPublicKey auth) as [key|] eqn:Hkey; simpl; [|done].
  destruct (String.eqb_spec key "") as [|Hkey_ne]; simpl; [done|].
  unfold validateJWT_try.
  destruct (String.eqb (default ""%string (splitDot token !! 0%nat)) "") eqn:H0;
    simpl; [done|].
  destruct (String.eqb (default ""%string (splitDot token !! 1%nat)) "") eqn:H1;
    simpl; [done|].
  destruct (String.eqb (default ""%string (splitDot token !! 2%nat)) "") eqn:H2;
    simpl; [done|].
  destruct (default_nonempty_lookup _ _ H0) as (headerB64 & Hh & Hh_ne).
  destruct (default_nonempty_lookup _ _ H1) as (payloadB64 & Hp & Hp_ne).
  destruct (default_nonempty_lookup _ _ H2) as (signatureB64 & Hs & Hs_ne).
  rewrite Hh, Hp, Hs. simpl.
  destruct (decodeSegment headerB64) as [header|] eqn:Hheader; simpl; [|done].
  destruct (decodeSegment payloadB64) as [claims|] eqn:Hclaims; simpl; [|done].
  destruct (getProp header "alg") as [alg|] eqn:Halg; simpl; [|done].
  destruct (getProp claims "iss") as [iss|] eqn:Hiss; simpl; [|done].
  destruct (getProp claims "aud") as [aud|] eqn:Haud; simpl; [|done].
  destruct (getProp claims "exp") as [exp|] eqn:Hexp; simpl; [|done].
  destruct (if truthy exp then _ else _) as [[]|]; simpl; [|done].
  destruct (getProp claims "nbf") as [nbf|] eqn:Hnbf; simpl; [|done].
  destruct (if truthy nbf then _ else _) as [[]|]; simpl; [|done].
  destruct (strictNe alg DEFAULTS.JWT_ALGORITHM) eqn:Hrs256; [done|].
  destruct (rsaSha256Verify key _ signatureB64) as [[|]|] eqn:Hverify; simpl;
    [|done|done].
  destruct (truthy exp && jsLt coerceNumber exp (nowMs / 1000)) eqn:Hnot_expired; [done|].
  destruct (truthy nbf && jsGt coerceNumber nbf (nowMs / 1000)) eqn:Hnot_early; [done|].
  destruct (isSet (jwtIssuer auth) && strictNe iss (default ""%string (jwtIssuer auth)))
    eqn:Hissuer; [done|].
  destruct (isSet (jwtAudience auth) && strictNe aud (default ""%string (jwtAudience auth)))
    eqn:Haudience; [done|].
  intros [= <-].
  exists key, headerB64, payloadB64, signatureB64, header.
  rewrite (getProp_Ok_propOf _ _ _ Halg), (getProp_Ok_propOf _ _ _ Hexp),
    (getProp_Ok_propOf _ _ _ Hnbf), (getProp_Ok_propOf _ _ _ Hiss),
    (getProp_Ok_propOf _ _ _ Haud).
  repeat (split; [done|]).
  split; [by apply strictNe_false|].
  repeat (split; [done|]).
  split.
  - intros issuer Hset Hne. rewrite Hset in Hissuer. simpl in Hissuer.
    destruct (String.eqb_spec issuer ""); [done|]. by apply strictNe_false.
  - intros audience Hset Hne. rewrite Hset in Haudience. simpl in Haudience.
    destruct (String.eqb_spec audience ""); [done|]. by apply strictNe_false.
Qed.

Lemma accepted_token_passed_every_check_witness :
  let decodeSegment : string → Res string Json :=
    λ segment, if String.eqb segment "h" then Ok (JObj [("alg", JStr "RS256")])
               else Ok (JObj [("sub", JStr "alice"); ("exp", JNum 200)]) in
  let rsaSha256Verify : string → string → string → Res string bool :=
    λ key signed signature, Ok (String.eqb signed "h.p") in
  let coerceNumber : Json → option Z := λ _, None in
  let auth :=
    {| jwtAuth := true; jwtPublicKey := Some "PUBLIC KEY"%string; jwtIssuer := None;
       jwtAudience := None; excludedPaths := ∅ |} in
  let payload := JObj [("sub", JStr "alice"); ("exp", JNum 200)] in
  ∃ key headerB64 payloadB64 signatureB64 header,
    jwtAuth auth = true ∧ jwtPublicKey auth = Some key ∧ key ≠ ""%string
    ∧ splitDot "h.p.s" !! 0%nat = Some headerB64 ∧ headerB64 ≠ ""%string
    ∧ splitDot "h.p.s" !! 1%nat = Some payloadB64 ∧ payloadB64 ≠ ""%string
    ∧ splitDot "h.p.s" !! 2%nat = Some signatureB64 ∧ signatureB64 ≠ ""%string
    ∧ decodeSegment headerB64 = Ok header
    ∧ decodeSegment payloadB64 = Ok payload
    ∧ propOf header "alg" = Some (JStr "RS256")
    ∧ rsaSha256Verify key (headerB64 +:+ "." +:+ payloadB64) signatureB64 = Ok true
    ∧ truthy (propOf payload "exp")
      && jsLt coerceNumber (propOf payload "exp") (100000 / 1000) = false
    ∧ truthy (propOf payload "nbf")
      && jsGt coerceNumber (propOf payload "nbf") (100000 / 1000) = false
    ∧ (∀ issuer, jwtIssuer auth = Some issuer → issuer ≠ ""%string →
         propOf payload "iss" = Some (JStr issuer))
    ∧ (∀ audience, jwtAudience auth = Some audience → audience ≠ ""%string →
         propOf payload "aud" = Some (JStr audience)).
Proof.
  apply (accepted_token_passed_every_check
           (λ segment, if String.eqb segment "h" then Ok (JObj [("alg", JStr "RS256")])
                       else Ok (JObj [("sub", JStr "alice"); ("exp", JNum 200)]))
           (λ key signed signature, Ok (String.eqb signed "h.p"))
           (λ _, None)
           {| jwtAuth := true; jwtPublicKey := Some "PUBLIC KEY"%string; jwtIssuer := None;
              jwtAudience := None; excludedPaths := ∅ |}
           "h.p.s" 100000 (JObj [("sub", JStr "alice"); ("exp", JNum 200)])).
  reflexivity.
Defined.

(** ** Admission of an inbound request *)



(** ** Replacing the registry *)

Section SetterFacts.

Variable readThrough : Handler → string → Res JsError (option Handler).
Variable writeThrough : Handler → string → Res JsError Assigned.

Lemma addMethod_default name handler ep :
  isNonEmptyString name = true → protoHandler (_methods ep) = None → name ≠ "__proto__" →
  addMethod readThrough writeThrough name handler noBulkheadOptions ep
  = (None,
     set_methods
       {| ownMethods := setOwn name handler (ownMethods (_methods ep));
          protoHandler := None |}
       (set_bulkheadMethods
          (<[name := {| config := storedConfig defaultConfig; activeRequests := 0;
                        queuedRequests := []; rejectedRequests := 0 |}]>
             (bulkheadMethods ep))
          ep)).
Proof.
  intros Hname Hproto Hne. apply String.eqb_neq in Hne.
  unfold addMethod, probeMethod, assignMethod. rewrite Hname. cbn [negb].
  cbn [_methods set_bulkheadMethods]. rewrite Hproto, Hne.
  by destruct (lookupOwn name (ownMethods (_methods ep))).
Qed.

Lemma addMethods_registers entries : ∀ ep,
  Forall (λ entry : string * Handler, isNonEmptyString entry.1 = true) entries →
  "__proto__" ∉ entries.*1 →
  protoHandler (_methods ep) = None →
  let r := addMethods readThrough writeThrough entries ep in
  r.1 = None
  ∧ protoHandler (_methods r.2) = None
  ∧ (∀ name, name ∉ entries.*1 →
       lookupOwn name (ownMethods (_methods r.2))
       = lookupOwn name (ownMethods (_methods ep))
       ∧ bulkheadMethods r.2 !! name = bulkheadMethods ep !! name)
  ∧ (∀ name, name ∈ entries.*1 →
       (∃ handler, (name, handler) ∈ entries
                   ∧ lookupOwn name (ownMethods (_methods r.2)) = Some handler)
       ∧ getMethodBulkheadStatus name r.2
         = inr {| status_methodName := name; status_config := storedConfig defaultConfig;
                  status_activeRequests := 0; status_queuedRequests := 0;
                  status_rejectedRequests := 0 |}).
Proof.
  induction entries as [|[name handler] entries IH]; intros ep Hnames Hplain Hproto r;
    subst r.
  { simpl. do 3 (split; [done|]). intros name Hin. by apply elem_of_nil in Hin. }
  apply Forall_cons in Hnames as [Hname Hnames]. simpl in Hname.
  rewrite fmap_cons, not_elem_of_cons in Hplain. destruct Hplain as [Hne Hplain].
  simpl in Hne. apply not_eq_sym in Hne.
  cbn [addMethods]. rewrite (addMethod_default name handler ep Hname Hproto Hne).
  set (registered := set_methods _ _).
  destruct (IH registered Hnames Hplain eq_refl) as (Hnone & Hkept & Hstale & Hfresh).
  cbn zeta in *. split; [done|]. split; [done|]. split.
  - intros other Hother. rewrite fmap_cons, not_elem_of_cons in Hother.
    destruct Hother as [Hother Hrest]. simpl in Hother.
    destruct (Hstale other Hrest) as [-> ->]. subst registered. simpl.
    by rewrite lookupOwn_setOwn_ne, lookup_insert_ne.
  - intros other Hother. rewrite fmap_cons, elem_of_cons in Hother. simpl in Hother.
    destruct (decide (other ∈ entries.*1)) as [Hin|Hnotin].
    { destruct (Hfresh other Hin) as [(h & Hh & Hfound) Hstatus].
      split; [|done]. exists h. split; [by apply list_elem_of_further|done]. }
    destruct Hother as [->|Hin]; [|done].
    destruct (Hstale name Hnotin) as [Hown Hbulkhead]. split.
    + exists handler. split; [by apply list_elem_of_here|].
      rewrite Hown. subst registered. simpl. by apply lookupOwn_setOwn_eq.
    + unfold getMethodBulkheadStatus. rewrite Hbulkhead. subst registered. simpl.
      by rewrite lookup_insert_eq.
Qed.

End SetterFacts.

(** X30.  Assigning [methods] replaces the registry but not the
    bulkheads.  When every name is non-blank and none is [__proto__],
    the setter succeeds; the own properties of [this._methods] are
    exactly the given names, each with one of the handlers given for
    it and a fresh bulkhead of the default limits, and its prototype is
    [Object.prototype]; so under a name not given the dispatcher finds
    a member of [Object.prototype] if it is the name of one and
    nothing otherwise, also for a method that was registered before,
    whose bulkhead entry stays as it was. *)
Theorem methods_setter_replaces_registry
    (readThrough : Handler → string → Res JsError (option Handler))
    (writeThrough : Handler → string → Res JsError Assigned)
    (objectPrototypeMember : string → Handler)
    (entries : list (string * Handler)) (ep : Endpoint)
    (Hnames : Forall (λ entry : string * Handler, isNonEmptyString entry.1 = true) entries)
    (Hplain : "__proto__" ∉ entries.*1) :
  let r := setMethods readThrough writeThrough entries ep in
  let found := getMethod readThrough objectPrototypeMember (_methods r.2) in
  r.1 = None
  ∧ protoHandler (_methods r.2) = None
  ∧ (∀ name, is_Some (lookupOwn name (ownMethods (_methods r.2))) ↔ name ∈ entries.*1)
  ∧ (∀ name, name ∉ entries.*1 →
       found name = (if bool_decide (name ∈ objectPrototypeNames)
                     then Ok (Some (objectPrototypeMember name)) else Ok None)
       ∧ getMethodBulkheadStatus name r.2 = getMethodBulkheadStatus name ep)
  ∧ (∀ name, name ∈ entries.*1 →
       (∃ handler, (name, handler) ∈ entries ∧ found name = Ok (Some handler))
       ∧ getMethodBulkheadStatus name r.2
         = inr {| status_methodName := name; status_config := storedConfig defaultConfig;
                  status_activeRequests := 0; status_queuedRequests := 0;
                  status_rejectedRequests := 0 |}).
Proof.
  intros r found; subst r found. unfold setMethods.
  destruct (addMethods_registers readThrough writeThrough entries
              (set_methods emptyMethods ep) Hnames Hplain eq_refl)
    as (Hnone & Hkept & Hstale & Hfresh).
  cbn zeta in *. split; [done|]. split; [done|]. split; [|split].
  - intros name. destruct (decide (name ∈ entries.*1)) as [Hin|Hout].
    + destruct (Hfresh name Hin) as [(h & _ & ->) _]. by split.
    + destruct (Hstale name Hout) as [-> _]. simpl. split; [by intros [? ?]|done].
  - intros name Hname. destruct (Hstale name Hname) as [Hown Hbulkhead].
    unfold getMethod, getMethodBulkheadStatus. by rewrite Hown, Hkept, Hbulkhead.
  - intros name Hname. destruct (Hfresh name Hname) as [(h & Hh & Hown) Hstatus].
    split; [|done]. exists h. split; [done|]. unfold getMethod. by rewrite Hown.
Qed.

Lemma methods_setter_replaces_registry_witness :
  let ep := endpointWith "old" (λ _, Ok None) noBulkheadOptions in
  let entries : list (string * Handler) := [("add", λ _, Ok None); ("sub", λ _, Ok None)] in
  let readThrough : Handler → string → Res JsError (option Handler) := λ _ _, Ok None in
  let objectPrototypeMember : string → Handler := λ _ params, Ok (Some params) in
  let r := setMethods readThrough (λ _ _, Ok AssignedOwn) entries ep in
  let found := getMethod readThrough objectPrototypeMember (_methods r.2) in
  r.1 = None
  ∧ protoHandler (_methods r.2) = None
  ∧ (∀ name, is_Some (lookupOwn name (ownMethods (_methods r.2))) ↔ name ∈ entries.*1)
  ∧ (∀ name, name ∉ entries.*1 →
       found name = (if bool_decide (name ∈ objectPrototypeNames)
                     then Ok (Some (objectPrototypeMember name)) else Ok None)
       ∧ getMethodBulkheadStatus name r.2 = getMethodBulkheadStatus name ep)
  ∧ (∀ name, name ∈ entries.*1 →
       (∃ handler, (name, handler) ∈ entries ∧ found name = Ok (Some handler))
       ∧ getMethodBulkheadStatus name r.2
         = inr {| status_methodName := name; status_config := storedConfig defaultConfig;
                  status_activeRequests := 0; status_queuedRequests := 0;
                  status_rejectedRequests := 0 |}).
Proof.
  apply (methods_setter_replaces_registry (λ _ _, Ok None) (λ _ _, Ok AssignedOwn)
           (λ _ params, Ok (Some params))
           [("add", λ _, Ok None); ("sub", λ _, Ok None)]
           (endpointWith "old" (λ _, Ok None) noBulkheadOptions)).
  - repeat constructor.
  - apply (bool_decide_unpack _). by vm_compute.
Defined.
